(** * Rufus servo motion controller: the serial link, smooth moves and gestures

    A shallow embedding of the motion core of [pi_api_server.py] and
    [voice_stt_tts_fixed.py]: the serial link to the microcontroller, the
    low-level [send_servo_command], the interpolating [smooth_move] and the
    gesture players, followed by the properties of the specification;
    then the conversation memory of the voice program and further
    properties of the code. *)

From Stdlib Require Import ZArith QArith Qround Qabs Qpower Qreduction Lia Lqa.
From Stdlib Require Import Ascii String DecimalString SpecFloat.
From Stdlib Require DecimalZ DecimalPos.
From stdpp Require Import base option list gmap strings.

Local Open Scope Z_scope.

(** The exceptions the modelled code can meet. *)
Inductive exn : Type :=
| SerialException
| UnicodeDecodeError
| OverflowError
| ZeroDivisionError
| ValueError
| AttributeError
| OSError.

(** ** Python floats

    [smooth_move] divides two ints and mixes the result with ints, so its
    arithmetic runs on IEEE 754 binary64 values.  A finite float is the
    rational it denotes; every operation computes the exact rational and
    rounds it to the nearest binary64 value, ties to even. *)
Module PyFloat.

(** Nearest integer, ties to the even one. *)
Definition round_half_even (q : Q) : Z :=
  let f := Qfloor q in
  match Qcompare (q - inject_Z f) (1 # 2) with
  | Lt => f
  | Gt => f + 1
  | Eq => if Z.even f then f else f + 1
  end.

(** For [0 < q]: the exponent [e] with [2^e <= q < 2^(e+1)]. *)
Definition binade (q : Q) : Z :=
  let k := Z.log2 (Qnum q) - Z.log2 (Zpos (Qden q)) in
  if Qle_bool (2 ^ k) q then k else k - 1.

(** Exponent of the unit in the last place: 53 significant bits, and the
    subnormal grid [2^-1074] below [2^-1022]. *)
Definition ulp_exp (q : Q) : Z := Z.max (binade (Qabs q) - 52) (-1074).

(** Rounding to the binary64 grid, with no bound on the exponent. *)
Definition rnd (q : Q) : Q :=
  if Qeq_bool q 0 then 0%Q
  else let c := ulp_exp q in
       Qred (inject_Z (round_half_even (q / 2 ^ c)) * 2 ^ c).

Inductive pyfloat : Type :=
| Fin (q : Q)
| Inf (neg : bool)
| NaN.

Definition is_neg (q : Q) : bool := negb (Qle_bool 0 q).

(** The float a rational result rounds to; what rounds to [2^1024] or
    beyond overflows to an infinity. *)
Definition to_float (q : Q) : pyfloat :=
  let r := rnd q in
  if Qle_bool (2 ^ 1024) (Qabs r) then Inf (is_neg q) else Fin r.

Definition fmul (a b : pyfloat) : pyfloat :=
  match a, b with
  | NaN, _ | _, NaN => NaN
  | Fin x, Fin y => to_float (x * y)
  | Inf s, Inf t => Inf (xorb s t)
  | Inf s, Fin y | Fin y, Inf s =>
      if Qeq_bool y 0 then NaN else Inf (xorb s (is_neg y))
  end.

Definition fadd (a b : pyfloat) : pyfloat :=
  match a, b with
  | NaN, _ | _, NaN => NaN
  | Fin x, Fin y => to_float (x + y)
  | Inf s, Inf t => if Bool.eqb s t then Inf s else NaN
  | Inf s, Fin _ | Fin _, Inf s => Inf s
  end.

(** [int(x)] on a finite float: truncation toward zero. *)
Definition Qtrunc (q : Q) : Z := Z.quot (Qnum q) (Zpos (Qden q)).

(** [a / b] on two ints: the correctly rounded quotient. *)
Definition int_truediv (a b : Z) : exn + pyfloat :=
  if b =? 0 then inl ZeroDivisionError
  else match to_float (inject_Z a / inject_Z b) with
       | Inf _ => inl OverflowError
       | f => inr f
       end.

(** The conversion an int undergoes when it meets a float operand. *)
Definition int_to_float (z : Z) : exn + pyfloat :=
  match to_float (inject_Z z) with
  | Inf _ => inl OverflowError
  | f => inr f
  end.

(** [int(x)]. *)
Definition int_of_float (x : pyfloat) : exn + Z :=
  match x with
  | Fin q => inr (Qtrunc q)
  | Inf _ => inl OverflowError
  | NaN => inl ValueError
  end.

End PyFloat.

Import PyFloat.

(** ** Python strings *)

(** [str(n)] for an int, as an f-string renders it. *)
Definition py_str (z : Z) : string := NilZero.string_of_int (Z.to_int z).

(** The characters [str.strip()] removes (code points below 256). *)
Definition py_isspace (a : ascii) : bool :=
  let n := nat_of_ascii a in
  ((9 <=? n)%nat && (n <=? 13)%nat) || ((28 <=? n)%nat && (n <=? 32)%nat)
  || (n =? 133)%nat || (n =? 160)%nat.

Fixpoint lstrip (s : string) : string :=
  match s with
  | String a r => if py_isspace a then lstrip r else s
  | EmptyString => EmptyString
  end.

Definition strip (s : string) : string :=
  String.rev (lstrip (String.rev (lstrip s))).

Definition startswith (s p : string) : bool := String.prefix p s.

(** ** The process and its serial port *)

(** What one [readline()] followed by [.decode('utf-8')] can meet: a line
    that decodes to [text], bytes that do not decode, or a failing read. *)
Inductive rx : Type :=
| RxLine (text : string)
| RxUndecodable
| RxError.

(** The world outside the process.  [arrivals n] are the lines that reach
    the input buffer just before the [n]-th look at [in_waiting];
    [write_ok n] tells whether the [n]-th [write] goes through;
    [sleep_ok ms] tells whether the operating system takes a wait of [ms]
    milliseconds, asked only of waits longer than every platform takes. *)
Record env : Type := Env {
  port_opens : bool;
  arrivals : nat -> list rx;
  write_ok : nat -> bool;
  sleep_ok : Z -> bool
}.

Record port : Type := Port {
  is_open : bool;
  in_buf : list rx
}.

(** What the process does, in order.  [SendCall] and [SendPinCall] record
    the entry into [send_servo_command] of either program; the others are
    the effects themselves. *)
Inductive event : Type :=
| SendCall (servo : string) (angle : Z)
| SendPinCall (pin : Z) (angle : Z)
| Wrote (data : string)
| WriteFailed (data : string)
| Slept (ms : Z)
| Printed (msg : string).

(** The state of a process: the global [arduino], the program's own
    module-level tables [G], and the bookkeeping of the outside world. *)
Record state (G : Type) : Type := State {
  arduino : option port;
  globals : G;
  world : env;
  polls : nat;
  writes : nat;
  trace : list event
}.
Arguments State {G}.
Arguments arduino {G}.
Arguments globals {G}.
Arguments world {G}.
Arguments polls {G}.
Arguments writes {G}.
Arguments trace {G}.

(** A call returns, raises, or is still looping when the fuel is spent. *)
Inductive outcome (A : Type) : Type :=
| Ret (a : A)
| Raise (e : exn)
| Spin.
Arguments Ret {A}.
Arguments Raise {A}.
Arguments Spin {A}.

Definition M (G A : Type) : Type := state G -> outcome A * state G.

Definition ret {G A} (a : A) : M G A := fun s => (Ret a, s).

Definition bind {G A B} (m : M G A) (k : A -> M G B) : M G B :=
  fun s =>
    match m s with
    | (Ret a, s') => k a s'
    | (Raise e, s') => (Raise e, s')
    | (Spin, s') => (Spin, s')
    end.

Definition raise {G A} (e : exn) : M G A := fun s => (Raise e, s).

Notation "x <- m ;; k" := (bind m (fun x => k))
  (at level 100, m at next level, k at level 200, right associativity).
Notation "m ;;; k" := (bind m (fun _ => k))
  (at level 100, k at level 200, right associativity).

(** [try: m  except Exception: h]. *)
Definition try_except {G A} (m : M G A) (h : exn -> M G A) : M G A :=
  fun s =>
    match m s with
    | (Raise e, s') => h e s'
    | r => r
    end.

(** [for x in xs: body]. *)
Fixpoint for_each {G A} (xs : list A) (body : A -> M G unit) : M G unit :=
  match xs with
  | [] => ret tt
  | x :: rest => body x ;;; for_each rest body
  end.

(** A [while] loop whose body answers [Some r] to leave with [r] and
    [None] to go round again. *)
Fixpoint while_loop {G A} (fuel : nat) (body : M G (option A)) : M G A :=
  match fuel with
  | O => fun s => (Spin, s)
  | S fuel' =>
      r <- body ;;
      match r with
      | Some a => ret a
      | None => while_loop fuel' body
      end
  end.

Definition log {G} (e : event) : M G unit :=
  fun s => (Ret tt, State (arduino s) (globals s) (world s) (polls s)
                          (writes s) (trace s ++ [e])).

Definition get_globals {G} : M G G := fun s => (Ret (globals s), s).

Definition get_arduino {G} : M G (option port) := fun s => (Ret (arduino s), s).

(** [not arduino or not arduino.is_open]. *)
Definition link_down (a : option port) : bool :=
  match a with
  | None => true
  | Some p => negb (is_open p)
  end.

(** [arduino = serial.Serial(PORT, BAUD, timeout=1)]. *)
Definition serial_open {G} : M G unit :=
  fun s =>
    if port_opens (world s)
    then (Ret tt, State (Some (Port true [])) (globals s) (world s) (polls s)
                        (writes s) (trace s))
    else (Raise SerialException, s).

(** [arduino.in_waiting > 0]: what arrived meanwhile joins the buffer. *)
Definition in_waiting_pos {G} : M G bool :=
  fun s =>
    match arduino s with
    | None => (Raise AttributeError, s)
    | Some p =>
        let buf := in_buf p ++ arrivals (world s) (polls s) in
        (Ret (negb (Nat.eqb (length buf) 0)),
         State (Some (Port (is_open p) buf)) (globals s) (world s)
               (S (polls s)) (writes s) (trace s))
    end.

(** [arduino.readline().decode('utf-8')]; with nothing buffered the read
    times out and yields the empty string. *)
Definition read_text {G} : M G string :=
  fun s =>
    match arduino s with
    | None => (Raise AttributeError, s)
    | Some p =>
        match in_buf p with
        | [] => (Ret EmptyString, s)
        | l :: rest =>
            let s' := State (Some (Port (is_open p) rest)) (globals s) (world s)
                            (polls s) (writes s) (trace s) in
            match l with
            | RxLine text => (Ret text, s')
            | RxUndecodable => (Raise UnicodeDecodeError, s')
            | RxError => (Raise SerialException, s')
            end
        end
    end.

(** [arduino.write(data)]: on an open port the bytes go out or the write
    fails; on a closed port it raises before any I/O. *)
Definition serial_write {G} (data : string) : M G unit :=
  fun s =>
    match arduino s with
    | None => (Raise AttributeError, s)
    | Some p =>
        if is_open p then
          let ok := write_ok (world s) (writes s) in
          (if ok then Ret tt else Raise SerialException,
           State (arduino s) (globals s) (world s) (polls s) (S (writes s))
                 (trace s ++ [if ok then Wrote data else WriteFailed data]))
        else (Raise SerialException, s)
    end.

(** The duration [time.sleep] is asked for does not fit the signed 64-bit
    count of nanoseconds it is converted to. *)
Definition sleep_overflows (ms : Z) : bool :=
  (ms * 10 ^ 6 <? - 2 ^ 63) || (2 ^ 63 <=? ms * 10 ^ 6).

(** The longest wait, in milliseconds, that every platform takes: the
    limits are [2^32 - 1] ms, [10^8] s and [2^63] ns less the uptime. *)
Definition SLEEP_SAFE : Z := 2 ^ 31.

(** [time.sleep(ms / 1000)]: the conversion of the duration raises
    [OverflowError] when it overflows, a negative duration raises
    [ValueError], and a wait beyond [SLEEP_SAFE] is up to the operating
    system, whose refusal is an [OSError]. *)
Definition sleep {G} (ms : Z) : M G unit :=
  if sleep_overflows ms then raise OverflowError
  else if ms <? 0 then raise ValueError
  else fun s =>
         if (ms <=? SLEEP_SAFE) || sleep_ok (world s) ms
         then log (Slept ms) s
         else (Raise OSError, s).

Definition print {G} (msg : string) : M G unit := log (Printed msg).

Definition lift {G A} (r : exn + A) : M G A :=
  match r with
  | inl e => raise e
  | inr a => ret a
  end.

Definition LF : string := String (ascii_of_nat 10) EmptyString.

(** The f-string ["{pin}:{angle}\n"]. *)
Definition command_line (pin angle : Z) : string :=
  (py_str pin ++ ":" ++ py_str angle ++ LF)%string.

(** ** pi_api_server.py *)
Module Server.

Definition SERVO_PINS : gmap string Z :=
  list_to_map [("pan", 2); ("left_arm", 4); ("right_arm", 5)]%string.

Definition GESTURES : gmap string (list (string * Z)) :=
  list_to_map
    [("wave",
      [("pan", 90); ("right_arm", 70); ("right_arm", 40);
       ("right_arm", 70); ("right_arm", 40); ("right_arm", 70);
       ("right_arm", 40); ("left_arm", 90); ("right_arm", 90)]);
     ("nod",
      [("pan", 105); ("pan", 75); ("pan", 105); ("pan", 75); ("pan", 90)]);
     ("shake",
      [("pan", 65); ("pan", 115); ("pan", 65); ("pan", 115); ("pan", 90)]);
     ("happy",
      [("left_arm", 170); ("right_arm", 170); ("pan", 75);
       ("pan", 105); ("pan", 75); ("pan", 105);
       ("left_arm", 90); ("right_arm", 90); ("pan", 90)]);
     ("sad",
      [("pan", 50); ("left_arm", 60); ("right_arm", 60);
       ("pan", 50); ("left_arm", 90); ("right_arm", 90); ("pan", 90)]);
     ("excited",
      [("left_arm", 170); ("right_arm", 170); ("pan", 60);
       ("pan", 120); ("left_arm", 90); ("right_arm", 90); ("pan", 90)]);
     ("curious",
      [("pan", 70); ("left_arm", 110); ("right_arm", 110);
       ("pan", 70); ("left_arm", 90); ("right_arm", 90); ("pan", 90)]);
     ("rest",
      [("pan", 90); ("left_arm", 90); ("right_arm", 90)])]%string.

(** The module-level dictionaries as the running process holds them. *)
Record tables : Type := Tables {
  servo_pins : gmap string Z;
  gestures : gmap string (list (string * Z))
}.

Definition initial (w : env) : state tables :=
  State None (Tables SERVO_PINS GESTURES) w 0%nat 0%nat [].

(** The dictionaries still hold what the module assigned at import. *)
Definition intact (s : state tables) : Prop :=
  globals s = Tables SERVO_PINS GESTURES.

(** One turn of [while arduino.in_waiting > 0: ...]; leaving the loop
    falls through to [return True]. *)
Definition ready_body : M tables (option bool) :=
  waiting <- in_waiting_pos ;;
  if waiting : bool then
    response <- read_text ;;
    if String.eqb (strip response) "READY"
    then print "Arduino connected!" ;;; ret (Some true)
    else ret None
  else ret (Some true).

Definition init_arduino (fuel : nat) : M tables bool :=
  try_except
    (serial_open ;;;
     sleep 2000 ;;;
     while_loop fuel ready_body)
    (fun _ => print "Arduino not connected" ;;; ret false).

Definition send_servo_command (pin angle : Z) : M tables bool :=
  log (SendPinCall pin angle) ;;;
  a <- get_arduino ;;
  if link_down a then ret false
  else
    try_except
      (serial_write (command_line pin angle) ;;;
       sleep 50 ;;;
       ret true)
      (fun _ => print "Servo command failed" ;;; ret false).

(** One turn of the loop of [perform_gesture]. *)
Definition gesture_body (step : string * Z) : M tables unit :=
  let '(servo, angle) := step in
  g <- get_globals ;;
  match servo_pins g !! servo with
  | Some pin =>
      if pin =? 0 then ret tt
      else send_servo_command pin angle ;;; sleep 150
  | None => ret tt
  end.

Definition perform_gesture (gesture_name : string) : M tables bool :=
  g <- get_globals ;;
  match gestures g !! gesture_name with
  | None => ret false
  | Some sequence => for_each sequence gesture_body ;;; ret true
  end.

(** The JSON body of the "set servo" route's answer. *)
Inductive servo_reply : Type :=
| UnknownServo
| Success (success : bool).

Definition control_servo (servo : string) (angle : Z) : M tables servo_reply :=
  g <- get_globals ;;
  match servo_pins g !! servo with
  | Some pin =>
      if pin =? 0 then ret UnknownServo
      else success <- send_servo_command pin angle ;; ret (Success success)
  | None => ret UnknownServo
  end.

Definition trigger_gesture (gesture : string) : M tables bool :=
  perform_gesture gesture.

(** What the process can be asked to do, and the states it can reach. *)
Inductive command : Type :=
| Init (fuel : nat)
| Send (pin angle : Z)
| Perform (gesture_name : string)
| ControlServo (servo : string) (angle : Z)
| Trigger (gesture : string).

Definition run (c : command) (s : state tables) : state tables :=
  match c with
  | Init fuel => snd (init_arduino fuel s)
  | Send pin angle => snd (send_servo_command pin angle s)
  | Perform gesture_name => snd (perform_gesture gesture_name s)
  | ControlServo servo angle => snd (control_servo servo angle s)
  | Trigger gesture => snd (trigger_gesture gesture s)
  end.

Definition run_all (cs : list command) (s : state tables) : state tables :=
  fold_left (fun s c => run c s) cs s.

End Server.

(** ** voice_stt_tts_fixed.py *)
Module Voice.

Definition SERVO_PINS : gmap string Z :=
  list_to_map [("head", 2); ("pan", 2); ("left_arm", 4); ("right_arm", 5)]%string.

Definition SERVO_REST : gmap string Z :=
  list_to_map [("head", 90); ("pan", 90); ("left_arm", 90); ("right_arm", 90)]%string.

Record tables : Type := Tables {
  servo_pins : gmap string Z;
  servo_rest : gmap string Z
}.

Definition initial (w : env) : state tables :=
  State None (Tables SERVO_PINS SERVO_REST) w 0%nat 0%nat [].

(** The dictionaries still hold what the module assigned at import. *)
Definition intact (s : state tables) : Prop :=
  globals s = Tables SERVO_PINS SERVO_REST.

(** One turn of [while True: ...]: the loop is left only by the
    [return True] under ["READY"]. *)
Definition ready_body : M tables (option bool) :=
  waiting <- in_waiting_pos ;;
  if waiting : bool then
    response <- read_text ;;
    if String.eqb (strip response) "READY"
    then print "Arduino connected!" ;;; ret (Some true)
    else ret None
  else ret None.

Definition init_arduino (fuel : nat) : M tables bool :=
  try_except
    (serial_open ;;;
     sleep 2000 ;;;
     while_loop fuel ready_body)
    (fun _ =>
       print "Arduino not connected" ;;;
       print "Continuing without servo control..." ;;;
       ret false).

Definition send_servo_command (servo : string) (angle : Z) : M tables bool :=
  log (SendCall servo angle) ;;;
  a <- get_arduino ;;
  if link_down a then ret false
  else
    try_except
      (g <- get_globals ;;
       match servo_pins g !! servo with
       | Some pin =>
           if pin =? 0 then print ("Unknown servo: " ++ servo) ;;; ret false
           else
             serial_write (command_line pin angle) ;;;
             sleep 50 ;;;
             waiting <- in_waiting_pos ;;
             if waiting : bool then
               response <- read_text ;;
               ret (startswith (strip response) "OK")
             else ret false
       | None => print ("Unknown servo: " ++ servo) ;;; ret false
       end)
      (fun _ => print "Servo command failed" ;;; ret false).

(** [int(current_pos + (step_size * k))]. *)
Definition interpolate (current_pos : Z) (step_size : pyfloat) (k : Z) : exn + Z :=
  match int_to_float k with
  | inl e => inl e
  | inr fk =>
      let product := fmul step_size fk in
      match int_to_float current_pos with
      | inl e => inl e
      | inr fc => int_of_float (fadd fc product)
      end
  end.

(** One turn of the loop of [smooth_move]. *)
Definition smooth_body (servo : string) (current_pos : Z) (step_size : pyfloat)
    (delay i : Z) : M tables unit :=
  angle <- lift (interpolate current_pos step_size (i + 1)) ;;
  send_servo_command servo angle ;;;
  sleep delay.

Definition smooth_move (servo : string) (target_angle steps delay : Z)
  : M tables unit :=
  a <- get_arduino ;;
  if link_down a then ret tt
  else
    try_except
      (g <- get_globals ;;
       let current_pos := default 90 (servo_rest g !! servo) in
       step_size <- lift (int_truediv (target_angle - current_pos) steps) ;;
       for_each (seqZ 0 steps) (smooth_body servo current_pos step_size delay))
      (fun _ => print "Smooth move failed").

(** The defaults [steps=10, delay=0.02]. *)
Definition default_steps : Z := 10.
Definition default_delay : Z := 20.

Definition repeat_times {G} (n : Z) (body : M G unit) : M G unit :=
  for_each (seqZ 0 n) (fun _ => body).

Definition gesture_rest : M tables unit :=
  smooth_move "head" 90 default_steps default_delay ;;;
  smooth_move "left_arm" 90 default_steps default_delay ;;;
  smooth_move "right_arm" 90 default_steps default_delay.

Definition gesture_wave : M tables unit :=
  smooth_move "head" 90 default_steps default_delay ;;;
  sleep 200 ;;;
  repeat_times 3
    (smooth_move "right_arm" 70 5 default_delay ;;;
     sleep 150 ;;;
     smooth_move "right_arm" 40 5 default_delay ;;;
     sleep 150) ;;;
  gesture_rest.

Definition gesture_nod : M tables unit :=
  repeat_times 2
    (smooth_move "head" 105 5 default_delay ;;;
     sleep 150 ;;;
     smooth_move "head" 75 5 default_delay ;;;
     sleep 150) ;;;
  smooth_move "head" 90 default_steps default_delay.

Definition gesture_shake : M tables unit :=
  repeat_times 2
    (smooth_move "head" 65 5 default_delay ;;;
     sleep 150 ;;;
     smooth_move "head" 115 5 default_delay ;;;
     sleep 150) ;;;
  smooth_move "head" 90 default_steps default_delay.

Definition mood_happy : M tables unit :=
  smooth_move "left_arm" 170 5 default_delay ;;;
  smooth_move "right_arm" 170 5 default_delay ;;;
  sleep 300 ;;;
  repeat_times 3
    (smooth_move "head" 75 3 default_delay ;;;
     sleep 100 ;;;
     smooth_move "head" 105 3 default_delay ;;;
     sleep 100) ;;;
  gesture_rest.

Definition mood_sad : M tables unit :=
  smooth_move "head" 50 10 default_delay ;;;
  sleep 300 ;;;
  smooth_move "left_arm" 60 10 default_delay ;;;
  smooth_move "right_arm" 60 10 default_delay ;;;
  sleep 1500 ;;;
  gesture_rest.

Definition mood_excited : M tables unit :=
  smooth_move "left_arm" 170 3 default_delay ;;;
  smooth_move "right_arm" 170 3 default_delay ;;;
  sleep 200 ;;;
  repeat_times 2
    (smooth_move "head" 60 4 default_delay ;;;
     smooth_move "head" 120 4 default_delay) ;;;
  gesture_rest.

Definition mood_curious : M tables unit :=
  smooth_move "head" 70 10 default_delay ;;;
  sleep 200 ;;;
  smooth_move "left_arm" 110 10 default_delay ;;;
  smooth_move "right_arm" 110 10 default_delay ;;;
  sleep 1000 ;;;
  gesture_rest.

(** The dispatch dictionary of [perform_gesture], built afresh per call. *)
Definition gestures : gmap string (M tables unit) :=
  list_to_map [("wave", gesture_wave); ("nod", gesture_nod);
               ("shake", gesture_shake); ("rest", gesture_rest)]%string.

Definition perform_gesture (gesture_name : string) : M tables unit :=
  match gestures !! gesture_name with
  | Some gesture_func => gesture_func
  | None => ret tt
  end.

Definition mood_gestures : gmap string (M tables unit) :=
  list_to_map [("happy", mood_happy); ("sad", mood_sad);
               ("excited", mood_excited); ("curious", mood_curious)]%string.

Definition perform_mood_gesture (mood : string) : M tables unit :=
  match mood_gestures !! mood with
  | Some mood_func => mood_func
  | None => ret tt
  end.

Definition execute_gesture (gesture : string) : M tables unit :=
  if String.eqb gesture "" || String.eqb gesture "neutral" then ret tt
  else
    print ("Gesture: " ++ gesture) ;;;
    (if String.eqb gesture "yes" then gesture_nod
     else if String.eqb gesture "no" then gesture_shake
     else ret tt) ;;;
    print "Gesture complete".

(** What the process can be asked to do, and the states it can reach. *)
Inductive command : Type :=
| Init (fuel : nat)
| Send (servo : string) (angle : Z)
| SmoothMove (servo : string) (target_angle steps delay : Z)
| PerformGesture (gesture_name : string)
| PerformMood (mood : string)
| ExecuteGesture (gesture : string).

Definition run (c : command) (s : state tables) : state tables :=
  match c with
  | Init fuel => snd (init_arduino fuel s)
  | Send servo angle => snd (send_servo_command servo angle s)
  | SmoothMove servo target_angle steps delay =>
      snd (smooth_move servo target_angle steps delay s)
  | PerformGesture gesture_name => snd (perform_gesture gesture_name s)
  | PerformMood mood => snd (perform_mood_gesture mood s)
  | ExecuteGesture gesture => snd (execute_gesture gesture s)
  end.

Definition run_all (cs : list command) (s : state tables) : state tables :=
  fold_left (fun s c => run c s) cs s.

End Voice.

(** ** Sample devices *)

Definition CRLF : string :=
  String (ascii_of_nat 13) (String (ascii_of_nat 10) EmptyString).

(** A port that opens onto a device that never says anything. *)
Definition silent_device : env :=
  Env true (fun _ => []) (fun _ => true) (fun _ => true).

(** A device that greets with ["READY"] and acknowledges every later look
    at the buffer with ["OK"]. *)
Definition ok_device : env :=
  Env true
      (fun n => match n with
                | O => [RxLine ("READY" ++ CRLF)]
                | S _ => [RxLine ("OK" ++ CRLF)]
                end)
      (fun _ => true)
      (fun _ => true).

(** No port to open. *)
Definition no_device : env :=
  Env false (fun _ => []) (fun _ => true) (fun _ => true).

(** A device that takes no write. *)
Definition deaf_device : env :=
  Env true (fun _ => []) (fun _ => false) (fun _ => true).

(** ** Reading a trace *)

(** What a call adds to the trace. *)
Definition emitted {G A} (m : M G A) (s : state G) : list event :=
  drop (length (trace s)) (trace (snd (m s))).

(** The [(servo, angle)] arguments of the calls of the voice program's
    [send_servo_command], in order. *)
Definition send_calls (t : list event) : list (string * Z) :=
  omap (fun e => match e with SendCall servo a => Some (servo, a) | _ => None end) t.

(** The [(pin, angle)] arguments of the calls of the server's
    [send_servo_command], in order. *)
Definition pin_calls (t : list event) : list (Z * Z) :=
  omap (fun e => match e with SendPinCall pin a => Some (pin, a) | _ => None end) t.

(** Every attempt to put bytes on the wire, failed ones included. *)
Definition wire (t : list event) : list string :=
  omap (fun e => match e with
                 | Wrote d | WriteFailed d => Some d
                 | _ => None
                 end) t.

(** The bytes that went through. *)
Definition written (t : list event) : list string :=
  omap (fun e => match e with Wrote d => Some d | _ => None end) t.

(** The pauses taken, in milliseconds. *)
Definition sleeps (t : list event) : list Z :=
  omap (fun e => match e with Slept ms => Some ms | _ => None end) t.

(** [int(start + ((target - start) / N) * i)] evaluated in binary64
    arithmetic, every intermediate result finite. *)
Definition float_interp (start target N i : Z) : Z :=
  let step := rnd (inject_Z (target - start) / inject_Z N) in
  Qtrunc (rnd (rnd (inject_Z start) + rnd (step * rnd (inject_Z i)))).

(** The same expression through the binary64 operations of the Standard
    Library's [SpecFloat], to compare the two on samples. *)
Definition sf_of_Z (z : Z) : spec_float := binary_normalize 53 1024 z 0 false.

Definition sf_trunc (f : spec_float) : option Z :=
  match f with
  | S754_zero _ => Some 0
  | S754_finite s m e =>
      let a := if 0 <=? e then Z.pos m * 2 ^ e else Z.pos m / 2 ^ (- e) in
      Some (if s then - a else a)
  | _ => None
  end.

Definition sf_interp (start target N i : Z) : option Z :=
  let step := SFdiv 53 1024 (sf_of_Z (target - start)) (sf_of_Z N) in
  sf_trunc (SFadd 53 1024 (sf_of_Z start) (SFmul 53 1024 step (sf_of_Z i))).

Definition agree_on (target N : Z) : bool :=
  forallb (fun i => bool_decide (sf_interp 90 target N i
                                 = Some (float_interp 90 target N i)))
          (seqZ 1 N).

(** ** What the statements speak of *)

(** The pin a servo name resolves to, when the dictionary has it and the
    entry passes the truth test [if pin:]. *)
Definition known_pin (pins : gmap string Z) (servo : string) : option Z :=
  match pins !! servo with
  | Some pin => if pin =? 0 then None else Some pin
  | None => None
  end.


(** The steps of a gesture with their servo names resolved to pins. *)
Definition resolve (pins : gmap string Z) (steps : list (string * Z))
  : list (Z * Z) :=
  omap (fun '(servo, angle) =>
          match known_pin pins servo with
          | Some pin => Some (pin, angle)
          | None => None
          end) steps.

(** What one call of the server's [send_servo_command] leaves on the trace
    after its entry: nothing when the link is down, the line and the 50 ms
    pause when the write goes through, the failed write and its report
    otherwise. *)
Inductive step_io (pin angle : Z) : list event -> Prop :=
| io_link_down : step_io pin angle []
| io_sent : step_io pin angle [Wrote (command_line pin angle); Slept 50]
| io_failed :
    step_io pin angle [WriteFailed (command_line pin angle);
                       Printed "Servo command failed"].

(** A trace that plays the given [(pin, angle)] steps in order: each step
    is one call of send, whatever its fate, and then the 150 ms pause. *)
Inductive played : list (Z * Z) -> list event -> Prop :=
| played_nil : played [] []
| played_cons pin angle io rest tr :
    step_io pin angle io ->
    played rest tr ->
    played ((pin, angle) :: rest)
           (SendPinCall pin angle :: io ++ Slept 150 :: tr).

(** The angle of the last step of a sequence that names [servo]. *)
Definition last_angle (servo : string) (steps : list (string * Z)) : option Z :=
  last (omap (fun '(name, angle) =>
                if String.eqb name servo then Some angle else None) steps).

(** The angle of the last step of a resolved sequence on [pin]. *)
Definition last_pin_angle (pin : Z) (steps : list (Z * Z)) : option Z :=
  last (omap (fun '(p, angle) => if p =? pin then Some angle else None) steps).

(** What the input buffer holds at the next look at [in_waiting]. *)
Definition pending {G} (s : state G) : list rx :=
  match arduino s with
  | Some p => in_buf p ++ arrivals (world s) (polls s)
  | None => []
  end.


(** A line that reads well and is not the readiness token. *)
Definition not_ready (l : rx) : Prop :=
  exists text, l = RxLine text /\ String.eqb (strip text) "READY" = false.

(** The device never sends the readiness token: whatever arrives is a line
    other than ["READY"]. *)
Definition never_ready (w : env) : Prop :=
  forall n, Forall not_ready (arrivals w n).

(** A call leaves the module-level dictionaries as they were. *)
Definition keeps_tables {G A} (m : M G A) : Prop :=
  forall s, globals (snd (m s)) = globals s.

(** A voice process whose port has opened and whose device greeted. *)
Definition voice_ready : state Voice.tables :=
  snd (Voice.init_arduino 1 (Voice.initial ok_device)).

(** A server process in the same situation. *)
Definition server_ready : state Server.tables :=
  snd (Server.init_arduino 1 (Server.initial ok_device)).

(** ** More sample devices *)

(** A device that talks before and after its greeting. *)
Definition chatty_device : env :=
  Env true
      (fun n => match n with
                | O => [RxLine ("Booting" ++ CRLF); RxLine (" READY" ++ CRLF);
                        RxLine ("OK" ++ CRLF)]
                | S _ => []
                end)
      (fun _ => true)
      (fun _ => true).

(** A device whose second line is not valid UTF-8. *)
Definition noisy_device : env :=
  Env true
      (fun n => match n with
                | O => [RxLine ("Booting" ++ CRLF); RxUndecodable]
                | S _ => []
                end)
      (fun _ => true)
      (fun _ => true).

(** A device that greets at the third look at the buffer. *)
Definition late_device : env :=
  Env true
      (fun n => match n with
                | 2%nat => [RxLine ("READY" ++ CRLF)]
                | _ => []
                end)
      (fun _ => true)
      (fun _ => true).

(** ** What the further properties speak of *)

(** A call keeps the property [P] of the state. *)
Definition preserves {G A} (P : state G -> Prop) (m : M G A) : Prop :=
  forall s, P s -> P (snd (m s)).

(** The link is open. *)
Definition link_up {G} (s : state G) : Prop := link_down (arduino s) = false.

(** The turn both [init_arduino] loops share; they differ in what an empty
    buffer means: [idle = Some true] leaves the server's loop, [idle = None]
    keeps the voice program's loop going. *)
Definition ready_turn {G} (idle : option bool) : M G (option bool) :=
  waiting <- in_waiting_pos ;;
  if waiting : bool then
    response <- read_text ;;
    if String.eqb (strip response) "READY"
    then print "Arduino connected!" ;;; ret (Some true)
    else ret None
  else ret idle.

(** The readiness token, whatever white space surrounds it. *)
Definition is_ready (l : rx) : Prop :=
  exists text, l = RxLine text /\ String.eqb (strip text) "READY" = true.

(** A line that cannot be read: its bytes do not decode, or the read fails. *)
Definition unreadable (l : rx) : Prop := l = RxUndecodable \/ l = RxError.

(** The lines that arrive at the looks [from], ..., [from + n - 1]. *)
Definition backlog (w : env) (from n : nat) : list rx :=
  concat (map (arrivals w) (seq from n)).

(** The field [arduino_connected] of the answer of [health] in
    pi_api_server.py: [arduino is not None]. *)
Definition health (s : state Server.tables) : bool :=
  match arduino s with
  | Some _ => true
  | None => false
  end.

(** The state in which the loop of [init_arduino] starts when the port
    opens. *)
Definition opened {G} (s : state G) : state G :=
  State (Some (Port true [])) (globals s) (world s) (polls s) (writes s)
        (trace s ++ [Slept 2000]).

(** A call returns a value: it neither raises nor loops on. *)
Definition returned {A} (o : outcome A) : bool :=
  match o with
  | Ret _ => true
  | _ => false
  end.

Definition server_returns (c : Server.command) (s : state Server.tables) : bool :=
  match c with
  | Server.Init fuel => returned (fst (Server.init_arduino fuel s))
  | Server.Send pin angle => returned (fst (Server.send_servo_command pin angle s))
  | Server.Perform name => returned (fst (Server.perform_gesture name s))
  | Server.ControlServo servo angle => returned (fst (Server.control_servo servo angle s))
  | Server.Trigger gesture => returned (fst (Server.trigger_gesture gesture s))
  end.

Definition voice_returns (c : Voice.command) (s : state Voice.tables) : bool :=
  match c with
  | Voice.Init fuel => returned (fst (Voice.init_arduino fuel s))
  | Voice.Send servo angle => returned (fst (Voice.send_servo_command servo angle s))
  | Voice.SmoothMove servo target steps delay =>
      returned (fst (Voice.smooth_move servo target steps delay s))
  | Voice.PerformGesture name => returned (fst (Voice.perform_gesture name s))
  | Voice.PerformMood mood => returned (fst (Voice.perform_mood_gesture mood s))
  | Voice.ExecuteGesture gesture => returned (fst (Voice.execute_gesture gesture s))
  end.

(** No hardware: there is no port to open, the link is down, and nothing
    has been handed to a port. *)
Definition no_hardware {G} (s : state G) : Prop :=
  link_down (arduino s) = true
  /\ port_opens (world s) = false
  /\ wire (trace s) = [].

(** From a state with [P], a call returns a value and keeps [P]. *)
Definition runs_within {G A} (P : state G -> Prop) (m : M G A) : Prop :=
  forall s, P s -> P (snd (m s)) /\ returned (fst (m s)) = true.

(** The calls of send one [smooth_move] makes on an open link: the
    interpolated angles from the rest angle to the target. *)
Definition ramp (servo : string) (target N : Z) : list (string * Z) :=
  map (fun i => (servo, float_interp 90 target N i)) (seqZ 1 N).

(** From an open link and untouched tables, a call returns, keeps both, and
    calls send with exactly [calls], in order. *)
Definition commands (m : M Voice.tables unit) (calls : list (string * Z)) : Prop :=
  forall s, link_up s -> Voice.intact s ->
    exists s',
      m s = (Ret tt, s')
      /\ link_up s' /\ Voice.intact s'
      /\ exists tr, trace s' = trace s ++ tr /\ send_calls tr = calls.

(** The calls of send each gesture of the voice program makes. *)
Definition rest_calls : list (string * Z) :=
  ramp "head" 90 10 ++ ramp "left_arm" 90 10 ++ ramp "right_arm" 90 10.

Definition wave_calls : list (string * Z) :=
  ramp "head" 90 10
  ++ concat (replicate 3 (ramp "right_arm" 70 5 ++ ramp "right_arm" 40 5))
  ++ rest_calls.

Definition nod_calls : list (string * Z) :=
  concat (replicate 2 (ramp "head" 105 5 ++ ramp "head" 75 5))
  ++ ramp "head" 90 10.

Definition shake_calls : list (string * Z) :=
  concat (replicate 2 (ramp "head" 65 5 ++ ramp "head" 115 5))
  ++ ramp "head" 90 10.

Definition happy_calls : list (string * Z) :=
  ramp "left_arm" 170 5 ++ ramp "right_arm" 170 5
  ++ concat (replicate 3 (ramp "head" 75 3 ++ ramp "head" 105 3))
  ++ rest_calls.

Definition sad_calls : list (string * Z) :=
  ramp "head" 50 10 ++ ramp "left_arm" 60 10 ++ ramp "right_arm" 60 10
  ++ rest_calls.

Definition excited_calls : list (string * Z) :=
  ramp "left_arm" 170 3 ++ ramp "right_arm" 170 3
  ++ concat (replicate 2 (ramp "head" 60 4 ++ ramp "head" 120 4))
  ++ rest_calls.

Definition curious_calls : list (string * Z) :=
  ramp "head" 70 10 ++ ramp "left_arm" 110 10 ++ ramp "right_arm" 110 10
  ++ rest_calls.

(** Each gesture function of the voice program with the calls it makes. *)
Definition voice_repertoire : list (M Voice.tables unit * list (string * Z)) :=
  [(Voice.gesture_wave, wave_calls); (Voice.gesture_nod, nod_calls);
   (Voice.gesture_shake, shake_calls); (Voice.gesture_rest, rest_calls);
   (Voice.mood_happy, happy_calls); (Voice.mood_sad, sad_calls);
   (Voice.mood_excited, excited_calls); (Voice.mood_curious, curious_calls)].

(** The calls behind each name [perform_gesture] knows, and behind each
    mood [perform_mood_gesture] knows. *)
Definition gesture_calls : gmap string (list (string * Z)) :=
  list_to_map [("wave", wave_calls); ("nod", nod_calls);
               ("shake", shake_calls); ("rest", rest_calls)]%string.

Definition mood_calls : gmap string (list (string * Z)) :=
  list_to_map [("happy", happy_calls); ("sad", sad_calls);
               ("excited", excited_calls); ("curious", curious_calls)]%string.

(** The bytes a sequence of commands puts on the serial line: their command
    lines one after the other. *)
Definition byte_stream (cmds : list (Z * Z)) : string :=
  String.concat "" (map (fun c => command_line c.1 c.2) cmds).

(** A character that separates the fields of a command line. *)
Definition is_separator (a : ascii) : bool :=
  (Ascii.eqb a ":" || Ascii.eqb a (ascii_of_nat 10))%bool.

Fixpoint has_separator (s : string) : bool :=
  match s with
  | EmptyString => false
  | String a r => (is_separator a || has_separator r)%bool
  end.

(** ** voice_stt_tts_fixed.py: the conversation memory *)
Module Memory.

(** A chat message, the dict [{"role": ..., "content": ...}]. *)
Record message := Message { role : string; content : string }.

Definition MAX_TURNS : nat := 10.

(** [add_to_memory]: the global list [conversation_history] is passed in and
    out.  The slice [history[-(MAX_TURNS * 2 + 1):]] of a longer list is its
    last [MAX_TURNS * 2 + 1] elements. *)
Definition add_to_memory (role content : string) (history : list message)
  : list message :=
  let history := history ++ [Message role content] in
  if (MAX_TURNS * 2 + 1 <? length history)%nat
  then drop (length history - (MAX_TURNS * 2 + 1)) history
  else history.

(** [clear_memory]; its print is not part of the memory. *)
Definition clear_memory (history : list message) : list message := [].

(** What the chat completion call and the parsing of its answer come to:
    an exception other than [JSONDecodeError] anywhere in the [try] block,
    a [JSONDecodeError] of [json.loads], or a JSON object with or without
    the keys ["speech"] and ["gesture"], whose values are strings where
    present. *)
Inductive reply :=
| Failed
| NotJson
| Parsed (speech gesture : option string).

(** The list [messages] of [get_ai_response]: the system prompt, then the
    memory. *)
Definition messages (SYSTEM_PROMPT : string) (history : list message)
  : list message :=
  Message "system" SYSTEM_PROMPT :: history.

(** [get_ai_response], with the service as a function of the request; it
    returns the pair [(speech, gesture)] and the memory. *)
Definition get_ai_response (SYSTEM_PROMPT : string)
    (client : list message -> reply) (user_message : string)
    (history : list message) : (string * string) * list message :=
  let history := add_to_memory "user" user_message history in
  match client (messages SYSTEM_PROMPT history) with
  | Parsed speech gesture =>
      let speech := default ""%string speech in
      let gesture := default "neutral"%string gesture in
      ((speech, gesture), add_to_memory "assistant" speech history)
  | NotJson =>
      (("I'm having trouble processing that right now."%string,
        "neutral"%string), history)
  | Failed =>
      (("Something went wrong. Can you try again?"%string,
        "neutral"%string), history)
  end.

(** What the loop of [main] does to the memory on one input: [clear]
    empties it, a message goes to [get_ai_response]. *)
Inductive input :=
| Clear
| Say (user_message : string).

Definition turn (SYSTEM_PROMPT : string) (client : list message -> reply)
    (history : list message) (i : input) : list message :=
  match i with
  | Clear => clear_memory history
  | Say user_message =>
      snd (get_ai_response SYSTEM_PROMPT client user_message history)
  end.

Definition session (SYSTEM_PROMPT : string) (client : list message -> reply)
    (inputs : list input) (history : list message) : list message :=
  foldl (turn SYSTEM_PROMPT client) history inputs.

End Memory.

(** The last [n] elements of a list. *)
Definition last_n {A} (n : nat) (l : list A) : list A :=
  drop (length l - n) l.

(** Adding messages one after the other. *)
Definition remember (history : list Memory.message) (new : list Memory.message)
  : list Memory.message :=
  foldl (fun h m => Memory.add_to_memory (Memory.role m) (Memory.content m) h)
        history new.

(** The messages of a conversation in which every question was answered. *)
Definition dialogue (exchanges : list (string * string)) : list Memory.message :=
  concat (map (fun e => [Memory.Message "user" e.1;
                         Memory.Message "assistant" e.2]) exchanges).

(** * Properties *)

(** ** Rounding *)
Module PyFloatFacts.

Local Open Scope Q_scope.

Lemma pow2_pos (k : Z) : 0 < 2 ^ k.
Proof. apply Qpower_0_lt. reflexivity. Qed.

Lemma pow2_add (a b : Z) : 2 ^ (a + b) == 2 ^ a * 2 ^ b.
Proof. apply Qpower_plus. discriminate. Qed.

Lemma pow2_le (a b : Z) : (a <= b)%Z -> 2 ^ a <= 2 ^ b.
Proof. intros H. apply Qpower_le_compat_l; [exact H | discriminate]. Qed.

Lemma pow2_lt_inv (a b : Z) : 2 ^ a < 2 ^ b -> (a < b)%Z.
Proof. intros H. apply (Qpower_lt_compat_l_inv 2); [exact H | reflexivity]. Qed.

Lemma pow2_Z (n : Z) : (0 <= n)%Z -> inject_Z (2 ^ n) == 2 ^ n.
Proof. intros H. apply (Zpower_Qpower 2 n H). Qed.

Lemma Qabs_nonneg_eq (x : Q) : 0 <= x -> Qabs x = x.
Proof.
  destruct x as [n d]. unfold Qle, Qabs. simpl. intros H.
  f_equal. apply Z.abs_eq. lia.
Qed.

(** *** Nearest integer *)

Lemma round_half_even_spec (x : Q) :
  let r := inject_Z (round_half_even x) in
  (x - (1 # 2) < r /\ r < x + (1 # 2))
  \/ ((r == x - (1 # 2) \/ r == x + (1 # 2))
      /\ Z.even (round_half_even x) = true).
Proof.
  unfold round_half_even.
  pose proof (Qfloor_le x) as Hlo. pose proof (Qlt_floor x) as Hhi.
  rewrite inject_Z_plus in Hhi. change (inject_Z 1) with 1 in Hhi.
  destruct (Qcompare_spec (x - inject_Z (Qfloor x)) (1 # 2)) as [E | L | G];
    cbv zeta; rewrite ?inject_Z_plus; change (inject_Z 1) with 1.
  - destruct (Z.even (Qfloor x)) eqn:Ev.
    + right. split; [left; lra | exact Ev].
    + right. rewrite inject_Z_plus. change (inject_Z 1) with 1.
      split; [right; lra |].
      rewrite Z.even_add, Ev. reflexivity.
  - left. lra.
  - left. lra.
Qed.

Lemma round_half_even_le (x y : Q) :
  x <= y -> (round_half_even x <= round_half_even y)%Z.
Proof.
  intros Hxy.
  destruct (Z_le_gt_dec (round_half_even x) (round_half_even y)) as [H | H];
    [exact H | exfalso].
  assert (Hq : inject_Z (round_half_even y) + 1 <= inject_Z (round_half_even x)).
  { change 1 with (inject_Z 1). rewrite <- (inject_Z_plus _ 1), <- Zle_Qle. lia. }
  pose proof (round_half_even_spec x) as Sx.
  pose proof (round_half_even_spec y) as Sy.
  cbv zeta in Sx, Sy.
  destruct Sx as [[_ Sx] | [[Sx | Sx] Ex]]; [lra | lra |].
  destruct Sy as [[Sy _] | [[Sy | Sy] Ey]]; [lra | | lra].
  assert (Heq : inject_Z (round_half_even x) == inject_Z (round_half_even y + 1)).
  { rewrite inject_Z_plus. change (inject_Z 1) with 1. lra. }
  apply (proj1 (inject_Z_injective _ _)) in Heq.
  rewrite Heq, Z.even_add, Ey in Ex. discriminate.
Qed.

Lemma round_half_even_Z (z : Z) : round_half_even (inject_Z z) = z.
Proof.
  unfold round_half_even. rewrite Qfloor_Z.
  destruct (Qcompare_spec (inject_Z z - inject_Z z) (1 # 2)) as [E | L | G];
    [lra | reflexivity | lra].
Qed.

Lemma round_half_even_opp (x : Q) :
  round_half_even (- x) = (- round_half_even x)%Z.
Proof.
  pose proof (round_half_even_spec x) as Sx.
  pose proof (round_half_even_spec (- x)) as Sn.
  cbv zeta in Sx, Sn.
  set (a := round_half_even x) in *. set (b := round_half_even (- x)) in *.
  assert (Hcases : (b + 1 <= - a \/ b = - a \/ - a + 1 <= b)%Z) by lia.
  destruct Hcases as [Hlt | [Heq | Hgt]]; [exfalso | exact Heq | exfalso].
  - rewrite Zle_Qle in Hlt.
    rewrite inject_Z_plus, inject_Z_opp in Hlt. change (inject_Z 1) with 1 in Hlt.
    destruct Sx as [[Sx1 Sx2] | [[Sx | Sx] Ex]];
      destruct Sn as [[Sn1 Sn2] | [[Sn | Sn] En]]; try lra.
    assert (Heq : inject_Z (b + 1) == inject_Z (- a)).
    { rewrite inject_Z_plus, inject_Z_opp. change (inject_Z 1) with 1. lra. }
    apply (proj1 (inject_Z_injective _ _)) in Heq.
    assert (Ha : Z.even (- a) = true) by (rewrite Z.even_opp; exact Ex).
    rewrite <- Heq, Z.even_add, En in Ha. discriminate.
  - rewrite Zle_Qle in Hgt.
    rewrite inject_Z_plus, inject_Z_opp in Hgt. change (inject_Z 1) with 1 in Hgt.
    destruct Sx as [[Sx1 Sx2] | [[Sx | Sx] Ex]];
      destruct Sn as [[Sn1 Sn2] | [[Sn | Sn] En]]; try lra.
    assert (Heq : inject_Z (- a + 1) == inject_Z b).
    { rewrite inject_Z_plus, inject_Z_opp. change (inject_Z 1) with 1. lra. }
    apply (proj1 (inject_Z_injective _ _)) in Heq.
    assert (Ha : Z.even (- a) = true) by (rewrite Z.even_opp; exact Ex).
    rewrite <- Heq, Z.even_add, Ha in En. discriminate.
Qed.

(** *** The binade of a positive rational *)

Lemma binade_spec (q : Q) :
  0 < q -> 2 ^ binade q <= q /\ q < 2 ^ (binade q + 1).
Proof.
  intros Hq. destruct q as [n d]. unfold binade. simpl Qnum. simpl Qden.
  assert (Hn : (0 < n)%Z) by (unfold Qlt in Hq; simpl in Hq; lia).
  pose proof (Z.log2_nonneg n) as Ha0.
  pose proof (Z.log2_nonneg (Z.pos d)) as Hb0.
  destruct (Z.log2_spec n Hn) as [Ha1 Ha2].
  destruct (Z.log2_spec (Z.pos d) ltac:(lia)) as [Hb1 Hb2].
  set (a := Z.log2 n) in *. set (b := Z.log2 (Z.pos d)) in *.
  rewrite Zle_Qle, pow2_Z in Ha1, Hb1 by lia.
  rewrite Zlt_Qlt, pow2_Z in Ha2, Hb2 by lia.
  replace (Z.succ a) with (a + 1)%Z in Ha2 by lia.
  replace (Z.succ b) with (b + 1)%Z in Hb2 by lia.
  assert (Hnd : inject_Z n == (n # d) * inject_Z (Z.pos d)).
  { rewrite (Qmake_Qdiv n d). field. discriminate. }
  pose proof (pow2_pos b) as Pb. pose proof (pow2_pos (b + 1)) as Pb1.
  destruct (Qle_bool (2 ^ (a - b)) (n # d)) eqn:E.
  - apply Qle_bool_iff in E. split; [exact E |].
    assert (H1 : 2 ^ (a + 1) == 2 ^ (a - b + 1) * 2 ^ b).
    { rewrite <- pow2_add. replace (a - b + 1 + b)%Z with (a + 1)%Z by lia.
      reflexivity. }
    apply (Qmult_lt_r _ _ (2 ^ b) Pb). rewrite <- H1.
    apply Qle_lt_trans with (inject_Z n); [| exact Ha2].
    rewrite Hnd. apply Qmult_le_l; [exact Hq | exact Hb1].
  - assert (E' : n # d < 2 ^ (a - b)).
    { apply Qnot_le_lt. intros H. apply Qle_bool_iff in H. congruence. }
    replace (a - b - 1 + 1)%Z with (a - b)%Z by lia.
    split; [| exact E'].
    assert (H1 : 2 ^ a == 2 ^ (a - b - 1) * 2 ^ (b + 1)).
    { rewrite <- pow2_add. replace (a - b - 1 + (b + 1))%Z with a by lia.
      reflexivity. }
    apply (Qmult_le_r _ _ (2 ^ (b + 1)) Pb1). rewrite <- H1.
    apply Qle_trans with (inject_Z n); [exact Ha1 |].
    rewrite Hnd. apply Qmult_le_l; [exact Hq |]. apply Qlt_le_weak. exact Hb2.
Qed.

Lemma binade_le (x y : Q) : 0 < x -> x <= y -> (binade x <= binade y)%Z.
Proof.
  intros Hx Hxy.
  destruct (binade_spec x Hx) as [Lx _].
  destruct (binade_spec y (Qlt_le_trans _ _ _ Hx Hxy)) as [_ Uy].
  assert (H : 2 ^ binade x < 2 ^ (binade y + 1)).
  { apply Qle_lt_trans with x; [exact Lx |].
    apply Qle_lt_trans with y; [exact Hxy | exact Uy]. }
  apply pow2_lt_inv in H. lia.
Qed.

(** *** Rounding to the binary64 grid is monotone *)

Lemma rnd_zero (q : Q) : q == 0 -> rnd q = 0.
Proof.
  intros H. unfold rnd. apply Qeq_bool_iff in H. rewrite H. reflexivity.
Qed.

Lemma rnd_nonzero (q : Q) :
  ~ q == 0 ->
  rnd q == inject_Z (round_half_even (q / 2 ^ ulp_exp q)) * 2 ^ ulp_exp q.
Proof.
  intros H. unfold rnd.
  destruct (Qeq_bool q 0) eqn:E.
  - apply Qeq_bool_iff in E. contradiction.
  - apply Qred_correct.
Qed.

Lemma ulp_exp_opp (q : Q) : ulp_exp (- q) = ulp_exp q.
Proof.
  unfold ulp_exp. destruct q as [n d]. unfold Qabs, Qopp. simpl.
  rewrite Z.abs_opp. reflexivity.
Qed.

Lemma rnd_opp (q : Q) : rnd (- q) == - rnd q.
Proof.
  destruct (Qeq_dec q 0) as [Z0 | NZ].
  - rewrite (rnd_zero q Z0), (rnd_zero (- q)); [reflexivity | lra].
  - rewrite (rnd_nonzero q NZ), (rnd_nonzero (- q)) by lra.
    rewrite ulp_exp_opp.
    assert (E : - q / 2 ^ ulp_exp q == - (q / 2 ^ ulp_exp q)).
    { field. pose proof (pow2_pos (ulp_exp q)). lra. }
    assert (R : round_half_even (- q / 2 ^ ulp_exp q)
                = round_half_even (- (q / 2 ^ ulp_exp q))).
    { apply Z.le_antisymm; apply round_half_even_le; lra. }
    rewrite R, round_half_even_opp, inject_Z_opp. ring.
Qed.

Lemma scaled_le (x y : Q) (c : Z) : x <= y -> x / 2 ^ c <= y / 2 ^ c.
Proof.
  intros H. unfold Qdiv. apply Qmult_le_compat_r; [exact H |].
  apply Qlt_le_weak, Qinv_lt_0_compat, pow2_pos.
Qed.

Lemma rnd_le_pos (x y : Q) : 0 < x -> x <= y -> rnd x <= rnd y.
Proof.
  intros Hx Hxy.
  assert (Hy : 0 < y) by lra.
  rewrite (rnd_nonzero x), (rnd_nonzero y) by lra.
  pose proof (binade_le x y Hx Hxy) as Hb.
  destruct (binade_spec x Hx) as [_ Ux].
  destruct (binade_spec y Hy) as [Ly _].
  unfold ulp_exp in *.
  rewrite (Qabs_nonneg_eq x), (Qabs_nonneg_eq y) by lra.
  set (cx := Z.max (binade x - 52) (-1074)).
  set (cy := Z.max (binade y - 52) (-1074)).
  assert (Hc : (cx = cy \/ cx + 1 <= cy /\ cy = binade y - 52)%Z) by lia.
  destruct Hc as [Hc | [Hc Hcy]].
  - rewrite <- Hc.
    apply Qmult_le_compat_r; [| apply Qlt_le_weak, pow2_pos].
    rewrite <- Zle_Qle. apply round_half_even_le, scaled_le, Hxy.
  - pose proof (pow2_pos cx) as Pcx. pose proof (pow2_pos cy) as Pcy.
    apply Qle_trans with (2 ^ (cy + 52)).
    + apply Qle_trans with (inject_Z (2 ^ 53) * 2 ^ cx).
      * apply Qmult_le_compat_r; [| lra].
        rewrite <- Zle_Qle.
        rewrite <- (round_half_even_Z (2 ^ 53)). apply round_half_even_le.
        apply Qle_shift_div_r; [exact Pcx |].
        rewrite pow2_Z by lia. rewrite <- pow2_add.
        apply Qlt_le_weak, Qlt_le_trans with (2 ^ (binade x + 1)); [exact Ux |].
        apply pow2_le. lia.
      * rewrite pow2_Z by lia. rewrite <- pow2_add. apply pow2_le. lia.
    + apply Qle_trans with (inject_Z (2 ^ 52) * 2 ^ cy).
      * rewrite pow2_Z by lia. rewrite <- pow2_add.
        apply pow2_le. lia.
      * apply Qmult_le_compat_r; [| lra].
        rewrite <- Zle_Qle.
        rewrite <- (round_half_even_Z (2 ^ 52)) at 1. apply round_half_even_le.
        apply Qle_shift_div_l; [exact Pcy |].
        rewrite pow2_Z by lia. rewrite <- pow2_add.
        apply Qle_trans with (2 ^ binade y); [| exact Ly].
        apply pow2_le. lia.
Qed.

Lemma rnd_nonneg (q : Q) : 0 <= q -> 0 <= rnd q.
Proof.
  intros Hq. destruct (Qeq_dec q 0) as [Z0 | NZ].
  - rewrite (rnd_zero q Z0). lra.
  - rewrite (rnd_nonzero q NZ).
    apply Qmult_le_0_compat; [| apply Qlt_le_weak, pow2_pos].
    change 0 with (inject_Z 0). rewrite <- Zle_Qle.
    rewrite <- (round_half_even_Z 0) at 1. apply round_half_even_le.
    apply Qle_shift_div_l; [apply pow2_pos |].
    change (inject_Z 0) with 0. lra.
Qed.

Theorem rnd_le (x y : Q) : x <= y -> rnd x <= rnd y.
Proof.
  intros Hxy.
  destruct (Qlt_le_dec 0 x) as [Hx | Hx].
  - apply rnd_le_pos; assumption.
  - destruct (Qlt_le_dec y 0) as [Hy | Hy].
    + assert (H : rnd (- y) <= rnd (- x)) by (apply rnd_le_pos; lra).
      rewrite !rnd_opp in H. lra.
    + assert (H1 : 0 <= rnd (- x)) by (apply rnd_nonneg; lra).
      rewrite rnd_opp in H1.
      pose proof (rnd_nonneg y Hy). lra.
Qed.

Lemma rnd_proper (x y : Q) : x == y -> rnd x = rnd y.
Proof.
  intros H.
  assert (E : rnd x == rnd y) by (apply Qle_antisym; apply rnd_le; lra).
  unfold rnd in *.
  destruct (Qeq_bool x 0) eqn:Ex, (Qeq_bool y 0) eqn:Ey.
  - reflexivity.
  - apply Qeq_bool_iff in Ex. apply Qeq_bool_neq in Ey. exfalso. lra.
  - apply Qeq_bool_iff in Ey. apply Qeq_bool_neq in Ex. exfalso. lra.
  - rewrite !Qred_correct in E. apply Qred_complete, E.
Qed.

(** *** Staying finite *)

Lemma rnd_bound (B q : Q) : rnd B == B -> Qabs q <= B -> Qabs (rnd q) <= B.
Proof.
  intros HB Hq. apply Qabs_Qle_condition in Hq. destruct Hq as [Lo Hi].
  apply Qabs_Qle_condition. split.
  - rewrite <- HB, <- rnd_opp. apply rnd_le. exact Lo.
  - rewrite <- HB. apply rnd_le. exact Hi.
Qed.

Lemma to_float_finite (B q : Q) :
  rnd B == B -> B < 2 ^ 1024 -> Qabs q <= B ->
  to_float q = Fin (rnd q) /\ Qabs (rnd q) <= B.
Proof.
  intros HB Hlt Hq. pose proof (rnd_bound B q HB Hq) as Hr.
  split; [| exact Hr]. unfold to_float.
  destruct (Qle_bool (2 ^ 1024) (Qabs (rnd q))) eqn:E; [| reflexivity].
  apply Qle_bool_iff in E. exfalso. lra.
Qed.

Lemma rnd_pow2_500 : rnd (2 ^ 500) == 2 ^ 500.
Proof. vm_compute. reflexivity. Qed.

Lemma rnd_pow2_1000 : rnd (2 ^ 1000) == 2 ^ 1000.
Proof. vm_compute. reflexivity. Qed.

Lemma rnd_pow2_1001 : rnd (2 ^ 1001) == 2 ^ 1001.
Proof. vm_compute. reflexivity. Qed.

Lemma rnd_90 : rnd (inject_Z 90) = inject_Z 90.
Proof. vm_compute. reflexivity. Qed.

(** *** Truncation *)

Lemma Qtrunc_nonneg (q : Q) : 0 <= q -> Qtrunc q = Qfloor q.
Proof.
  destruct q as [n d]. unfold Qle, Qtrunc, Qfloor. simpl. intros H.
  apply Z.quot_div_nonneg; lia.
Qed.

Lemma Qtrunc_nonpos (q : Q) : q <= 0 -> Qtrunc q = Qceiling q.
Proof.
  destruct q as [n d]. unfold Qle, Qtrunc, Qceiling, Qfloor, Qopp. simpl.
  intros H. rewrite <- (Z.opp_involutive n) at 1.
  rewrite Z.quot_opp_l by lia. f_equal.
  apply Z.quot_div_nonneg; lia.
Qed.

Lemma Qtrunc_le (x y : Q) : x <= y -> (Qtrunc x <= Qtrunc y)%Z.
Proof.
  intros Hxy.
  destruct (Qlt_le_dec x 0) as [Hx | Hx]; destruct (Qlt_le_dec y 0) as [Hy | Hy].
  - rewrite !Qtrunc_nonpos by lra. apply Qceiling_resp_le, Hxy.
  - rewrite (Qtrunc_nonpos x), (Qtrunc_nonneg y) by lra.
    apply Z.le_trans with 0%Z.
    + change 0%Z with (Qceiling 0). apply Qceiling_resp_le. lra.
    + change 0%Z with (Qfloor 0). apply Qfloor_resp_le. lra.
  - exfalso. lra.
  - rewrite !Qtrunc_nonneg by lra. apply Qfloor_resp_le, Hxy.
Qed.

(** *** The interpolation formula *)

Lemma inject_Z_abs_le (a b : Z) :
  (Z.abs a <= 2 ^ b)%Z -> (0 <= b)%Z -> Qabs (inject_Z a) <= 2 ^ b.
Proof.
  intros H Hb. apply Qabs_Qle_condition. rewrite <- pow2_Z by exact Hb.
  rewrite <- inject_Z_opp, <- !Zle_Qle. lia.
Qed.

Lemma quotient_abs_le (a n : Z) (B : Q) :
  Qabs (inject_Z a) <= B -> (1 <= n)%Z ->
  Qabs (inject_Z a / inject_Z n) <= B.
Proof.
  intros Ha Hn. apply Qabs_Qle_condition in Ha. destruct Ha as [Lo Hi].
  assert (Hq : 1 <= inject_Z n).
  { change 1 with (inject_Z 1). rewrite <- Zle_Qle. exact Hn. }
  apply Qabs_Qle_condition. split.
  - apply Qle_shift_div_l; [lra | nra].
  - apply Qle_shift_div_r; [lra | nra].
Qed.

Lemma step_sign_up (start target N : Z) :
  (start <= target)%Z -> (1 <= N)%Z ->
  0 <= rnd (inject_Z (target - start) / inject_Z N).
Proof.
  intros Hst HN. apply rnd_nonneg.
  assert (Hq : 1 <= inject_Z N).
  { change 1 with (inject_Z 1). rewrite <- Zle_Qle. exact HN. }
  apply Qle_shift_div_l; [lra |]. rewrite Qmult_0_l.
  change 0 with (inject_Z 0). rewrite <- Zle_Qle. lia.
Qed.

Lemma step_sign_down (start target N : Z) :
  (target <= start)%Z -> (1 <= N)%Z ->
  rnd (inject_Z (target - start) / inject_Z N) <= 0.
Proof.
  intros Hst HN. rewrite <- (rnd_zero 0) by reflexivity. apply rnd_le.
  assert (Hq : 1 <= inject_Z N).
  { change 1 with (inject_Z 1). rewrite <- Zle_Qle. exact HN. }
  apply Qle_shift_div_r; [lra |]. rewrite Qmult_0_l.
  change 0 with (inject_Z 0). rewrite <- Zle_Qle. lia.
Qed.

Lemma float_interp_up (start target N i j : Z) :
  (start <= target)%Z -> (1 <= N)%Z -> (i <= j)%Z ->
  (float_interp start target N i <= float_interp start target N j)%Z.
Proof.
  intros Hst HN Hij. unfold float_interp. cbv zeta.
  pose proof (step_sign_up start target N Hst HN) as Hs.
  apply Qtrunc_le, rnd_le, Qplus_le_r, rnd_le.
  assert (Hr : rnd (inject_Z i) <= rnd (inject_Z j)).
  { apply rnd_le. rewrite <- Zle_Qle. exact Hij. }
  nra.
Qed.

Lemma float_interp_down (start target N i j : Z) :
  (target <= start)%Z -> (1 <= N)%Z -> (i <= j)%Z ->
  (float_interp start target N j <= float_interp start target N i)%Z.
Proof.
  intros Hst HN Hij. unfold float_interp. cbv zeta.
  pose proof (step_sign_down start target N Hst HN) as Hs.
  apply Qtrunc_le, rnd_le, Qplus_le_r, rnd_le.
  assert (Hr : rnd (inject_Z i) <= rnd (inject_Z j)).
  { apply rnd_le. rewrite <- Zle_Qle. exact Hij. }
  nra.
Qed.

Lemma int_truediv_finite (a n : Z) :
  (Z.abs a <= 2 ^ 500)%Z -> (1 <= n)%Z ->
  int_truediv a n = inr (Fin (rnd (inject_Z a / inject_Z n)))
  /\ Qabs (rnd (inject_Z a / inject_Z n)) <= 2 ^ 500.
Proof.
  intros Ha Hn. unfold int_truediv.
  destruct (Z.eqb_spec n 0) as [E | _]; [lia |].
  destruct (to_float_finite (2 ^ 500) (inject_Z a / inject_Z n)) as [E B].
  - exact rnd_pow2_500.
  - reflexivity.
  - apply quotient_abs_le; [| exact Hn]. apply inject_Z_abs_le; lia.
  - rewrite E. split; [reflexivity | exact B].
Qed.

Lemma int_to_float_finite (k : Z) :
  (Z.abs k <= 2 ^ 500)%Z ->
  int_to_float k = inr (Fin (rnd (inject_Z k)))
  /\ Qabs (rnd (inject_Z k)) <= 2 ^ 500.
Proof.
  intros Hk. unfold int_to_float.
  destruct (to_float_finite (2 ^ 500) (inject_Z k)) as [E B].
  - exact rnd_pow2_500.
  - reflexivity.
  - apply inject_Z_abs_le; lia.
  - rewrite E. split; [reflexivity | exact B].
Qed.

(** *** The model against the Standard Library's binary64 *)

(** On the targets of the gesture tables and a few others, for every step
    count up to 10 and for 77, the interpolated angles are those the
    [SpecFloat] operations give. *)
Lemma float_interp_matches_SpecFloat :
  forallb (fun target => forallb (agree_on target) (seqZ 1 10 ++ [77%Z]))
          [0; 40; 50; 60; 65; 70; 75; 90; 105; 110; 115; 120; 170; 180; 250]%Z
  = true.
Proof. vm_compute. reflexivity. Qed.

(** Rounding shows: 77 steps towards 250 stop at 249. *)
Example float_interp_250_77 : float_interp 90 250 77 77 = 249%Z.
Proof. vm_compute. reflexivity. Qed.

End PyFloatFacts.

(** ** Traces *)

Ltac inner_case :=
  match goal with
  | |- context [match ?x with _ => _ end] =>
      lazymatch x with
      | context [match _ with _ => _ end] => fail
      | _ => destruct x eqn:?
      end
  | |- context [if ?x then _ else _] =>
      lazymatch x with
      | context [match _ with _ => _ end] => fail
      | _ => destruct x eqn:?
      end
  end.

Lemma emitted_app {G A} (m : M G A) (s : state G) (tr : list event) :
  trace (snd (m s)) = trace s ++ tr -> emitted m s = tr.
Proof. intros H. unfold emitted. rewrite H. apply drop_app_length. Qed.

Lemma send_calls_app (t u : list event) :
  send_calls (t ++ u) = send_calls t ++ send_calls u.
Proof. apply omap_app. Qed.

Lemma pin_calls_app (t u : list event) :
  pin_calls (t ++ u) = pin_calls t ++ pin_calls u.
Proof. apply omap_app. Qed.

Lemma wire_app (t u : list event) : wire (t ++ u) = wire t ++ wire u.
Proof. apply omap_app. Qed.

Lemma written_app (t u : list event) : written (t ++ u) = written t ++ written u.
Proof. apply omap_app. Qed.

Lemma sleeps_app (t u : list event) : sleeps (t ++ u) = sleeps t ++ sleeps u.
Proof. apply omap_app. Qed.

(** ** Sleeping *)

(** A wait of at most [SLEEP_SAFE] goes through. *)
Lemma sleep_short {G} (ms : Z) :
  0 <= ms <= SLEEP_SAFE -> (sleep ms : M G unit) = log (Slept ms).
Proof.
  intros [H0 H1]. unfold sleep, sleep_overflows.
  assert (P : SLEEP_SAFE * 10 ^ 6 < 2 ^ 63) by reflexivity.
  assert (N : - 2 ^ 63 < 0) by reflexivity.
  replace (ms * 10 ^ 6 <? - 2 ^ 63) with false by (symmetry; apply Z.ltb_ge; nia).
  replace (2 ^ 63 <=? ms * 10 ^ 6) with false by (symmetry; apply Z.leb_gt; nia).
  replace (ms <? 0) with false by (symmetry; apply Z.ltb_ge; lia).
  replace (ms <=? SLEEP_SAFE) with true by (symmetry; apply Z.leb_le; lia).
  reflexivity.
Qed.

(** Whatever the duration, [sleep] waits or raises, and changes nothing
    else. *)
Lemma sleep_cases {G} (ms : Z) (s : state G) :
  (0 <= ms /\ sleep ms s = log (Slept ms) s)
  \/ exists e, sleep ms s = (Raise e, s).
Proof.
  unfold sleep. destruct (sleep_overflows ms); [right; eexists; reflexivity |].
  destruct (Z.ltb_spec ms 0); [right; eexists; reflexivity |].
  destruct ((ms <=? SLEEP_SAFE) || sleep_ok (world s) ms);
    [left; split; [assumption | reflexivity] | right; eexists; reflexivity].
Qed.

Lemma sleep_negative {G} (ms : Z) (s : state G) :
  ms < 0 -> exists e, sleep ms s = (Raise e, s).
Proof.
  intros H. destruct (sleep_cases ms s) as [[H0 _] | R]; [lia | exact R].
Qed.

(** The constant waits of the programs go through. *)
Ltac short_sleeps :=
  repeat match goal with
         | |- context [@sleep ?G (Zpos ?p)] =>
             change (@sleep G (Zpos p)) with (@log G (Slept (Zpos p)))
         end.

(** ** The dictionaries are never written *)
Section Frame.
Context {G : Type}.

Lemma keeps_ret {A} (a : A) : keeps_tables (ret a : M G A).
Proof. intros s. reflexivity. Qed.

Lemma keeps_raise {A} (e : exn) : keeps_tables (raise e : M G A).
Proof. intros s. reflexivity. Qed.

Lemma keeps_bind {A B} (m : M G A) (k : A -> M G B) :
  keeps_tables m -> (forall a, keeps_tables (k a)) -> keeps_tables (bind m k).
Proof.
  intros Hm Hk s. unfold bind. specialize (Hm s).
  destruct (m s) as [[a | e |] s1]; cbn in *; [| exact Hm | exact Hm].
  rewrite (Hk a s1). exact Hm.
Qed.

Lemma keeps_try {A} (m : M G A) (h : exn -> M G A) :
  keeps_tables m -> (forall e, keeps_tables (h e)) -> keeps_tables (try_except m h).
Proof.
  intros Hm Hh s. unfold try_except. specialize (Hm s).
  destruct (m s) as [[a | e |] s1]; cbn in *; [exact Hm | | exact Hm].
  rewrite (Hh e s1). exact Hm.
Qed.

Lemma keeps_for_each {A} (xs : list A) (body : A -> M G unit) :
  (forall x, keeps_tables (body x)) -> keeps_tables (for_each xs body).
Proof.
  intros Hb. induction xs as [| x xs IH]; cbn [for_each].
  - apply keeps_ret.
  - apply keeps_bind; [apply Hb | intros _; exact IH].
Qed.

Lemma keeps_while {A} (fuel : nat) (body : M G (option A)) :
  keeps_tables body -> keeps_tables (while_loop fuel body).
Proof.
  intros Hb. induction fuel as [| fuel IH]; cbn [while_loop].
  - intros s. reflexivity.
  - apply keeps_bind; [exact Hb |].
    intros [a |]; [apply keeps_ret | exact IH].
Qed.

Lemma keeps_log (e : event) : keeps_tables (log e : M G unit).
Proof. intros s. reflexivity. Qed.

Lemma keeps_print (msg : string) : keeps_tables (print msg : M G unit).
Proof. apply keeps_log. Qed.

Lemma keeps_sleep (ms : Z) : keeps_tables (sleep ms : M G unit).
Proof.
  intros s. destruct (sleep_cases ms s) as [[_ ->] | [e ->]]; reflexivity.
Qed.

Lemma keeps_get_globals : keeps_tables (get_globals : M G G).
Proof. intros s. reflexivity. Qed.

Lemma keeps_get_arduino : keeps_tables (get_arduino : M G (option port)).
Proof. intros s. reflexivity. Qed.

Lemma keeps_serial_open : keeps_tables (serial_open : M G unit).
Proof. intros s. unfold serial_open. destruct (port_opens (world s)); reflexivity. Qed.

Lemma keeps_in_waiting_pos : keeps_tables (in_waiting_pos : M G bool).
Proof. intros s. unfold in_waiting_pos. destruct (arduino s); reflexivity. Qed.

Lemma keeps_read_text : keeps_tables (read_text : M G string).
Proof.
  intros s. unfold read_text.
  destruct (arduino s) as [p |]; [| reflexivity].
  destruct (in_buf p) as [| [t | |] rest]; reflexivity.
Qed.

Lemma keeps_serial_write (data : string) :
  keeps_tables (serial_write data : M G unit).
Proof.
  intros s. unfold serial_write.
  destruct (arduino s) as [p |]; [| reflexivity].
  destruct (is_open p); reflexivity.
Qed.

Lemma keeps_lift {A} (r : exn + A) : keeps_tables (lift r : M G A).
Proof. destruct r; [apply keeps_raise | apply keeps_ret]. Qed.
End Frame.

Create HintDb keeps.
#[export] Hint Resolve keeps_ret keeps_raise keeps_log keeps_print keeps_sleep
  keeps_get_globals keeps_get_arduino keeps_serial_open keeps_in_waiting_pos
  keeps_read_text keeps_serial_write keeps_lift : keeps.

Ltac keeps_step :=
  match goal with
  | |- keeps_tables (bind _ _) => apply keeps_bind; [| intros ?]
  | |- keeps_tables (try_except _ _) => apply keeps_try; [| intros ?]
  | |- keeps_tables (for_each _ _) => apply keeps_for_each; intros ?
  | |- keeps_tables (while_loop _ _) => apply keeps_while
  | |- keeps_tables (match ?x with _ => _ end) => destruct x
  | |- keeps_tables (if ?x then _ else _) => destruct x
  | |- keeps_tables _ => solve [auto with keeps]
  end.

Ltac keeps := repeat keeps_step.

Module ServerFacts.
Import Server.

Ltac run :=
  unfold send_servo_command, try_except, bind, ret, raise, lift,
    print, sleep, log, get_arduino, get_globals, serial_write, in_waiting_pos,
    read_text, link_down in *;
  cbn [arduino globals world polls writes trace is_open in_buf fst snd] in *.

Lemma server_send_spec (pin angle : Z) (s : state tables) :
  exists b io s',
    send_servo_command pin angle s = (Ret b, s')
    /\ step_io pin angle io
    /\ wire io = (if link_down (arduino s) then [] else [command_line pin angle])
    /\ trace s' = trace s ++ SendPinCall pin angle :: io
    /\ globals s' = globals s
    /\ arduino s' = arduino s.
Proof.
  run. repeat (inner_case; cbn); try discriminate.
  all: eexists _, _, _; (split; [reflexivity |]); cbn;
    rewrite <- ?app_assoc; cbn;
    (split; [| split; [| split; [reflexivity | split; reflexivity]]]).
  all: first [reflexivity | constructor].
Qed.

Lemma resolve_cons (pins : gmap string Z) (servo : string) (angle : Z)
    (steps : list (string * Z)) :
  resolve pins ((servo, angle) :: steps)
  = match known_pin pins servo with
    | Some pin => (pin, angle) :: resolve pins steps
    | None => resolve pins steps
    end.
Proof. unfold resolve. cbn. destruct (known_pin pins servo); reflexivity. Qed.

Lemma gesture_loop (steps : list (string * Z)) (s : state tables) :
  exists tr s',
    for_each steps gesture_body s = (Ret tt, s')
    /\ played (resolve (servo_pins (globals s)) steps) tr
    /\ wire tr = (if link_down (arduino s) then []
                  else map (fun step => command_line step.1 step.2)
                           (resolve (servo_pins (globals s)) steps))
    /\ trace s' = trace s ++ tr
    /\ globals s' = globals s
    /\ arduino s' = arduino s.
Proof.
  revert s. induction steps as [| [servo angle] steps IH]; intros s.
  - exists (@nil event), s. cbn. rewrite app_nil_r.
    repeat split; [constructor | destruct (link_down (arduino s)); reflexivity].
  - cbn [for_each]. rewrite resolve_cons.
    unfold bind at 1. unfold gesture_body at 1. unfold get_globals, bind at 1.
    unfold known_pin.
    destruct (servo_pins (globals s) !! servo) as [pin |] eqn:Hpin;
      [destruct (pin =? 0) eqn:Hz |].
    + unfold ret at 1. apply IH.
    + destruct (server_send_spec pin angle s)
        as (b & io & s1 & E1 & Hio & W1 & T1 & G1 & A1).
      unfold bind at 1. rewrite E1. short_sleeps.
      unfold log.
      match goal with |- context [for_each steps gesture_body ?s2] =>
        destruct (IH s2) as (tr & s' & E' & P' & W' & T' & G' & A') end.
      cbn [globals trace arduino] in *.
      exists (SendPinCall pin angle :: io ++ Slept 150 :: tr), s'.
      split; [exact E' |]. split; [| split; [| split; [| split]]].
      * constructor; [exact Hio |]. rewrite <- G1. exact P'.
      * change (SendPinCall pin angle :: io ++ Slept 150 :: tr)
          with ([SendPinCall pin angle] ++ io ++ [Slept 150] ++ tr).
        rewrite !wire_app, W1, W', A1, G1.
        destruct (link_down (arduino s)); reflexivity.
      * rewrite T', T1. rewrite <- !app_assoc. reflexivity.
      * congruence.
      * congruence.
    + unfold ret at 1. apply IH.
Qed.

Lemma server_perform_known (name : string) (steps : list (string * Z))
    (s : state tables) :
  gestures (globals s) !! name = Some steps ->
  exists tr s',
    perform_gesture name s = (Ret true, s')
    /\ played (resolve (servo_pins (globals s)) steps) tr
    /\ wire tr = (if link_down (arduino s) then []
                  else map (fun step => command_line step.1 step.2)
                           (resolve (servo_pins (globals s)) steps))
    /\ trace s' = trace s ++ tr
    /\ globals s' = globals s.
Proof.
  intros Hn.
  destruct (gesture_loop steps s) as (tr & s' & E & P & W & T & Gs & _).
  exists tr, s'. split; [| auto].
  unfold perform_gesture, get_globals. unfold bind at 1. rewrite Hn.
  unfold bind at 1. rewrite E. reflexivity.
Qed.

Lemma server_perform_unknown (name : string) (s : state tables) :
  gestures (globals s) !! name = None ->
  perform_gesture name s = (Ret false, s).
Proof.
  intros Hn. unfold perform_gesture, get_globals. unfold bind at 1.
  rewrite Hn. reflexivity.
Qed.

Lemma played_pin_calls (steps : list (Z * Z)) (tr : list event) :
  played steps tr -> pin_calls tr = steps.
Proof.
  induction 1 as [| pin angle io rest tr Hio _ IH]; [reflexivity |].
  change (SendPinCall pin angle :: io ++ Slept 150 :: tr)
    with ([SendPinCall pin angle] ++ io ++ [Slept 150] ++ tr).
  rewrite !pin_calls_app, IH. destruct Hio; reflexivity.
Qed.

Lemma played_sleeps (steps : list (Z * Z)) (tr : list event) :
  played steps tr ->
  length (filter (fun ms => ms = 150) (sleeps tr)) = length steps.
Proof.
  induction 1 as [| pin angle io rest tr Hio _ IH]; [reflexivity |].
  change (SendPinCall pin angle :: io ++ Slept 150 :: tr)
    with ([SendPinCall pin angle] ++ io ++ [Slept 150] ++ tr).
  rewrite !sleeps_app, !filter_app, !length_app, IH.
  destruct Hio; reflexivity.
Qed.

(** Every step of every catalogued gesture names a servo with a pin. *)
Lemma catalog_resolves (name : string) (steps : list (string * Z)) :
  GESTURES !! name = Some steps ->
  length (resolve SERVO_PINS steps) = length steps.
Proof.
  intros H. apply elem_of_list_to_map_2 in H.
  repeat (apply elem_of_cons in H; destruct H as [H | H];
          [injection H as _ ->; vm_compute; reflexivity |]).
  apply elem_of_nil in H. contradiction.
Qed.

Lemma server_keeps_send (pin angle : Z) : keeps_tables (send_servo_command pin angle).
Proof. unfold send_servo_command. keeps. Qed.
#[export] Hint Resolve server_keeps_send : keeps.

Lemma server_keeps_init (fuel : nat) : keeps_tables (init_arduino fuel).
Proof. unfold init_arduino, ready_body. keeps. Qed.

Lemma server_keeps_perform (name : string) : keeps_tables (perform_gesture name).
Proof. unfold perform_gesture, gesture_body. keeps. Qed.
#[export] Hint Resolve server_keeps_perform : keeps.

Lemma server_keeps_control (servo : string) (angle : Z) :
  keeps_tables (control_servo servo angle).
Proof. unfold control_servo. keeps. Qed.

Lemma server_run_keeps (c : command) (s : state tables) : globals (run c s) = globals s.
Proof.
  destruct c; cbn [run].
  - apply server_keeps_init.
  - apply server_keeps_send.
  - apply server_keeps_perform.
  - apply server_keeps_control.
  - apply server_keeps_perform.
Qed.

Lemma server_run_all_keeps (cs : list command) (s : state tables) :
  globals (run_all cs s) = globals s.
Proof.
  revert s. induction cs as [| c cs IH]; intros s; cbn; [reflexivity |].
  rewrite IH. apply server_run_keeps.
Qed.


Lemma server_send_link_down (pin angle : Z) (s : state tables) :
  link_down (arduino s) = true ->
  send_servo_command pin angle s
  = (Ret false, State (arduino s) (globals s) (world s) (polls s) (writes s)
                      (trace s ++ [SendPinCall pin angle])).
Proof. intros H. run. rewrite H. reflexivity. Qed.

Lemma server_send_wire (pin angle : Z) (s : state tables) :
  link_down (arduino s) = false ->
  wire (emitted (send_servo_command pin angle) s) = [command_line pin angle]
  /\ written (emitted (send_servo_command pin angle) s)
     = if write_ok (world s) (writes s) then [command_line pin angle] else [].
Proof.
  intros Hup.
  assert (E : exists tr,
             trace (snd (send_servo_command pin angle s)) = trace s ++ tr
             /\ wire tr = [command_line pin angle]
             /\ written tr = if write_ok (world s) (writes s)
                             then [command_line pin angle] else []).
  { run. repeat (inner_case; cbn); try discriminate.
    all: rewrite <- ?app_assoc; eexists; (split; [reflexivity |]).
    all: split; reflexivity. }
  destruct E as (tr & T & W1 & W2). rewrite (emitted_app _ _ _ T). auto.
Qed.

Lemma server_control_unknown (servo : string) (angle : Z) (s : state tables) :
  known_pin (servo_pins (globals s)) servo = None ->
  control_servo servo angle s = (Ret UnknownServo, s).
Proof.
  unfold known_pin, control_servo, get_globals. intros H. unfold bind at 1.
  destruct (servo_pins (globals s) !! servo) as [pin |]; [| reflexivity].
  destruct (pin =? 0); [reflexivity | discriminate].
Qed.

Lemma server_perform_calls (name : string) (s : state tables) :
  intact s ->
  pin_calls (emitted (perform_gesture name) s)
  = match GESTURES !! name with
    | Some steps => resolve SERVO_PINS steps
    | None => []
    end.
Proof.
  intros Hi. unfold intact in Hi.
  destruct (GESTURES !! name) as [steps |] eqn:E.
  - destruct (server_perform_known name steps s) as (tr & s' & R & P & _ & T & _).
    { rewrite Hi. exact E. }
    rewrite (emitted_app _ s tr) by (rewrite R; exact T).
    rewrite Hi in P. apply played_pin_calls, P.
  - rewrite (emitted_app _ s []).
    + reflexivity.
    + rewrite server_perform_unknown by (rewrite Hi; exact E).
      cbn. rewrite app_nil_r. reflexivity.
Qed.
End ServerFacts.

(** ** The voice program: sending and smooth moves *)
Module VoiceFacts.
Import Voice PyFloatFacts.

Ltac run :=
  unfold send_servo_command, smooth_move, try_except, bind, ret, raise, lift,
    print, sleep, log, get_arduino, get_globals, serial_write, in_waiting_pos,
    read_text, link_down in *;
  cbn [arduino globals world polls writes trace is_open in_buf fst snd] in *.

Lemma voice_send_link_up (servo : string) (angle : Z) (s : state tables) :
  link_down (arduino s) = false ->
  exists b s',
    send_servo_command servo angle s = (Ret b, s')
    /\ link_down (arduino s') = false
    /\ globals s' = globals s
    /\ world s' = world s
    /\ exists tr, trace s' = trace s ++ SendCall servo angle :: tr
                  /\ send_calls tr = [].
Proof.
  intros Hup. run.
  destruct (arduino s) as [[o buf] |] eqn:Ha; cbn in Hup; [| discriminate].
  destruct o; [| discriminate]. cbn.
  repeat (inner_case; cbn).
  all: eexists _, _; (split; [reflexivity |]); cbn; repeat split;
    eexists; rewrite <- ?app_assoc; (split; [reflexivity | reflexivity]).
Qed.

Lemma smooth_loop (servo : string) (cur : Z) (step : pyfloat) (delay : Z)
    (f : Z -> Z) (idx : list Z) (s : state tables) :
  0 <= delay <= SLEEP_SAFE ->
  link_down (arduino s) = false ->
  (forall i, i ∈ idx -> interpolate cur step (i + 1) = inr (f i)) ->
  exists s',
    for_each idx (smooth_body servo cur step delay) s = (Ret tt, s')
    /\ link_down (arduino s') = false
    /\ globals s' = globals s
    /\ world s' = world s
    /\ exists tr, trace s' = trace s ++ tr
         /\ send_calls tr = map (fun i => (servo, f i)) idx.
Proof.
  intros Hd. revert s. induction idx as [| i idx IH]; intros s Hup Hf.
  - exists s. cbn. repeat split; try reflexivity; try assumption.
    exists (@nil event). rewrite app_nil_r. split; reflexivity.
  - destruct (voice_send_link_up servo (f i) s Hup)
      as (b & s1 & E1 & Up1 & G1 & W1 & tr1 & T1 & C1).
    pose (s2 := State (arduino s1) (globals s1) (world s1) (polls s1) (writes s1) (trace s1 ++ [Slept delay])).
    destruct (IH s2) as (s' & E' & Up' & G' & W' & tr' & T' & C').
    { exact Up1. }
    { intros j Hj. apply Hf. right. exact Hj. }
    exists s'. split.
    + assert (Hb : smooth_body servo cur step delay i s = (Ret tt, s2)).
      { unfold smooth_body. rewrite (Hf i) by left.
        unfold lift, bind, ret. rewrite E1.
        rewrite (sleep_short delay Hd). reflexivity. }
      change (for_each (i :: idx) (smooth_body servo cur step delay) s)
        with (bind (smooth_body servo cur step delay i)
                (fun _ => for_each idx (smooth_body servo cur step delay)) s).
      unfold bind. rewrite Hb. exact E'.
    + split; [exact Up' |].
      split; [rewrite G'; exact G1 |].
      split; [rewrite W'; exact W1 |].
      exists ([SendCall servo (f i)] ++ tr1 ++ [Slept delay] ++ tr').
      split.
      * rewrite T'. unfold s2. cbn [trace]. rewrite T1.
        rewrite <- !app_assoc. reflexivity.
      * rewrite !send_calls_app, C1, C'. reflexivity.
Qed.


Lemma rest_angle (servo : string) : default 90 (SERVO_REST !! servo) = 90.
Proof.
  destruct (SERVO_REST !! servo) as [v |] eqn:E; [| reflexivity].
  apply elem_of_list_to_map_2 in E. cbn.
  repeat (apply elem_of_cons in E; destruct E as [E | E]; [congruence |]).
  apply elem_of_nil in E. contradiction.
Qed.

Lemma interpolate_finite (step : Q) (k : Z) :
  (Qabs step <= 2 ^ 500)%Q -> Z.abs k <= 2 ^ 500 ->
  interpolate 90 (Fin step) k
  = inr (Qtrunc (rnd (rnd (inject_Z 90) + rnd (step * rnd (inject_Z k))))).
Proof.
  intros Hs Hk. unfold interpolate.
  destruct (int_to_float_finite k Hk) as [Ek Bk]. rewrite Ek.
  destruct (int_to_float_finite 90 ltac:(lia)) as [E90 B90]. rewrite E90.
  cbn [fmul].
  destruct (to_float_finite (2 ^ 1000) (step * rnd (inject_Z k))) as [Ep Bp].
  - exact rnd_pow2_1000.
  - reflexivity.
  - rewrite Qabs_Qmult.
    change (2 ^ 1000)%Q with (2 ^ 500 * 2 ^ 500)%Q.
    pose proof (Qabs_nonneg step). pose proof (Qabs_nonneg (rnd (inject_Z k))).
    nra.
  - rewrite Ep. cbn [fadd].
    destruct (to_float_finite (2 ^ 1001)
                (rnd (inject_Z 90) + rnd (step * rnd (inject_Z k)))) as [Ea Ba].
    + exact rnd_pow2_1001.
    + reflexivity.
    + eapply Qle_trans; [apply Qabs_triangle |].
      assert (H1 : (2 ^ 500 <= 2 ^ 1000)%Q) by (apply pow2_le; lia).
      change (2 ^ 1001)%Q with (2 ^ 1000 + 2 ^ 1000)%Q. lra.
    + rewrite Ea. reflexivity.
Qed.

Lemma smooth_move_in_range (servo : string) (target N delay : Z) (s : state tables) :
  link_down (arduino s) = false ->
  intact s ->
  1 <= N <= 2 ^ 500 ->
  Z.abs (target - 90) <= 2 ^ 500 ->
  0 <= delay <= SLEEP_SAFE ->
  exists s',
    smooth_move servo target N delay s = (Ret tt, s')
    /\ link_down (arduino s') = false
    /\ globals s' = globals s
    /\ world s' = world s
    /\ exists tr, trace s' = trace s ++ tr
         /\ send_calls tr
            = map (fun i => (servo, float_interp 90 target N i)) (seqZ 1 N).
Proof.
  intros Hup Hg HN Ht Hd.
  destruct (int_truediv_finite (target - 90) N Ht ltac:(lia)) as [Ediv Bstep].
  set (step := rnd (inject_Z (target - 90) / inject_Z N)) in *.
  destruct (smooth_loop servo 90 (Fin step) delay
              (fun i => float_interp 90 target N (i + 1)) (seqZ 0 N) s Hd Hup)
    as (s' & E' & Up' & G' & W' & tr & T' & C').
  { intros i Hi. apply elem_of_seqZ in Hi.
    apply interpolate_finite; [exact Bstep | lia]. }
  exists s'. split.
  - unfold smooth_move, get_arduino, get_globals, try_except.
    unfold bind at 1. rewrite Hup.
    unfold bind at 1. rewrite Hg. cbn [servo_rest]. rewrite rest_angle.
    unfold bind at 1. rewrite Ediv. cbn [lift]. unfold ret at 1.
    fold step.
    rewrite E'. reflexivity.
  - split; [exact Up' |]. split; [exact G' |]. split; [exact W' |].
    exists tr. split; [exact T' |]. rewrite C'.
    change (seqZ 1 N) with (seqZ (1 + 0) N).
    rewrite <- (fmap_add_seqZ 1 0 N).
    change map with (@fmap list _). rewrite <- list_fmap_compose.
    apply list_fmap_ext. intros k i _. cbn. f_equal. f_equal. lia.
Qed.


Lemma voice_send_link_down (servo : string) (angle : Z) (s : state tables) :
  link_down (arduino s) = true ->
  send_servo_command servo angle s
  = (Ret false, State (arduino s) (globals s) (world s) (polls s) (writes s)
                      (trace s ++ [SendCall servo angle])).
Proof. intros H. run. rewrite H. reflexivity. Qed.

Lemma smooth_move_link_down (servo : string) (target N delay : Z) (s : state tables) :
  link_down (arduino s) = true ->
  smooth_move servo target N delay s = (Ret tt, s).
Proof. intros H. unfold smooth_move, get_arduino, bind. rewrite H. reflexivity. Qed.

Lemma voice_send_unknown (servo : string) (angle : Z) (s : state tables) :
  known_pin (servo_pins (globals s)) servo = None ->
  exists tr,
    send_servo_command servo angle s
    = (Ret false, State (arduino s) (globals s) (world s) (polls s) (writes s)
                        (trace s ++ tr))
    /\ wire tr = [].
Proof.
  unfold known_pin. intros H. run.
  repeat (inner_case; cbn); try discriminate.
  all: rewrite <- ?app_assoc; eexists; split; reflexivity.
Qed.

Lemma voice_send_wire (servo : string) (angle pin : Z) (s : state tables) :
  link_down (arduino s) = false ->
  known_pin (servo_pins (globals s)) servo = Some pin ->
  wire (emitted (send_servo_command servo angle) s) = [command_line pin angle]
  /\ written (emitted (send_servo_command servo angle) s)
     = if write_ok (world s) (writes s) then [command_line pin angle] else [].
Proof.
  unfold known_pin. intros Hup H. 
  assert (E : exists tr, trace (snd (send_servo_command servo angle s)) = trace s ++ tr
     /\ wire tr = [command_line pin angle] /\ written tr = if write_ok (world s) (writes s) then [command_line pin angle] else []).
  { run. repeat (inner_case; cbn); try discriminate.
    all: rewrite <- ?app_assoc; eexists; (split; [reflexivity |]).
    all: simplify_eq; split; reflexivity. }
  destruct E as (tr & T & W1 & W2). rewrite (emitted_app _ _ _ T). auto.
Qed.

Lemma voice_keeps_send (servo : string) (angle : Z) :
  keeps_tables (send_servo_command servo angle).
Proof. unfold send_servo_command. keeps. Qed.
#[export] Hint Resolve voice_keeps_send : keeps.

Lemma voice_keeps_init (fuel : nat) : keeps_tables (init_arduino fuel).
Proof. unfold init_arduino, ready_body. keeps. Qed.

Lemma voice_keeps_smooth_move (servo : string) (target steps delay : Z) :
  keeps_tables (smooth_move servo target steps delay).
Proof. unfold smooth_move, smooth_body. keeps. Qed.
#[export] Hint Resolve voice_keeps_smooth_move : keeps.

Lemma voice_keeps_repeat (n : Z) (body : M tables unit) :
  keeps_tables body -> keeps_tables (repeat_times n body).
Proof. intros H. unfold repeat_times. apply keeps_for_each. intros _. exact H. Qed.

Ltac keeps_gesture :=
  repeat first [apply voice_keeps_repeat | keeps_step].

Lemma keeps_rest : keeps_tables gesture_rest.
Proof. unfold gesture_rest. keeps_gesture. Qed.
#[export] Hint Resolve keeps_rest : keeps.

Lemma keeps_wave : keeps_tables gesture_wave.
Proof. unfold gesture_wave. keeps_gesture. Qed.

Lemma keeps_nod : keeps_tables gesture_nod.
Proof. unfold gesture_nod. keeps_gesture. Qed.

Lemma keeps_shake : keeps_tables gesture_shake.
Proof. unfold gesture_shake. keeps_gesture. Qed.

Lemma keeps_happy : keeps_tables mood_happy.
Proof. unfold mood_happy. keeps_gesture. Qed.

Lemma keeps_sad : keeps_tables mood_sad.
Proof. unfold mood_sad. keeps_gesture. Qed.

Lemma keeps_excited : keeps_tables mood_excited.
Proof. unfold mood_excited. keeps_gesture. Qed.

Lemma keeps_curious : keeps_tables mood_curious.
Proof. unfold mood_curious. keeps_gesture. Qed.

#[export] Hint Resolve keeps_wave keeps_nod keeps_shake keeps_happy keeps_sad
  keeps_excited keeps_curious : keeps.

Lemma voice_keeps_perform (name : string) : keeps_tables (perform_gesture name).
Proof.
  unfold perform_gesture.
  destruct (gestures !! name) as [f |] eqn:E; [| apply keeps_ret].
  apply elem_of_list_to_map_2 in E.
  repeat (apply elem_of_cons in E; destruct E as [E | E];
          [injection E as _ ->; auto with keeps |]).
  apply elem_of_nil in E. contradiction.
Qed.

Lemma voice_keeps_mood (mood : string) : keeps_tables (perform_mood_gesture mood).
Proof.
  unfold perform_mood_gesture.
  destruct (mood_gestures !! mood) as [f |] eqn:E; [| apply keeps_ret].
  apply elem_of_list_to_map_2 in E.
  repeat (apply elem_of_cons in E; destruct E as [E | E];
          [injection E as _ ->; auto with keeps |]).
  apply elem_of_nil in E. contradiction.
Qed.

Lemma voice_keeps_execute (gesture : string) : keeps_tables (execute_gesture gesture).
Proof. unfold execute_gesture. keeps. Qed.

Lemma voice_run_keeps (c : command) (s : state tables) : globals (run c s) = globals s.
Proof.
  destruct c; cbn [run].
  - apply voice_keeps_init.
  - apply voice_keeps_send.
  - apply voice_keeps_smooth_move.
  - apply voice_keeps_perform.
  - apply voice_keeps_mood.
  - apply voice_keeps_execute.
Qed.

Lemma voice_run_all_keeps (cs : list command) (s : state tables) :
  globals (run_all cs s) = globals s.
Proof.
  revert s. induction cs as [| c cs IH]; intros s; cbn; [reflexivity |].
  rewrite IH. apply voice_run_keeps.
Qed.

End VoiceFacts.

(** ** Waiting for the readiness token *)
Module InitFacts.

Lemma voice_wait_spins (fuel : nat) (s : state Voice.tables) (p : port) :
  arduino s = Some p ->
  Forall not_ready (in_buf p) ->
  never_ready (world s) ->
  fst (while_loop fuel Voice.ready_body s) = Spin.
Proof.
  revert s p. induction fuel as [| fuel IH]; intros s p Ha Hb Hw; [reflexivity |].
  cbn [while_loop]. unfold bind at 1. unfold Voice.ready_body.
  unfold bind at 1. unfold in_waiting_pos. rewrite Ha.
  assert (Hall : Forall not_ready (in_buf p ++ arrivals (world s) (polls s))).
  { apply Forall_app. split; [exact Hb | apply Hw]. }
  destruct (in_buf p ++ arrivals (world s) (polls s)) as [| l rest] eqn:Ebuf.
  - cbn. eapply IH; cbn; [reflexivity | constructor | exact Hw].
  - cbn [length Nat.eqb negb]. unfold bind at 1. unfold read_text. cbn.
    apply Forall_cons in Hall. destruct Hall as [(text & -> & Hne) Hrest].
    rewrite Hne. cbn. eapply IH; cbn; [reflexivity | exact Hrest | exact Hw].
Qed.

Lemma server_init_silent (fuel : nat) (s : state Server.tables) :
  port_opens (world s) = true ->
  (forall n, arrivals (world s) n = []) ->
  fst (Server.init_arduino (S fuel) s) = Ret true.
Proof.
  intros Ho Hw. unfold Server.init_arduino, try_except.
  unfold bind at 1. unfold serial_open. rewrite Ho.
  unfold bind at 1. short_sleeps. cbn [log].
  cbn [while_loop]. unfold bind at 1. unfold Server.ready_body.
  unfold bind at 1. unfold in_waiting_pos. cbn. rewrite Hw. reflexivity.
Qed.

End InitFacts.

(** * The claims of the specification *)

(** C1 (amended): with the link open, the tables as initialised, a step
    count [1 <= N <= 2^500], a target within [2^500] of the rest angle and a
    delay from 0 to [SLEEP_SAFE] ([2^31] ms, which [time.sleep] takes on
    every platform), [smooth_move] returns normally after exactly [N] calls
    of [send_servo_command]; the [i]-th commands the angle
    [int(90 + ((target - 90) / N) * i)] of binary64 arithmetic, and these
    angles never decrease when [target >= 90] and never increase when
    [target <= 90]. *)
Theorem smooth_move_commands (servo : string) (target N delay : Z)
    (s : state Voice.tables) :
  link_down (arduino s) = false ->
  Voice.intact s ->
  1 <= N <= 2 ^ 500 ->
  Z.abs (target - 90) <= 2 ^ 500 ->
  0 <= delay <= SLEEP_SAFE ->
  let calls := send_calls (emitted (Voice.smooth_move servo target N delay) s) in
  let angle := float_interp 90 target N in
  fst (Voice.smooth_move servo target N delay s) = Ret tt
  /\ length calls = Z.to_nat N
  /\ calls = map (fun i => (servo, angle i)) (seqZ 1 N)
  /\ (90 <= target ->
      forall i j, 1 <= i -> i <= j -> j <= N -> angle i <= angle j)
  /\ (target <= 90 ->
      forall i j, 1 <= i -> i <= j -> j <= N -> angle j <= angle i).
Proof.
  intros Hup Hg HN Ht Hd calls angle.
  destruct (VoiceFacts.smooth_move_in_range servo target N delay s Hup Hg HN Ht Hd)
    as (s' & E & _ & _ & _ & tr & T & C).
  assert (Hc : calls = map (fun i => (servo, angle i)) (seqZ 1 N)).
  { unfold calls. rewrite (emitted_app _ s tr); [exact C |].
    rewrite E. exact T. }
  split; [rewrite E; reflexivity |].
  split; [rewrite Hc, length_map, length_seqZ; reflexivity |].
  split; [exact Hc |].
  split.
  - intros Hdir i j _ Hij _. apply PyFloatFacts.float_interp_up; lia.
  - intros Hdir i j _ Hij _. apply PyFloatFacts.float_interp_down; lia.
Qed.

Lemma smooth_move_commands_witness :
  send_calls (emitted (Voice.smooth_move "left_arm" 170 5 20) voice_ready)
  = [("left_arm", 106); ("left_arm", 122); ("left_arm", 138);
     ("left_arm", 154); ("left_arm", 170)]%string.
Proof.
  assert (Hup : link_down (arduino voice_ready) = false) by (vm_compute; reflexivity).
  assert (Hg : Voice.intact voice_ready) by (vm_compute; reflexivity).
  assert (HN : 1 <= 5 <= 2 ^ 500) by (split; [lia | vm_compute; discriminate]).
  assert (Ht : Z.abs (170 - 90) <= 2 ^ 500) by (vm_compute; discriminate).
  assert (Hd : 0 <= 20 <= SLEEP_SAFE) by (split; [lia | vm_compute; discriminate]).
  destruct (smooth_move_commands "left_arm" 170 5 20 voice_ready Hup Hg HN Ht Hd)
    as (_ & _ & E & _).
  rewrite E. vm_compute. reflexivity.
Defined.

(** C1 as stated fails where the arithmetic leaves the range of binary64:
    with the link open and [N = 1], a target of [2^1024 + 90] makes the
    division raise; the handler reports it and no send is made.  It also
    fails where the delay leaves the range of [time.sleep]: with a delay
    of [10^13] ms the first wait raises, and five steps make one send. *)
Lemma smooth_move_overflow :
  link_down (arduino voice_ready) = false
  /\ emitted (Voice.smooth_move "head" (2 ^ 1024 + 90) 1 20) voice_ready
     = [Printed "Smooth move failed"]
  /\ length (send_calls
               (emitted (Voice.smooth_move "head" (2 ^ 1024 + 90) 1 20)
                  voice_ready))
     <> Z.to_nat 1
  /\ send_calls (emitted (Voice.smooth_move "head" 170 5 (10 ^ 13)) voice_ready)
     = [("head"%string, 106)]
  /\ length (send_calls
               (emitted (Voice.smooth_move "head" 170 5 (10 ^ 13)) voice_ready))
     <> Z.to_nat 5.
Proof. vm_compute. repeat split; discriminate. Qed.

(** C2: the voice program's [init_arduino] does not come back when the port
    opens onto a device that never sends ["READY"]: its [while True] loop has
    no other way out, so no amount of fuel yields a result. *)
Theorem voice_init_never_returns (fuel : nat) (s : state Voice.tables) :
  port_opens (world s) = true ->
  never_ready (world s) ->
  fst (Voice.init_arduino fuel s) = Spin.
Proof.
  intros Ho Hw. unfold Voice.init_arduino, try_except.
  unfold bind at 1. unfold serial_open. rewrite Ho.
  unfold bind at 1. short_sleeps. cbn.
  match goal with |- context [while_loop fuel Voice.ready_body ?s1] =>
    pose proof (InitFacts.voice_wait_spins fuel s1 (Port true []) eq_refl
                  (Forall_nil_2 _) Hw) as H;
    destruct (while_loop fuel Voice.ready_body s1) as [r s2] end.
  cbn in H. subst r. reflexivity.
Qed.

Lemma voice_init_never_returns_witness :
  fst (Voice.init_arduino 1000 (Voice.initial silent_device)) = Spin.
Proof.
  apply voice_init_never_returns.
  - reflexivity.
  - intros n. constructor.
Defined.

(** C3: [perform_gesture] answers [False] exactly for the names missing from
    the catalogue; for a catalogued name it returns [True] whatever became of
    the individual sends, and its trace plays the resolved [(pin, angle)]
    steps of the catalogue in order, one call of send per step followed by
    the 150 ms pause, none repeated and none skipped: on an open link every
    step's line is handed to the port exactly once, failed writes
    included. *)
Theorem perform_gesture_plays (name : string) (s : state Server.tables) :
  Server.intact s ->
  (fst (Server.perform_gesture name s) = Ret false
   <-> Server.GESTURES !! name = None)
  /\ (forall steps,
        Server.GESTURES !! name = Some steps ->
        let tr := emitted (Server.perform_gesture name) s in
        let resolved := resolve Server.SERVO_PINS steps in
        fst (Server.perform_gesture name s) = Ret true
        /\ length resolved = length steps
        /\ played resolved tr
        /\ pin_calls tr = resolved
        /\ length (filter (fun ms => ms = 150) (sleeps tr)) = length steps
        /\ wire tr = (if link_down (arduino s) then []
                      else map (fun step => command_line step.1 step.2)
                               resolved)).
Proof.
  intros Hi. unfold Server.intact in Hi.
  assert (Hg : Server.gestures (globals s) = Server.GESTURES)
    by (rewrite Hi; reflexivity).
  assert (Hp : Server.servo_pins (globals s) = Server.SERVO_PINS)
    by (rewrite Hi; reflexivity).
  split.
  - destruct (Server.GESTURES !! name) as [steps |] eqn:E.
    + destruct (ServerFacts.server_perform_known name steps s)
        as (tr & s' & R & _); [rewrite Hg; exact E |].
      rewrite R. cbn. split; discriminate.
    + rewrite ServerFacts.server_perform_unknown by (rewrite Hg; exact E).
      split; reflexivity.
  - intros steps E tr resolved.
    destruct (ServerFacts.server_perform_known name steps s)
      as (tr' & s' & R & P & W & T & _); [rewrite Hg; exact E |].
    assert (Htr : tr = tr').
    { unfold tr. apply emitted_app. rewrite R. exact T. }
    rewrite Hp in P, W. fold resolved in P, W. rewrite Htr.
    split; [rewrite R; reflexivity |].
    split; [apply (ServerFacts.catalog_resolves name), E |].
    split; [exact P |].
    split; [apply ServerFacts.played_pin_calls, P |].
    split; [| exact W].
    rewrite (ServerFacts.played_sleeps _ _ P).
    apply (ServerFacts.catalog_resolves name), E.
Qed.

Lemma perform_gesture_plays_witness :
  fst (Server.perform_gesture "nod" (Server.initial deaf_device)) = Ret true
  /\ pin_calls (emitted (Server.perform_gesture "nod") (Server.initial deaf_device))
     = [(2, 105); (2, 75); (2, 105); (2, 75); (2, 90)].
Proof.
  assert (Hi : Server.intact (Server.initial deaf_device)) by reflexivity.
  destruct (perform_gesture_plays "nod" (Server.initial deaf_device) Hi) as [_ H].
  destruct (H [("pan", 105); ("pan", 75); ("pan", 105); ("pan", 75);
               ("pan", 90)]%string)
    as (R & _ & _ & C & _); [vm_compute; reflexivity |].
  split; [exact R |]. rewrite C. vm_compute. reflexivity.
Defined.

(** C4: with no handle, or a closed one, both programs' send return
    [False] having done no more than be called: nothing is written, read,
    slept or printed; and [smooth_move] returns at once, leaving the state
    as it found it: no call of send, no report of an error. *)
Theorem link_down_no_io (pin : Z) (servo : string) (angle target N delay : Z)
    (ss : state Server.tables) (vs : state Voice.tables) :
  link_down (arduino ss) = true ->
  link_down (arduino vs) = true ->
  (fst (Server.send_servo_command pin angle ss) = Ret false
   /\ emitted (Server.send_servo_command pin angle) ss = [SendPinCall pin angle]
   /\ wire (emitted (Server.send_servo_command pin angle) ss) = [])
  /\ (fst (Voice.send_servo_command servo angle vs) = Ret false
      /\ emitted (Voice.send_servo_command servo angle) vs = [SendCall servo angle]
      /\ wire (emitted (Voice.send_servo_command servo angle) vs) = [])
  /\ Voice.smooth_move servo target N delay vs = (Ret tt, vs)
  /\ send_calls (emitted (Voice.smooth_move servo target N delay) vs) = [].
Proof.
  intros Hs Hv.
  pose proof (ServerFacts.server_send_link_down pin angle ss Hs) as Es.
  pose proof (VoiceFacts.voice_send_link_down servo angle vs Hv) as Ev.
  pose proof (VoiceFacts.smooth_move_link_down servo target N delay vs Hv) as Em.
  assert (Ts : emitted (Server.send_servo_command pin angle) ss = [SendPinCall pin angle]).
  { apply emitted_app. rewrite Es. reflexivity. }
  assert (Tv : emitted (Voice.send_servo_command servo angle) vs = [SendCall servo angle]).
  { apply emitted_app. rewrite Ev. reflexivity. }
  assert (Tm : emitted (Voice.smooth_move servo target N delay) vs = []).
  { apply emitted_app. rewrite Em. cbn. rewrite app_nil_r. reflexivity. }
  repeat split.
  - rewrite Es. reflexivity.
  - exact Ts.
  - rewrite Ts. reflexivity.
  - rewrite Ev. reflexivity.
  - exact Tv.
  - rewrite Tv. reflexivity.
  - exact Em.
  - rewrite Tm. reflexivity.
Qed.

Lemma link_down_no_io_witness :
  Voice.smooth_move "head" 105 5 20 (Voice.initial no_device)
  = (Ret tt, Voice.initial no_device).
Proof.
  refine (proj1 (proj2 (proj2
    (link_down_no_io 2 "head" 105 105 5 20
       (Server.initial no_device) (Voice.initial no_device) _ _)))).
  - reflexivity.
  - reflexivity.
Defined.

(** C5: what send hands to the port is the line ["<pin>:<angle>\n"], the
    pin and the angle in decimal, and that is what goes out when the write
    succeeds; in particular, with the device that greets and acknowledges,
    sending 170 to ["left_arm"] puts exactly ["4:170\n"] on the wire and
    returns [True]. *)
Theorem send_writes_command_line (pin angle vpin vangle : Z) (servo : string)
    (ss : state Server.tables) (vs : state Voice.tables) :
  link_down (arduino ss) = false ->
  link_down (arduino vs) = false ->
  known_pin (Voice.servo_pins (globals vs)) servo = Some vpin ->
  let line p a := (py_str p ++ ":" ++ py_str a ++ LF)%string in
  wire (emitted (Server.send_servo_command pin angle) ss) = [line pin angle]
  /\ written (emitted (Server.send_servo_command pin angle) ss)
     = (if write_ok (world ss) (writes ss) then [line pin angle] else [])
  /\ wire (emitted (Voice.send_servo_command servo vangle) vs) = [line vpin vangle]
  /\ written (emitted (Voice.send_servo_command servo vangle) vs)
     = (if write_ok (world vs) (writes vs) then [line vpin vangle] else [])
  /\ Voice.SERVO_PINS !! "left_arm"%string = Some 4
  /\ written (emitted (Voice.send_servo_command "left_arm" 170) voice_ready)
     = [("4:170" ++ LF)%string]
  /\ fst (Voice.send_servo_command "left_arm" 170 voice_ready) = Ret true.
Proof.
  intros Hs Hv Hk line.
  destruct (ServerFacts.server_send_wire pin angle ss Hs) as [S1 S2].
  destruct (VoiceFacts.voice_send_wire servo vangle vpin vs Hv Hk) as [V1 V2].
  repeat split; try assumption; vm_compute; reflexivity.
Qed.

Lemma send_writes_command_line_witness :
  wire (emitted (Server.send_servo_command 5 40) server_ready)
  = [("5:40" ++ LF)%string].
Proof.
  refine (proj1 (send_writes_command_line 5 40 2 90 "head"
                   server_ready voice_ready _ _ _));
    vm_compute; reflexivity.
Defined.


(** C7: a gesture name missing from the catalogue makes [perform_gesture]
    return [False] and leave the state untouched; a servo name without a pin
    makes the voice program's send return [False] with nothing handed to the
    port and the port as it was, and makes the server's "set servo" route
    answer "unknown" without a call of send.  None of them raises. *)
Theorem unknown_names_are_noops (name vservo sservo : string) (angle : Z)
    (ss : state Server.tables) (vs : state Voice.tables) :
  Server.intact ss ->
  Voice.intact vs ->
  Server.GESTURES !! name = None ->
  Voice.SERVO_PINS !! vservo = None ->
  Server.SERVO_PINS !! sservo = None ->
  Server.perform_gesture name ss = (Ret false, ss)
  /\ (fst (Voice.send_servo_command vservo angle vs) = Ret false
      /\ wire (emitted (Voice.send_servo_command vservo angle) vs) = []
      /\ arduino (snd (Voice.send_servo_command vservo angle vs)) = arduino vs
      /\ writes (snd (Voice.send_servo_command vservo angle vs)) = writes vs
      /\ polls (snd (Voice.send_servo_command vservo angle vs)) = polls vs)
  /\ Server.control_servo sservo angle ss = (Ret Server.UnknownServo, ss).
Proof.
  intros Hs Hv Hn Hvp Hsp.
  unfold Server.intact in Hs. unfold Voice.intact in Hv.
  split; [| split].
  - apply ServerFacts.server_perform_unknown. rewrite Hs. exact Hn.
  - destruct (VoiceFacts.voice_send_unknown vservo angle vs) as (tr & E & W).
    { unfold known_pin. rewrite Hv. cbn [Voice.servo_pins].
      rewrite Hvp. reflexivity. }
    rewrite (emitted_app _ vs tr) by (rewrite E; reflexivity).
    rewrite E. cbn. auto.
  - apply ServerFacts.server_control_unknown.
    unfold known_pin. rewrite Hs. cbn [Server.servo_pins].
    rewrite Hsp. reflexivity.
Qed.

Lemma unknown_names_are_noops_witness :
  Server.perform_gesture "dance" server_ready = (Ret false, server_ready)
  /\ Server.control_servo "head" 45 server_ready
     = (Ret Server.UnknownServo, server_ready).
Proof.
  pose proof (unknown_names_are_noops "dance" "tail" "head" 45
                server_ready voice_ready) as H.
  destruct H as (Hg & _ & Hc); try (vm_compute; reflexivity).
  split; [exact Hg | exact Hc].
Defined.

(** C8: in every catalogued gesture, each servo the sequence names (and so
    each pin it drives) is last sent to 90 degrees, the rest angle. *)
Theorem gestures_end_at_rest (name : string) (steps : list (string * Z)) :
  Server.GESTURES !! name = Some steps ->
  (forall servo, servo ∈ steps.*1 -> last_angle servo steps = Some 90)
  /\ (forall pin, pin ∈ (resolve Server.SERVO_PINS steps).*1 ->
        last_pin_angle pin (resolve Server.SERVO_PINS steps) = Some 90).
Proof.
  intros H. apply elem_of_list_to_map_2 in H.
  repeat (apply elem_of_cons in H; destruct H as [H | H];
          [injection H as _ ->; split; intros x Hx; vm_compute in Hx;
           repeat (apply elem_of_cons in Hx; destruct Hx as [-> | Hx];
                   [vm_compute; reflexivity |]);
           apply elem_of_nil in Hx; contradiction |]).
  apply elem_of_nil in H. contradiction.
Qed.

Lemma gestures_end_at_rest_witness :
  last_angle "right_arm"
    [("pan", 90); ("right_arm", 70); ("right_arm", 40);
     ("right_arm", 70); ("right_arm", 40); ("right_arm", 70);
     ("right_arm", 40); ("left_arm", 90); ("right_arm", 90)]%string = Some 90.
Proof.
  refine (proj1 (gestures_end_at_rest "wave" _ _) "right_arm" _).
  - vm_compute. reflexivity.
  - vm_compute. do 1 right. left.
Defined.

(** C9: the dictionaries of the server are never written, so in every state
    the process can reach the catalogue and the pin bindings are those of the
    module; two invocations of [perform_gesture] with one name, whatever was
    done before and between them and whatever happened to the link, call send
    with the same [(pin, angle)] pairs in the same order, those the
    catalogue lists. *)
Theorem gesture_replay_is_deterministic (w : env)
    (before between : list Server.command) (name : string) :
  let s1 := Server.run_all before (Server.initial w) in
  let s2 := Server.run_all between (snd (Server.perform_gesture name s1)) in
  Server.intact s1
  /\ Server.intact s2
  /\ pin_calls (emitted (Server.perform_gesture name) s1)
     = pin_calls (emitted (Server.perform_gesture name) s2)
  /\ pin_calls (emitted (Server.perform_gesture name) s1)
     = match Server.GESTURES !! name with
       | Some steps => resolve Server.SERVO_PINS steps
       | None => []
       end.
Proof.
  intros s1 s2.
  assert (H1 : Server.intact s1).
  { unfold Server.intact, s1. rewrite ServerFacts.server_run_all_keeps. reflexivity. }
  assert (H2 : Server.intact s2).
  { unfold Server.intact, s2.
    rewrite ServerFacts.server_run_all_keeps, ServerFacts.server_keeps_perform. exact H1. }
  split; [exact H1 |]. split; [exact H2 |].
  rewrite !ServerFacts.server_perform_calls by assumption. split; reflexivity.
Qed.

(** C10: whatever the voice process has been asked to do since it started,
    in whatever world and whether or not a port ever opened, its
    dictionaries are as the module assigned them, in particular
    [SERVO_REST]; the start of an interpolation is therefore 90 for every
    servo name, and another [smooth_move], with any arguments, leaves the
    dictionaries as they are.  So where a [smooth_move] runs its steps (the
    link open, steps and distance up to [2^500], a delay from 0 to
    [SLEEP_SAFE]), it commands the angles interpolated from 90, whichever
    angles were commanded before. *)
Theorem rest_table_is_never_written (w : env) (history : list Voice.command)
    (servo : string) (target N delay : Z) :
  let s := Voice.run_all history (Voice.initial w) in
  globals s = Voice.Tables Voice.SERVO_PINS Voice.SERVO_REST
  /\ default 90 (Voice.servo_rest (globals s) !! servo) = 90
  /\ globals (snd (Voice.smooth_move servo target N delay s)) = globals s
  /\ (link_down (arduino s) = false ->
      1 <= N <= 2 ^ 500 ->
      Z.abs (target - 90) <= 2 ^ 500 ->
      0 <= delay <= SLEEP_SAFE ->
      send_calls (emitted (Voice.smooth_move servo target N delay) s)
      = map (fun i => (servo, float_interp 90 target N i)) (seqZ 1 N)).
Proof.
  intros s.
  assert (Hg : globals s = Voice.Tables Voice.SERVO_PINS Voice.SERVO_REST).
  { unfold s. rewrite VoiceFacts.voice_run_all_keeps. reflexivity. }
  split; [exact Hg |].
  split; [rewrite Hg; apply VoiceFacts.rest_angle |].
  split; [apply VoiceFacts.voice_keeps_smooth_move |].
  intros Hup HN Ht Hd.
  destruct (VoiceFacts.smooth_move_in_range servo target N delay s Hup Hg HN Ht Hd)
    as (s' & E & _ & _ & _ & tr & T & C).
  rewrite (emitted_app _ s tr); [exact C |]. rewrite E. exact T.
Qed.

Lemma rest_table_is_never_written_witness :
  send_calls
    (emitted (Voice.smooth_move "head" 75 5 20)
       (Voice.run_all [Voice.Init 1; Voice.SmoothMove "head" 105 5 20]
          (Voice.initial ok_device)))
  = [("head", 87); ("head", 84); ("head", 81); ("head", 78); ("head", 75)]%string.
Proof.
  refine (eq_trans (proj2 (proj2 (proj2
    (rest_table_is_never_written ok_device
       [Voice.Init 1; Voice.SmoothMove "head" 105 5 20] "head" 75 5 20)))
    _ _ _ _) _).
  - vm_compute. reflexivity.
  - split; [lia | vm_compute; discriminate].
  - vm_compute. discriminate.
  - split; [lia | vm_compute; discriminate].
  - vm_compute. reflexivity.
Defined.

(** * Further properties of the code *)

Import PyFloatFacts.

(** ** The link is never closed *)
Section Preserved.
Context {G : Type} (P : state G -> Prop).

Lemma preserves_ret {A} (a : A) : preserves P (ret a : M G A).
Proof. intros s H. exact H. Qed.

Lemma preserves_raise {A} (e : exn) : preserves P (raise e : M G A).
Proof. intros s H. exact H. Qed.

Lemma preserves_bind {A B} (m : M G A) (k : A -> M G B) :
  preserves P m -> (forall a, preserves P (k a)) -> preserves P (bind m k).
Proof.
  intros Hm Hk s H. unfold bind. specialize (Hm s H).
  destruct (m s) as [[a | e |] s1]; cbn in *; [| exact Hm | exact Hm].
  apply Hk. exact Hm.
Qed.

Lemma preserves_try {A} (m : M G A) (h : exn -> M G A) :
  preserves P m -> (forall e, preserves P (h e)) -> preserves P (try_except m h).
Proof.
  intros Hm Hh s H. unfold try_except. specialize (Hm s H).
  destruct (m s) as [[a | e |] s1]; cbn in *; [exact Hm | | exact Hm].
  apply Hh. exact Hm.
Qed.

Lemma preserves_for_each {A} (xs : list A) (body : A -> M G unit) :
  (forall x, preserves P (body x)) -> preserves P (for_each xs body).
Proof.
  intros Hb. induction xs as [| x xs IH]; cbn [for_each].
  - apply preserves_ret.
  - apply preserves_bind; [apply Hb | intros _; exact IH].
Qed.

Lemma preserves_while {A} (fuel : nat) (body : M G (option A)) :
  preserves P body -> preserves P (while_loop fuel body).
Proof.
  intros Hb. induction fuel as [| fuel IH]; cbn [while_loop].
  - intros s H. exact H.
  - apply preserves_bind; [exact Hb |].
    intros [a |]; [apply preserves_ret | exact IH].
Qed.

Lemma preserves_get_globals : preserves P (get_globals : M G G).
Proof. intros s H. exact H. Qed.

Lemma preserves_get_arduino : preserves P (get_arduino : M G (option port)).
Proof. intros s H. exact H. Qed.

Lemma preserves_lift {A} (r : exn + A) : preserves P (lift r : M G A).
Proof. destruct r; [apply preserves_raise | apply preserves_ret]. Qed.
End Preserved.

Section LinkUp.
Context {G : Type}.

Lemma up_log (e : event) : preserves link_up (log e : M G unit).
Proof. intros s H. exact H. Qed.

Lemma up_print (msg : string) : preserves link_up (print msg : M G unit).
Proof. apply up_log. Qed.

Lemma up_sleep (ms : Z) : preserves link_up (sleep ms : M G unit).
Proof.
  intros s H. destruct (sleep_cases ms s) as [[_ ->] | [e ->]]; exact H.
Qed.

Lemma up_serial_open : preserves link_up (serial_open : M G unit).
Proof.
  intros s H. unfold serial_open.
  destruct (port_opens (world s)); [reflexivity | exact H].
Qed.

Lemma up_in_waiting_pos : preserves link_up (in_waiting_pos : M G bool).
Proof.
  intros s H. unfold link_up, in_waiting_pos in *.
  destruct (arduino s) as [p |] eqn:Ha; [exact H | discriminate].
Qed.

Lemma up_read_text : preserves link_up (read_text : M G string).
Proof.
  intros s H. unfold link_up, read_text in *.
  destruct (arduino s) as [p |] eqn:Ha; [| discriminate].
  destruct (in_buf p) as [| [t | |] rest]; cbn; rewrite ?Ha; exact H.
Qed.

Lemma up_serial_write (data : string) :
  preserves link_up (serial_write data : M G unit).
Proof.
  intros s H. unfold link_up, serial_write in *.
  destruct (arduino s) as [p |] eqn:Ha; [| discriminate].
  destruct (is_open p); cbn; rewrite ?Ha; exact H.
Qed.
End LinkUp.

Create HintDb up.
#[export] Hint Resolve preserves_ret preserves_raise preserves_get_globals
  preserves_get_arduino preserves_lift up_log up_print up_sleep up_serial_open
  up_in_waiting_pos up_read_text up_serial_write : up.

Ltac up_step :=
  match goal with
  | |- preserves _ (bind _ _) => apply preserves_bind; [| intros ?]
  | |- preserves _ (try_except _ _) => apply preserves_try; [| intros ?]
  | |- preserves _ (for_each _ _) => apply preserves_for_each; intros ?
  | |- preserves _ (while_loop _ _) => apply preserves_while
  | |- preserves _ (match ?x with _ => _ end) => destruct x
  | |- preserves _ (if ?x then _ else _) => destruct x
  | |- preserves _ _ => solve [auto with up]
  end.

Ltac up := repeat up_step.

Lemma server_up_send (pin angle : Z) :
  preserves link_up (Server.send_servo_command pin angle).
Proof. unfold Server.send_servo_command. up. Qed.
#[export] Hint Resolve server_up_send : up.

Lemma server_up_init (fuel : nat) : preserves link_up (Server.init_arduino fuel).
Proof. unfold Server.init_arduino, Server.ready_body. up. Qed.

Lemma server_up_perform (name : string) :
  preserves link_up (Server.perform_gesture name).
Proof. unfold Server.perform_gesture, Server.gesture_body. up. Qed.

Lemma server_up_control (servo : string) (angle : Z) :
  preserves link_up (Server.control_servo servo angle).
Proof. unfold Server.control_servo. up. Qed.

Lemma server_up_run (c : Server.command) (s : state Server.tables) :
  link_up s -> link_up (Server.run c s).
Proof.
  destruct c; cbn [Server.run].
  - apply (server_up_init fuel s).
  - apply (server_up_send pin angle s).
  - apply (server_up_perform gesture_name s).
  - apply (server_up_control servo angle s).
  - apply (server_up_perform gesture s).
Qed.

Lemma voice_up_send (servo : string) (angle : Z) :
  preserves link_up (Voice.send_servo_command servo angle).
Proof. unfold Voice.send_servo_command. up. Qed.
#[export] Hint Resolve voice_up_send : up.

Lemma voice_up_smooth_move (servo : string) (target steps delay : Z) :
  preserves link_up (Voice.smooth_move servo target steps delay).
Proof. unfold Voice.smooth_move, Voice.smooth_body. up. Qed.
#[export] Hint Resolve voice_up_smooth_move : up.

Ltac up_gesture :=
  repeat first [progress unfold Voice.repeat_times | up_step].

Lemma voice_up_rest : preserves link_up Voice.gesture_rest.
Proof. unfold Voice.gesture_rest. up_gesture. Qed.
#[export] Hint Resolve voice_up_rest : up.

Lemma voice_up_gestures (f : M Voice.tables unit) :
  f ∈ [Voice.gesture_wave; Voice.gesture_nod; Voice.gesture_shake;
       Voice.gesture_rest; Voice.mood_happy; Voice.mood_sad;
       Voice.mood_excited; Voice.mood_curious] ->
  preserves link_up f.
Proof.
  intros H.
  repeat (apply elem_of_cons in H; destruct H as [-> | H];
          [unfold Voice.gesture_wave, Voice.gesture_nod, Voice.gesture_shake,
             Voice.mood_happy, Voice.mood_sad, Voice.mood_excited,
             Voice.mood_curious; up_gesture |]).
  apply elem_of_nil in H. contradiction.
Qed.

Lemma voice_up_init (fuel : nat) : preserves link_up (Voice.init_arduino fuel).
Proof. unfold Voice.init_arduino, Voice.ready_body. up. Qed.

Lemma voice_up_perform (name : string) :
  preserves link_up (Voice.perform_gesture name).
Proof.
  unfold Voice.perform_gesture.
  destruct (Voice.gestures !! name) as [f |] eqn:E; [| apply preserves_ret].
  apply elem_of_list_to_map_2 in E. apply voice_up_gestures.
  repeat (apply elem_of_cons in E; destruct E as [E | E];
          [injection E as _ ->; set_solver |]).
  apply elem_of_nil in E. contradiction.
Qed.

Lemma voice_up_mood (mood : string) :
  preserves link_up (Voice.perform_mood_gesture mood).
Proof.
  unfold Voice.perform_mood_gesture.
  destruct (Voice.mood_gestures !! mood) as [f |] eqn:E; [| apply preserves_ret].
  apply elem_of_list_to_map_2 in E. apply voice_up_gestures.
  repeat (apply elem_of_cons in E; destruct E as [E | E];
          [injection E as _ ->; set_solver |]).
  apply elem_of_nil in E. contradiction.
Qed.

Lemma voice_up_execute (gesture : string) :
  preserves link_up (Voice.execute_gesture gesture).
Proof.
  unfold Voice.execute_gesture.
  repeat first [apply (voice_up_gestures Voice.gesture_nod); set_solver
               | apply (voice_up_gestures Voice.gesture_shake); set_solver
               | up_step].
Qed.

Lemma voice_up_run (c : Voice.command) (s : state Voice.tables) :
  link_up s -> link_up (Voice.run c s).
Proof.
  destruct c; cbn [Voice.run].
  - apply (voice_up_init fuel s).
  - apply (voice_up_send servo angle s).
  - apply (voice_up_smooth_move servo target_angle steps delay s).
  - apply (voice_up_perform gesture_name s).
  - apply (voice_up_mood mood s).
  - apply (voice_up_execute gesture s).
Qed.

(** X1: no operation of either program closes the port or drops the handle:
    once the link is open it is open after any sequence of operations, write
    failures and failed reads included. *)
Theorem link_stays_up (sc : list Server.command)
    (vc : list Voice.command) (ss : state Server.tables)
    (vs : state Voice.tables) :
  link_up ss -> link_up vs ->
  link_up (Server.run_all sc ss) /\ link_up (Voice.run_all vc vs).
Proof.
  intros Hs Hv. split.
  - revert ss Hs. induction sc as [| c sc IH]; intros ss Hs; [exact Hs |].
    cbn. apply IH, server_up_run, Hs.
  - revert vs Hv. induction vc as [| c vc IH]; intros vs Hv; [exact Hv |].
    cbn. apply IH, voice_up_run, Hv.
Qed.

Lemma link_stays_up_witness :
  link_up (Server.run_all [Server.Perform "wave"; Server.Init 3] server_ready)
  /\ link_up (Voice.run_all [Voice.PerformMood "happy"; Voice.Send "tail" 10]
                voice_ready).
Proof.
  apply (link_stays_up [Server.Perform "wave"; Server.Init 3]
           [Voice.PerformMood "happy"; Voice.Send "tail" 10]
           server_ready voice_ready); vm_compute; reflexivity.
Defined.

(** ** The handshake *)
Module ConnectFacts.

Lemma server_body : Server.ready_body = ready_turn (Some true).
Proof. reflexivity. Qed.

Lemma voice_body : Voice.ready_body = ready_turn None.
Proof. reflexivity. Qed.

Section Turns.
Context {G : Type} (idle : option bool).

(** With something unread at the head of what is pending, the loop pops
    the well-formed lines before it one per turn. *)
Lemma loop_skips (pre : list rx) (l : rx) (post : list rx) (fuel : nat)
    (s : state G) (p : port) :
  arduino s = Some p ->
  pending s = pre ++ l :: post ->
  Forall not_ready pre ->
  exists s1 p1,
    arduino s1 = Some p1
    /\ is_open p1 = is_open p
    /\ globals s1 = globals s /\ world s1 = world s
    /\ trace s1 = trace s /\ writes s1 = writes s
    /\ polls s1 = (polls s + length pre)%nat
    /\ in_buf p1 ++ arrivals (world s1) (polls s1)
       = l :: post ++ backlog (world s) (S (polls s)) (length pre)
    /\ while_loop (length pre + S fuel) (ready_turn idle) s
       = while_loop (S fuel) (ready_turn idle) s1.
Proof.
  revert s p post. induction pre as [| x pre IH]; intros s p post Ha Hp Hpre.
  - exists s, p. unfold pending in Hp. rewrite Ha in Hp. cbn in *.
    rewrite Nat.add_0_r, app_nil_r. repeat split; try reflexivity; exact Hp || exact Ha.
  - apply Forall_cons in Hpre. destruct Hpre as [(text & -> & Hne) Hpre].
    unfold pending in Hp. rewrite Ha in Hp.
    pose (s' := State (Some (Port (is_open p)
                         (pre ++ l :: post))) (globals s) (world s)
                      (S (polls s)) (writes s) (trace s)).
    destruct (IH s' (Port (is_open p) (pre ++ l :: post))
                (post ++ arrivals (world s) (S (polls s))))
      as (s1 & p1 & Ha1 & Ho1 & G1 & W1 & T1 & Wr1 & P1 & B1 & L1).
    { reflexivity. }
    { unfold pending. cbn. rewrite <- app_assoc. reflexivity. }
    { exact Hpre. }
    exists s1, p1. cbn [arduino globals world trace writes polls is_open s'] in *.
    repeat split; try assumption.
    + rewrite P1. cbn. lia.
    + rewrite B1. cbn. unfold backlog. cbn [seq map concat].
      rewrite <- !app_assoc. reflexivity.
    + rewrite <- L1. cbn [length Nat.add while_loop].
      unfold bind at 1. unfold ready_turn at 1. unfold bind at 1.
      unfold in_waiting_pos. rewrite Ha. rewrite Hp. cbn.
      rewrite Hne. cbn. reflexivity.
Qed.

Lemma loop_ready (text : string) (post : list rx) (fuel : nat)
    (s : state G) (p : port) :
  arduino s = Some p ->
  pending s = RxLine text :: post ->
  String.eqb (strip text) "READY" = true ->
  while_loop (S fuel) (ready_turn idle) s
  = (Ret true,
     State (Some (Port (is_open p) post)) (globals s) (world s) (S (polls s))
           (writes s) (trace s ++ [Printed "Arduino connected!"])).
Proof.
  intros Ha Hp Hr. unfold pending in Hp. rewrite Ha in Hp.
  cbn [while_loop]. unfold bind at 1. unfold ready_turn. unfold bind at 1.
  unfold in_waiting_pos. rewrite Ha, Hp. cbn. rewrite Hr. reflexivity.
Qed.

Lemma loop_unreadable (l : rx) (post : list rx) (fuel : nat)
    (s : state G) (p : port) :
  arduino s = Some p ->
  pending s = l :: post ->
  unreadable l ->
  exists e,
    while_loop (S fuel) (ready_turn idle) s
    = (Raise e,
       State (Some (Port (is_open p) post)) (globals s) (world s) (S (polls s))
             (writes s) (trace s)).
Proof.
  intros Ha Hp Hl. unfold pending in Hp. rewrite Ha in Hp.
  cbn [while_loop]. unfold bind at 1. unfold ready_turn. unfold bind at 1.
  unfold in_waiting_pos. rewrite Ha, Hp.
  destruct Hl as [-> | ->]; eexists; reflexivity.
Qed.

End Turns.

Lemma server_init_opens (fuel : nat) (s : state Server.tables) :
  port_opens (world s) = true ->
  Server.init_arduino fuel s
  = try_except (while_loop fuel (ready_turn (Some true)))
      (fun _ => print "Arduino not connected" ;;; ret false) (opened s).
Proof.
  intros Ho. unfold Server.init_arduino, try_except.
  unfold bind at 1. unfold serial_open. rewrite Ho.
  unfold bind at 1. reflexivity.
Qed.

Lemma voice_init_opens (fuel : nat) (s : state Voice.tables) :
  port_opens (world s) = true ->
  Voice.init_arduino fuel s
  = try_except (while_loop fuel (ready_turn None))
      (fun _ => print "Arduino not connected" ;;;
                print "Continuing without servo control..." ;;; ret false)
      (opened s).
Proof.
  intros Ho. unfold Voice.init_arduino, try_except.
  unfold bind at 1. unfold serial_open. rewrite Ho.
  unfold bind at 1. reflexivity.
Qed.

End ConnectFacts.

(** X2: when the port opens and the lines received during the boot wait are
    well-formed lines followed by the readiness token, both programs'
    [init_arduino] return [True] with the link open, given fuel for one turn
    per line; whatever came after the token in that time, and during the
    turns, is left in the input buffer. *)
Theorem init_finds_ready (w : env) (pre post : list rx) (l : rx) (fuel : nat) :
  port_opens w = true ->
  arrivals w 0 = pre ++ l :: post ->
  Forall not_ready pre ->
  is_ready l ->
  (length pre < fuel)%nat ->
  let left := post ++ backlog w 1 (length pre) in
  (fst (Server.init_arduino fuel (Server.initial w)) = Ret true
   /\ arduino (snd (Server.init_arduino fuel (Server.initial w)))
      = Some (Port true left))
  /\ (fst (Voice.init_arduino fuel (Voice.initial w)) = Ret true
      /\ arduino (snd (Voice.init_arduino fuel (Voice.initial w)))
         = Some (Port true left)).
Proof.
  intros Ho Harr Hpre (text & -> & Hr) Hfuel left.
  replace fuel with (length pre + S (fuel - S (length pre)))%nat by lia.
  split.
  - rewrite ConnectFacts.server_init_opens by exact Ho.
    destruct (ConnectFacts.loop_skips (Some true) pre (RxLine text) post
                (fuel - S (length pre)) (opened (Server.initial w))
                (Port true []) eq_refl)
      as (s1 & p1 & Ha1 & Ho1 & G1 & W1 & T1 & Wr1 & P1 & B1 & L1);
      [exact Harr | exact Hpre |].
    unfold try_except. rewrite L1.
    rewrite (ConnectFacts.loop_ready (Some true) text
               (post ++ backlog w 1 (length pre)) _ s1 p1 Ha1);
      [| unfold pending; rewrite Ha1; rewrite B1; reflexivity | exact Hr].
    cbn. rewrite Ho1. split; reflexivity.
  - rewrite ConnectFacts.voice_init_opens by exact Ho.
    destruct (ConnectFacts.loop_skips None pre (RxLine text) post
                (fuel - S (length pre)) (opened (Voice.initial w))
                (Port true []) eq_refl)
      as (s1 & p1 & Ha1 & Ho1 & G1 & W1 & T1 & Wr1 & P1 & B1 & L1);
      [exact Harr | exact Hpre |].
    unfold try_except. rewrite L1.
    rewrite (ConnectFacts.loop_ready None text
               (post ++ backlog w 1 (length pre)) _ s1 p1 Ha1);
      [| unfold pending; rewrite Ha1; rewrite B1; reflexivity | exact Hr].
    cbn. rewrite Ho1. split; reflexivity.
Qed.

Lemma init_finds_ready_witness :
  fst (Voice.init_arduino 2 (Voice.initial chatty_device)) = Ret true
  /\ arduino (snd (Voice.init_arduino 2 (Voice.initial chatty_device)))
     = Some (Port true ([RxLine ("OK" ++ CRLF)] ++ backlog chatty_device 1 1)).
Proof.
  refine (proj2 (init_finds_ready chatty_device [RxLine ("Booting" ++ CRLF)]
                   [RxLine ("OK" ++ CRLF)] (RxLine (" READY" ++ CRLF)) 2
                   _ _ _ _ _)).
  - reflexivity.
  - reflexivity.
  - repeat constructor. eexists. split; [reflexivity | vm_compute; reflexivity].
  - eexists. split; [reflexivity | vm_compute; reflexivity].
  - cbn. lia.
Defined.

Module HandshakeFacts.
Import ConnectFacts.

Lemma loop_waits (k fuel : nat) (s : state Voice.tables) (o : bool) :
  arduino s = Some (Port o []) ->
  (forall n, (polls s <= n < polls s + k)%nat -> arrivals (world s) n = []) ->
  while_loop (k + fuel) (ready_turn None) s
  = while_loop fuel (ready_turn None)
      (State (Some (Port o [])) (globals s) (world s) (polls s + k)%nat
             (writes s) (trace s)).
Proof.
  revert s. induction k as [| k IH]; intros s Ha Hq.
  - destruct s as [a g w p wr t]. cbn in *. rewrite Nat.add_0_r, Ha. reflexivity.
  - cbn [Nat.add while_loop]. unfold bind at 1. unfold ready_turn at 1.
    unfold bind at 1. unfold in_waiting_pos. rewrite Ha. cbn [in_buf app].
    rewrite (Hq (polls s)) by lia. cbn.
    rewrite IH; cbn; [| reflexivity | intros n Hn; apply Hq; lia].
    do 3 f_equal. lia.
Qed.

Lemma server_loop_idle (fuel : nat) (s : state Server.tables) (o : bool) :
  arduino s = Some (Port o []) ->
  arrivals (world s) (polls s) = [] ->
  while_loop (S fuel) (ready_turn (Some true)) s
  = (Ret true,
     State (Some (Port o [])) (globals s) (world s) (S (polls s)) (writes s)
           (trace s)).
Proof.
  intros Ha Hq. cbn [while_loop]. unfold bind at 1. unfold ready_turn.
  unfold bind at 1. unfold in_waiting_pos. rewrite Ha. cbn [in_buf app].
  rewrite Hq. reflexivity.
Qed.

Lemma backlog_step (w : env) (from n : nat) :
  backlog w from (S n) = arrivals w from ++ backlog w (S from) n.
Proof. reflexivity. Qed.

Lemma server_loop_ends (K fuel : nat) (s : state Server.tables) (p : port) :
  arduino s = Some p ->
  (forall n, (K <= n)%nat -> arrivals (world s) n = []) ->
  (length (in_buf p) + length (backlog (world s) (polls s) (K - polls s)) < fuel)%nat ->
  fst (while_loop fuel (ready_turn (Some true)) s) <> Spin.
Proof.
  revert s p. induction fuel as [| fuel IH]; intros s p Ha Hq Hm; [lia |].
  cbn [while_loop]. unfold bind at 1. unfold ready_turn at 1.
  unfold bind at 1. unfold in_waiting_pos. rewrite Ha.
  destruct (in_buf p ++ arrivals (world s) (polls s)) as [| l rest] eqn:Eb.
  - cbn. discriminate.
  - cbn [length Nat.eqb negb]. unfold bind at 1. unfold read_text. cbn.
    assert (Hlen : (length rest + length (backlog (world s) (S (polls s)) (K - S (polls s))) < fuel)%nat).
    { apply (f_equal length) in Eb. rewrite length_app in Eb. cbn in Eb.
      destruct (le_lt_dec K (polls s)) as [Hk | Hk].
      - rewrite (Hq (polls s) Hk) in Eb. cbn in Eb.
        replace (K - S (polls s))%nat with 0%nat by lia.
        replace (K - polls s)%nat with 0%nat in Hm by lia.
        cbn in *. lia.
      - replace (K - polls s)%nat with (S (K - S (polls s))) in Hm by lia.
        rewrite backlog_step, length_app in Hm. lia. }
    destruct l as [text | |]; cbn; try discriminate.
    destruct (String.eqb (strip text) "READY"); cbn; [discriminate |].
    eapply IH; cbn; [reflexivity | exact Hq | exact Hlen].
Qed.

End HandshakeFacts.

(** X3: an unreadable line among those received during the boot wait makes
    both programs' [init_arduino] return [False], yet the handle stays set
    and open: a later send of the server still puts its line on the port,
    and its [health] reports the device as connected. *)
Theorem init_fails_on_noise_with_link_open (w : env) (pre post : list rx)
    (l : rx) (fuel : nat) (pin angle : Z) :
  port_opens w = true ->
  arrivals w 0 = pre ++ l :: post ->
  Forall not_ready pre ->
  unreadable l ->
  (length pre < fuel)%nat ->
  let ss := snd (Server.init_arduino fuel (Server.initial w)) in
  let vs := snd (Voice.init_arduino fuel (Voice.initial w)) in
  fst (Server.init_arduino fuel (Server.initial w)) = Ret false
  /\ fst (Voice.init_arduino fuel (Voice.initial w)) = Ret false
  /\ link_up ss /\ link_up vs
  /\ wire (emitted (Server.send_servo_command pin angle) ss)
     = [command_line pin angle]
  /\ health ss = true.
Proof.
  intros Ho Harr Hpre Hl Hfuel ss vs.
  assert (Hs : fst (Server.init_arduino fuel (Server.initial w)) = Ret false
               /\ link_up ss).
  { unfold ss. clear ss vs.
    replace fuel with (length pre + S (fuel - S (length pre)))%nat by lia.
    rewrite ConnectFacts.server_init_opens by exact Ho.
    destruct (ConnectFacts.loop_skips (Some true) pre l post
                (fuel - S (length pre)) (opened (Server.initial w))
                (Port true []) eq_refl)
      as (s1 & p1 & Ha1 & Ho1 & G1 & W1 & T1 & Wr1 & P1 & B1 & L1);
      [exact Harr | exact Hpre |].
    unfold try_except. rewrite L1.
    destruct (ConnectFacts.loop_unreadable (Some true) l
                (post ++ backlog w 1 (length pre)) (fuel - S (length pre))
                s1 p1 Ha1) as [e He];
      [unfold pending; rewrite Ha1; rewrite B1; reflexivity | exact Hl |].
    rewrite He. cbn. unfold link_up. cbn. rewrite Ho1. split; reflexivity. }
  assert (Hv : fst (Voice.init_arduino fuel (Voice.initial w)) = Ret false
               /\ link_up vs).
  { unfold vs. clear ss vs Hs.
    replace fuel with (length pre + S (fuel - S (length pre)))%nat by lia.
    rewrite ConnectFacts.voice_init_opens by exact Ho.
    destruct (ConnectFacts.loop_skips None pre l post
                (fuel - S (length pre)) (opened (Voice.initial w))
                (Port true []) eq_refl)
      as (s1 & p1 & Ha1 & Ho1 & G1 & W1 & T1 & Wr1 & P1 & B1 & L1);
      [exact Harr | exact Hpre |].
    unfold try_except. rewrite L1.
    destruct (ConnectFacts.loop_unreadable None l
                (post ++ backlog w 1 (length pre)) (fuel - S (length pre))
                s1 p1 Ha1) as [e He];
      [unfold pending; rewrite Ha1; rewrite B1; reflexivity | exact Hl |].
    rewrite He. cbn. unfold link_up. cbn. rewrite Ho1. split; reflexivity. }
  destruct Hs as [Hs1 Hs2]. destruct Hv as [Hv1 Hv2].
  repeat split; try assumption.
  - apply ServerFacts.server_send_wire. exact Hs2.
  - unfold health. unfold link_up in Hs2.
    destruct (arduino ss); [reflexivity | discriminate Hs2].
Qed.

Lemma init_fails_on_noise_with_link_open_witness :
  fst (Server.init_arduino 2 (Server.initial noisy_device)) = Ret false
  /\ fst (Voice.init_arduino 2 (Voice.initial noisy_device)) = Ret false
  /\ link_up (snd (Server.init_arduino 2 (Server.initial noisy_device)))
  /\ link_up (snd (Voice.init_arduino 2 (Voice.initial noisy_device)))
  /\ wire (emitted (Server.send_servo_command 5 40)
             (snd (Server.init_arduino 2 (Server.initial noisy_device))))
     = [command_line 5 40]
  /\ health (snd (Server.init_arduino 2 (Server.initial noisy_device))) = true.
Proof.
  refine (init_fails_on_noise_with_link_open noisy_device
            [RxLine ("Booting" ++ CRLF)] [] RxUndecodable 2 5 40 _ _ _ _ _).
  - reflexivity.
  - reflexivity.
  - repeat constructor. eexists. split; [reflexivity | vm_compute; reflexivity].
  - left. reflexivity.
  - cbn. lia.
Defined.

(** X4: the voice program waits for a token that comes late: if nothing
    arrives at the first [k] looks and the next brings well-formed lines and
    then the token, [init_arduino] returns [True] given fuel beyond
    [k + length pre], having looked [k + length pre + 1] times.  The server
    does not wait: with nothing at its first look it returns [True] at once
    and the token, when it comes, is never read. *)
Theorem voice_waits_server_does_not (w : env) (k : nat) (pre post : list rx)
    (l : rx) (fuel : nat) :
  port_opens w = true ->
  (forall n, (n < k)%nat -> arrivals w n = []) ->
  arrivals w k = pre ++ l :: post ->
  Forall not_ready pre ->
  is_ready l ->
  (k + length pre < fuel)%nat ->
  (fst (Voice.init_arduino fuel (Voice.initial w)) = Ret true
   /\ polls (snd (Voice.init_arduino fuel (Voice.initial w)))
      = (k + length pre + 1)%nat)
  /\ ((0 < k)%nat ->
      fst (Server.init_arduino fuel (Server.initial w)) = Ret true
      /\ polls (snd (Server.init_arduino fuel (Server.initial w))) = 1%nat
      /\ arduino (snd (Server.init_arduino fuel (Server.initial w)))
         = Some (Port true [])).
Proof.
  intros Ho Hq Harr Hpre (text & -> & Hr) Hfuel. split.
  - rewrite ConnectFacts.voice_init_opens by exact Ho.
    replace fuel with (k + (length pre + S (fuel - S (k + length pre))))%nat by lia.
    unfold try_except.
    rewrite (HandshakeFacts.loop_waits k _ _ true);
      [| reflexivity | intros n Hn; apply Hq; cbn in Hn; lia].
    match goal with |- context [while_loop _ _ ?s0] => set (s := s0) end.
    destruct (ConnectFacts.loop_skips None pre (RxLine text) post
                (fuel - S (k + length pre)) s (Port true []) eq_refl)
      as (s1 & p1 & Ha1 & Ho1 & G1 & W1 & T1 & Wr1 & P1 & B1 & L1);
      [exact Harr | exact Hpre |].
    rewrite L1.
    rewrite (ConnectFacts.loop_ready None text
               (post ++ backlog (world s) (S (polls s)) (length pre))
               _ s1 p1 Ha1);
      [| unfold pending; rewrite Ha1; exact B1 | exact Hr].
    cbn. rewrite P1. cbn. split; [reflexivity | lia].
  - intros Hk. rewrite ConnectFacts.server_init_opens by exact Ho.
    destruct fuel as [| fuel]; [lia |].
    unfold try_except.
    rewrite (HandshakeFacts.server_loop_idle fuel _ true);
      [| reflexivity | apply Hq; exact Hk].
    cbn. repeat split.
Qed.

Lemma voice_waits_server_does_not_witness :
  (fst (Voice.init_arduino 3 (Voice.initial late_device)) = Ret true
   /\ polls (snd (Voice.init_arduino 3 (Voice.initial late_device))) = 3%nat)
  /\ fst (Server.init_arduino 3 (Server.initial late_device)) = Ret true
  /\ polls (snd (Server.init_arduino 3 (Server.initial late_device))) = 1%nat
  /\ arduino (snd (Server.init_arduino 3 (Server.initial late_device)))
     = Some (Port true []).
Proof.
  destruct (voice_waits_server_does_not late_device 2 [] []
              (RxLine ("READY" ++ CRLF)) 3) as (V & S).
  - reflexivity.
  - intros [| [| n]] H; [reflexivity | reflexivity | lia].
  - reflexivity.
  - constructor.
  - eexists. split; [reflexivity | vm_compute; reflexivity].
  - cbn. lia.
  - split; [exact V | apply S; lia].
Defined.

(** X5: the server's [init_arduino] comes back whenever the device falls
    silent: if nothing arrives from the [K]-th look on, fuel beyond the
    number of lines that arrive before gives a result, [True] or [False]. *)
Theorem server_init_returns (w : env) (K fuel : nat) :
  (forall n, (K <= n)%nat -> arrivals w n = []) ->
  (length (backlog w 0 K) < fuel)%nat ->
  exists b, fst (Server.init_arduino fuel (Server.initial w)) = Ret b.
Proof.
  intros Hq Hfuel.
  destruct (port_opens w) eqn:Ho.
  - rewrite ConnectFacts.server_init_opens by exact Ho.
    pose proof (HandshakeFacts.server_loop_ends K fuel
                  (opened (Server.initial w)) (Port true [])
                  eq_refl Hq) as H.
    cbn in H. rewrite Nat.sub_0_r in H. specialize (H Hfuel).
    unfold try_except.
    destruct (while_loop fuel (ready_turn (Some true))
                (opened (Server.initial w))) as [[b | e |] s1];
      cbn in *; [exists b; reflexivity | exists false; reflexivity | congruence].
  - exists false. unfold Server.init_arduino, try_except.
    unfold bind at 1. unfold serial_open. cbn. rewrite Ho. reflexivity.
Qed.

Lemma server_init_returns_witness :
  exists b, fst (Server.init_arduino 4 (Server.initial chatty_device)) = Ret b.
Proof.
  apply (server_init_returns chatty_device 1 4).
  - intros [| n] H; [lia | reflexivity].
  - cbn. lia.
Defined.

(** ** Without hardware *)
Section RunsWithin.
Context {G : Type} (P : state G -> Prop).

Lemma within_ret {A} (a : A) : runs_within P (ret a : M G A).
Proof. intros s H. split; [exact H | reflexivity]. Qed.

Lemma within_bind {A B} (m : M G A) (k : A -> M G B) :
  runs_within P m -> (forall a, runs_within P (k a)) -> runs_within P (bind m k).
Proof.
  intros Hm Hk s H. unfold bind. destruct (Hm s H) as [H1 H2].
  destruct (m s) as [[a | e |] s1]; cbn in *; try discriminate.
  apply Hk. exact H1.
Qed.

Lemma within_for_each {A} (xs : list A) (body : A -> M G unit) :
  (forall x, runs_within P (body x)) -> runs_within P (for_each xs body).
Proof.
  intros Hb. induction xs as [| x xs IH]; cbn [for_each].
  - apply within_ret.
  - apply within_bind; [apply Hb | intros _; exact IH].
Qed.

Lemma within_get_globals : runs_within P (get_globals : M G G).
Proof. intros s H. split; [exact H | reflexivity]. Qed.
End RunsWithin.

Section NoHardware.
Context {G : Type}.

Lemma dead_log (e : event) :
  wire [e] = [] -> runs_within no_hardware (log e : M G unit).
Proof.
  intros He s (H1 & H2 & H3). split; [| reflexivity].
  repeat split; cbn; try assumption.
  rewrite wire_app, H3, He. reflexivity.
Qed.

Lemma dead_print (msg : string) : runs_within no_hardware (print msg : M G unit).
Proof. apply dead_log. reflexivity. Qed.

Lemma dead_sleep (ms : Z) :
  0 <= ms <= SLEEP_SAFE -> runs_within no_hardware (sleep ms : M G unit).
Proof.
  intros H. rewrite (sleep_short ms H). apply dead_log. reflexivity.
Qed.
End NoHardware.

Ltac dead_step :=
  match goal with
  | |- runs_within _ (bind _ _) => apply within_bind; [| intros ?]
  | |- runs_within _ (for_each _ _) => apply within_for_each; intros ?
  | |- runs_within _ (ret _) => apply within_ret
  | |- runs_within _ get_globals => apply within_get_globals
  | |- runs_within _ (print _) => apply dead_print
  | |- runs_within _ (sleep _) =>
      apply dead_sleep; split; [lia | vm_compute; discriminate]
  | |- runs_within _ (log _) => apply dead_log; reflexivity
  | |- runs_within _ (match ?x with _ => _ end) => destruct x
  | |- runs_within _ (if ?x then _ else _) => destruct x
  end.

Module DeadFacts.

Lemma server_init (fuel : nat) :
  runs_within no_hardware (Server.init_arduino fuel).
Proof.
  intros s (H1 & H2 & H3).
  assert (E : Server.init_arduino fuel s
              = (Ret false, snd (print "Arduino not connected" s))).
  { unfold Server.init_arduino, try_except. unfold bind at 1.
    unfold serial_open. rewrite H2. reflexivity. }
  rewrite E. split; [| reflexivity].
  apply (dead_print "Arduino not connected" s). repeat split; assumption.
Qed.

Lemma voice_init (fuel : nat) :
  runs_within no_hardware (Voice.init_arduino fuel).
Proof.
  intros s (H1 & H2 & H3).
  assert (E : Voice.init_arduino fuel s
              = (Ret false,
                 snd ((print "Arduino not connected" ;;;
                       print "Continuing without servo control...") s))).
  { unfold Voice.init_arduino, try_except. unfold bind at 1.
    unfold serial_open. rewrite H2. reflexivity. }
  rewrite E. split; [| reflexivity].
  assert (W : runs_within no_hardware
                (print "Arduino not connected" ;;;
                 print "Continuing without servo control..." : M Voice.tables unit))
    by repeat dead_step.
  apply W. repeat split; assumption.
Qed.

Lemma server_send (pin angle : Z) :
  runs_within no_hardware (Server.send_servo_command pin angle).
Proof.
  intros s (H1 & H2 & H3).
  rewrite (ServerFacts.server_send_link_down pin angle s H1).
  split; [| reflexivity]. repeat split; cbn; try assumption.
  rewrite wire_app, H3. reflexivity.
Qed.

Lemma voice_send (servo : string) (angle : Z) :
  runs_within no_hardware (Voice.send_servo_command servo angle).
Proof.
  intros s (H1 & H2 & H3).
  rewrite (VoiceFacts.voice_send_link_down servo angle s H1).
  split; [| reflexivity]. repeat split; cbn; try assumption.
  rewrite wire_app, H3. reflexivity.
Qed.

Lemma smooth_move (servo : string) (target steps delay : Z) :
  runs_within no_hardware (Voice.smooth_move servo target steps delay).
Proof.
  intros s H. pose proof H as (H1 & _).
  rewrite (VoiceFacts.smooth_move_link_down servo target steps delay s H1).
  split; [exact H | reflexivity].
Qed.

Ltac dead :=
  repeat first [ apply server_send | apply voice_send | apply smooth_move
               | progress unfold Voice.repeat_times | dead_step ].

Lemma server_perform (name : string) :
  runs_within no_hardware (Server.perform_gesture name).
Proof. unfold Server.perform_gesture, Server.gesture_body. dead. Qed.

Lemma server_control (servo : string) (angle : Z) :
  runs_within no_hardware (Server.control_servo servo angle).
Proof. unfold Server.control_servo. dead. Qed.

Lemma voice_gestures (f : M Voice.tables unit) :
  f ∈ [Voice.gesture_wave; Voice.gesture_nod; Voice.gesture_shake;
       Voice.gesture_rest; Voice.mood_happy; Voice.mood_sad;
       Voice.mood_excited; Voice.mood_curious] ->
  runs_within no_hardware f.
Proof.
  intros H.
  repeat (apply elem_of_cons in H; destruct H as [-> | H];
          [unfold Voice.gesture_wave, Voice.gesture_nod, Voice.gesture_shake,
             Voice.mood_happy, Voice.mood_sad, Voice.mood_excited,
             Voice.mood_curious, Voice.gesture_rest; dead |]).
  apply elem_of_nil in H. contradiction.
Qed.

Lemma voice_perform (name : string) :
  runs_within no_hardware (Voice.perform_gesture name).
Proof.
  unfold Voice.perform_gesture.
  destruct (Voice.gestures !! name) as [f |] eqn:E; [| apply within_ret].
  apply elem_of_list_to_map_2 in E. apply voice_gestures.
  repeat (apply elem_of_cons in E; destruct E as [E | E];
          [injection E as _ ->; set_solver |]).
  apply elem_of_nil in E. contradiction.
Qed.

Lemma voice_mood (mood : string) :
  runs_within no_hardware (Voice.perform_mood_gesture mood).
Proof.
  unfold Voice.perform_mood_gesture.
  destruct (Voice.mood_gestures !! mood) as [f |] eqn:E; [| apply within_ret].
  apply elem_of_list_to_map_2 in E. apply voice_gestures.
  repeat (apply elem_of_cons in E; destruct E as [E | E];
          [injection E as _ ->; set_solver |]).
  apply elem_of_nil in E. contradiction.
Qed.

Lemma voice_execute (gesture : string) :
  runs_within no_hardware (Voice.execute_gesture gesture).
Proof.
  unfold Voice.execute_gesture.
  repeat first [ apply (voice_gestures Voice.gesture_nod); set_solver
               | apply (voice_gestures Voice.gesture_shake); set_solver
               | dead_step ].
Qed.

Lemma server_run (c : Server.command) (s : state Server.tables) :
  no_hardware s -> no_hardware (Server.run c s) /\ server_returns c s = true.
Proof.
  destruct c; cbn [Server.run server_returns].
  - apply (server_init fuel s).
  - apply (server_send pin angle s).
  - apply (server_perform gesture_name s).
  - apply (server_control servo angle s).
  - apply (server_perform gesture s).
Qed.

Lemma voice_run (c : Voice.command) (s : state Voice.tables) :
  no_hardware s -> no_hardware (Voice.run c s) /\ voice_returns c s = true.
Proof.
  destruct c; cbn [Voice.run voice_returns].
  - apply (voice_init fuel s).
  - apply (voice_send servo angle s).
  - apply (smooth_move servo target_angle steps delay s).
  - apply (voice_perform gesture_name s).
  - apply (voice_mood mood s).
  - apply (voice_execute gesture s).
Qed.

End DeadFacts.

(** X6: with no port to open, whatever either program is asked to do, in any
    order, every call returns a value (none raises, none hangs), the link
    stays down and nothing is ever handed to a port. *)
Theorem no_hardware_degrades_gracefully (w : env)
    (sc : list Server.command) (vc : list Voice.command)
    (c : Server.command) (c' : Voice.command) :
  port_opens w = false ->
  let ss := Server.run_all sc (Server.initial w) in
  let vs := Voice.run_all vc (Voice.initial w) in
  (no_hardware ss /\ server_returns c ss = true)
  /\ (no_hardware vs /\ voice_returns c' vs = true).
Proof.
  intros Ho ss vs.
  assert (Hs : no_hardware ss).
  { unfold ss.
    assert (H0 : no_hardware (Server.initial w)) by (repeat split; exact Ho).
    revert H0. generalize (Server.initial w) as s.
    induction sc as [| x sc IH]; intros s H0; [exact H0 |].
    cbn. apply IH. apply (DeadFacts.server_run x s H0). }
  assert (Hv : no_hardware vs).
  { unfold vs.
    assert (H0 : no_hardware (Voice.initial w)) by (repeat split; exact Ho).
    revert H0. generalize (Voice.initial w) as s.
    induction vc as [| x vc IH]; intros s H0; [exact H0 |].
    cbn. apply IH. apply (DeadFacts.voice_run x s H0). }
  split; split; try assumption.
  - apply (DeadFacts.server_run c ss Hs).
  - apply (DeadFacts.voice_run c' vs Hv).
Qed.

Lemma no_hardware_degrades_gracefully_witness :
  (no_hardware (Server.run_all [Server.Init 1; Server.Trigger "wave"]
                  (Server.initial no_device))
   /\ server_returns (Server.ControlServo "pan" 45)
        (Server.run_all [Server.Init 1; Server.Trigger "wave"]
           (Server.initial no_device)) = true)
  /\ (no_hardware (Voice.run_all [Voice.Init 1; Voice.PerformMood "happy"]
                     (Voice.initial no_device))
      /\ voice_returns (Voice.SmoothMove "head" 45 0 (-1))
           (Voice.run_all [Voice.Init 1; Voice.PerformMood "happy"]
              (Voice.initial no_device)) = true).
Proof.
  apply (no_hardware_degrades_gracefully no_device
           [Server.Init 1; Server.Trigger "wave"]
           [Voice.Init 1; Voice.PerformMood "happy"]
           (Server.ControlServo "pan" 45) (Voice.SmoothMove "head" 45 0 (-1))).
  reflexivity.
Defined.

(** ** Smooth moves that stop early *)

Lemma emitted_nothing {G A} (m : M G A) (s : state G) :
  snd (m s) = s -> emitted m s = [].
Proof. intros H. apply emitted_app. rewrite H, app_nil_r. reflexivity. Qed.

Lemma truediv_negative_steps (a n : Z) :
  Z.abs a <= 2 ^ 500 -> n < 0 -> exists f, int_truediv a n = inr f.
Proof.
  intros Ha Hn. unfold int_truediv. destruct (Z.eqb_spec n 0); [lia |].
  destruct (to_float_finite (2 ^ 500) (inject_Z a / inject_Z n)) as [Ef _].
  - exact rnd_pow2_500.
  - reflexivity.
  - assert (Hq : (inject_Z a / inject_Z n
                  == inject_Z (- a) / inject_Z (- n))%Q).
    { rewrite !inject_Z_opp. field.
      intros H0. apply (inject_Z_injective n 0) in H0. lia. }
    rewrite Hq. apply quotient_abs_le; [| lia].
    apply inject_Z_abs_le; lia.
  - rewrite Ef. eexists. reflexivity.
Qed.

(** X7: a step count of zero or less makes [smooth_move] send nothing: it
    returns having done nothing, or after the report of its handler; with
    the link open, zero steps always end in the handler (the division by
    zero), and a negative count within range ends silently. *)
Theorem smooth_move_without_steps (servo : string) (target steps delay : Z)
    (s : state Voice.tables) :
  steps <= 0 ->
  fst (Voice.smooth_move servo target steps delay s) = Ret tt
  /\ (emitted (Voice.smooth_move servo target steps delay) s = []
      \/ emitted (Voice.smooth_move servo target steps delay) s
         = [Printed "Smooth move failed"])
  /\ (link_up s -> steps = 0 ->
      emitted (Voice.smooth_move servo target steps delay) s
      = [Printed "Smooth move failed"])
  /\ (link_up s -> Voice.intact s -> steps < 0 ->
      Z.abs (target - 90) <= 2 ^ 500 ->
      emitted (Voice.smooth_move servo target steps delay) s = []).
Proof.
  intros Hsteps.
  assert (Hseq : seqZ 0 steps = []).
  { unfold seqZ. replace (Z.to_nat steps) with 0%nat by lia. reflexivity. }
  destruct (link_down (arduino s)) eqn:Hl.
  - pose proof (VoiceFacts.smooth_move_link_down servo target steps delay s Hl) as E.
    assert (Hn : emitted (Voice.smooth_move servo target steps delay) s = [])
      by (apply emitted_nothing; rewrite E; reflexivity).
    unfold link_up. rewrite Hl, E, Hn.
    repeat split; try (left; reflexivity); intros; discriminate.
  - set (cur := default 90 (Voice.servo_rest (globals s) !! servo)).
    assert (E : Voice.smooth_move servo target steps delay s
                = match int_truediv (target - cur) steps with
                  | inl _ => (Ret tt, snd (print "Smooth move failed" s))
                  | inr _ => (Ret tt, s)
                  end).
    { unfold Voice.smooth_move, get_arduino, get_globals, try_except.
      unfold bind at 1. rewrite Hl. unfold bind at 1. fold cur.
      unfold bind at 1.
      destruct (int_truediv (target - cur) steps) as [e | f]; [reflexivity |].
      cbn [lift]. unfold ret at 1. rewrite Hseq. reflexivity. }
    assert (Hcases :
      match int_truediv (target - cur) steps with
      | inl _ => emitted (Voice.smooth_move servo target steps delay) s
                 = [Printed "Smooth move failed"]
      | inr _ => emitted (Voice.smooth_move servo target steps delay) s = []
      end).
    { destruct (int_truediv (target - cur) steps) eqn:Ed.
      - apply emitted_app. rewrite E. reflexivity.
      - apply emitted_nothing. rewrite E. reflexivity. }
    split; [rewrite E; destruct (int_truediv (target - cur) steps); reflexivity |].
    split; [| split].
    + destruct (int_truediv (target - cur) steps); [right | left]; exact Hcases.
    + intros _ Hz. subst steps. exact Hcases.
    + intros _ Hi Hneg Ht.
      assert (Hcur : cur = 90).
      { unfold cur. rewrite Hi. apply VoiceFacts.rest_angle. }
      rewrite Hcur in Hcases.
      destruct (truediv_negative_steps (target - 90) steps Ht Hneg) as [f Hf].
      rewrite Hf in Hcases. exact Hcases.
Qed.

Lemma smooth_move_without_steps_witness :
  fst (Voice.smooth_move "head" 45 0 20 voice_ready) = Ret tt
  /\ emitted (Voice.smooth_move "head" 45 0 20) voice_ready
     = [Printed "Smooth move failed"]
  /\ emitted (Voice.smooth_move "head" 45 (-4) 20) voice_ready = [].
Proof.
  destruct (smooth_move_without_steps "head" 45 0 20 voice_ready ltac:(lia))
    as (R & _ & Z0 & _).
  destruct (smooth_move_without_steps "head" 45 (-4) 20 voice_ready ltac:(lia))
    as (_ & _ & _ & N).
  split; [exact R | split].
  - apply Z0; [vm_compute; reflexivity | reflexivity].
  - apply N; [vm_compute; reflexivity | vm_compute; reflexivity | lia |].
    vm_compute. discriminate.
Defined.

(** X8: a negative delay stops [smooth_move] after its first step: with the
    link open and arguments within range, exactly one send is made, for the
    first interpolated angle; the sleep then raises, and the handler's
    report is the last thing done. *)
Theorem smooth_move_negative_delay (servo : string) (target N delay : Z)
    (s : state Voice.tables) :
  link_up s ->
  Voice.intact s ->
  1 <= N <= 2 ^ 500 ->
  Z.abs (target - 90) <= 2 ^ 500 ->
  delay < 0 ->
  fst (Voice.smooth_move servo target N delay s) = Ret tt
  /\ send_calls (emitted (Voice.smooth_move servo target N delay) s)
     = [(servo, float_interp 90 target N 1)]
  /\ last (emitted (Voice.smooth_move servo target N delay) s)
     = Some (Printed "Smooth move failed").
Proof.
  intros Hup Hi HN Ht Hd.
  destruct (int_truediv_finite (target - 90) N Ht ltac:(lia)) as [Ediv Bstep].
  set (step := rnd (inject_Z (target - 90) / inject_Z N)) in *.
  assert (Hseq : seqZ 0 N = 0 :: seqZ 1 (N - 1)).
  { rewrite (seqZ_cons 0 N) by lia. reflexivity. }
  pose proof (VoiceFacts.interpolate_finite step 1 Bstep ltac:(lia)) as Hint.
  destruct (VoiceFacts.voice_send_link_up servo (float_interp 90 target N 1) s Hup)
    as (b & s1 & E1 & Up1 & G1 & W1 & tr1 & T1 & C1).
  assert (Hb : exists e, Voice.smooth_body servo 90 (Fin step) delay 0 s
                         = (Raise e, s1)).
  { destruct (sleep_negative delay s1 Hd) as [e He]. exists e.
    unfold Voice.smooth_body. change (0 + 1) with 1. rewrite Hint.
    unfold lift, bind, ret.
    change (Qtrunc (rnd (rnd (inject_Z 90) + rnd (step * rnd (inject_Z 1)))))
      with (float_interp 90 target N 1).
    rewrite E1. exact He. }
  destruct Hb as [e Hb].
  assert (E : Voice.smooth_move servo target N delay s
              = (Ret tt, snd (print "Smooth move failed" s1))).
  { unfold Voice.smooth_move, get_arduino, get_globals, try_except.
    unfold bind at 1. unfold link_up in Hup. rewrite Hup.
    unfold bind at 1. rewrite Hi. cbn [Voice.servo_rest].
    rewrite VoiceFacts.rest_angle.
    unfold bind at 1. rewrite Ediv. cbn [lift]. unfold ret at 1.
    fold step. rewrite Hseq. cbn [for_each]. unfold bind at 1.
    rewrite Hb. reflexivity. }
  assert (Tr : trace (snd (Voice.smooth_move servo target N delay s))
               = trace s ++ (SendCall servo (float_interp 90 target N 1) :: tr1)
                   ++ [Printed "Smooth move failed"]).
  { rewrite E. cbn. rewrite T1, <- app_assoc. reflexivity. }
  rewrite (emitted_app _ s _ Tr).
  split; [rewrite E; reflexivity |]. split.
  - change (SendCall servo (float_interp 90 target N 1) :: tr1)
      with ([SendCall servo (float_interp 90 target N 1)] ++ tr1).
    rewrite !send_calls_app, C1. reflexivity.
  - rewrite last_snoc. reflexivity.
Qed.

Lemma smooth_move_negative_delay_witness :
  fst (Voice.smooth_move "head" 45 5 (-20) voice_ready) = Ret tt
  /\ send_calls (emitted (Voice.smooth_move "head" 45 5 (-20)) voice_ready)
     = [("head"%string, float_interp 90 45 5 1)]
  /\ last (emitted (Voice.smooth_move "head" 45 5 (-20)) voice_ready)
     = Some (Printed "Smooth move failed").
Proof.
  apply (smooth_move_negative_delay "head" 45 5 (-20) voice_ready).
  - vm_compute. reflexivity.
  - vm_compute. reflexivity.
  - split; [lia | vm_compute; discriminate].
  - vm_compute. discriminate.
  - lia.
Defined.

(** ** The gestures of the voice program *)
Module GestureFacts.

Lemma commands_ret : commands (ret tt) [].
Proof.
  intros s Hup Hi. exists s. repeat split; try assumption.
  exists (@nil event). rewrite app_nil_r. split; reflexivity.
Qed.

Lemma commands_sleep (ms : Z) :
  0 <= ms <= SLEEP_SAFE -> commands (sleep ms) [].
Proof.
  intros Hms s Hup Hi. rewrite (sleep_short ms Hms).
  eexists. split; [reflexivity |]. repeat split; try assumption.
  exists [Slept ms]. split; reflexivity.
Qed.

Lemma commands_seq (m k : M Voice.tables unit) (a b : list (string * Z)) :
  commands m a -> commands k b -> commands (m ;;; k) (a ++ b).
Proof.
  intros Hm Hk s Hup Hi.
  destruct (Hm s Hup Hi) as (s1 & E1 & Up1 & I1 & tr1 & T1 & C1).
  destruct (Hk s1 Up1 I1) as (s2 & E2 & Up2 & I2 & tr2 & T2 & C2).
  exists s2. unfold bind. rewrite E1. split; [exact E2 |].
  repeat split; try assumption.
  exists (tr1 ++ tr2). rewrite T2, T1, <- app_assoc, send_calls_app, C1, C2.
  split; reflexivity.
Qed.

Lemma commands_repeat (n : nat) (body : M Voice.tables unit)
    (a : list (string * Z)) :
  commands body a ->
  commands (Voice.repeat_times (Z.of_nat n) body) (concat (replicate n a)).
Proof.
  intros Hb. unfold Voice.repeat_times, seqZ. rewrite Nat2Z.id.
  generalize 0%nat as from.
  induction n as [| n IH]; intros from; cbn.
  - apply commands_ret.
  - apply commands_seq; [exact Hb | apply IH].
Qed.

Lemma commands_smooth_move (servo : string) (target N delay : Z) :
  1 <= N <= 2 ^ 500 -> Z.abs (target - 90) <= 2 ^ 500 ->
  0 <= delay <= SLEEP_SAFE ->
  commands (Voice.smooth_move servo target N delay) (ramp servo target N).
Proof.
  intros HN Ht Hd s Hup Hi.
  destruct (VoiceFacts.smooth_move_in_range servo target N delay s Hup Hi HN Ht Hd)
    as (s' & E & Up' & G' & W' & tr & T & C).
  exists s'. split; [exact E |]. split; [exact Up' |].
  split; [unfold Voice.intact in *; congruence |].
  exists tr. split; [exact T | exact C].
Qed.

Ltac small := first [lia | split; [lia | vm_compute; discriminate]
                    | vm_compute; discriminate].

Ltac commands_step :=
  match goal with
  | |- commands (_ ;;; _) _ => apply commands_seq
  | |- commands (Voice.smooth_move _ _ _ _) _ =>
      apply commands_smooth_move; small
  | |- commands (sleep _) _ => apply commands_sleep; small
  | |- commands (Voice.repeat_times 2 _) _ => apply (commands_repeat 2)
  | |- commands (Voice.repeat_times 3 _) _ => apply (commands_repeat 3)
  end.

Lemma commands_eq (m : M Voice.tables unit) (a b : list (string * Z)) :
  commands m a -> a = b -> commands m b.
Proof. intros H <-. exact H. Qed.

Lemma commands_rest : commands Voice.gesture_rest rest_calls.
Proof.
  eapply commands_eq.
  - unfold Voice.gesture_rest, Voice.default_steps, Voice.default_delay.
    repeat commands_step.
  - unfold rest_calls. cbn [app]. reflexivity.
Qed.

Ltac gesture_commands :=
  eapply commands_eq;
  [ unfold Voice.gesture_wave, Voice.gesture_nod, Voice.gesture_shake,
      Voice.mood_happy, Voice.mood_sad, Voice.mood_excited, Voice.mood_curious,
      Voice.default_steps, Voice.default_delay;
    repeat first [apply commands_rest | commands_step]
  | vm_compute; reflexivity ].

Lemma commands_repertoire (f : M Voice.tables unit) (calls : list (string * Z)) :
  (f, calls) ∈ voice_repertoire -> commands f calls.
Proof.
  intros H. unfold voice_repertoire in H.
  repeat (apply elem_of_cons in H; destruct H as [H | H];
          [injection H as -> ->; gesture_commands |]).
  apply elem_of_nil in H. contradiction.
Qed.

Lemma repertoire_rests (f : M Voice.tables unit) (calls : list (string * Z))
    (servo : string) :
  (f, calls) ∈ voice_repertoire -> servo ∈ calls.*1 ->
  last_angle servo calls = Some 90.
Proof.
  intros H Hs. unfold voice_repertoire in H.
  repeat (apply elem_of_cons in H; destruct H as [H | H];
          [injection H as -> ->; vm_compute in Hs;
           repeat (apply elem_of_cons in Hs; destruct Hs as [-> | Hs];
                   [vm_compute; reflexivity |]);
           apply elem_of_nil in Hs; contradiction |]).
  apply elem_of_nil in H. contradiction.
Qed.

Lemma perform_dispatch (name : string) :
  match Voice.gestures !! name with
  | Some f => exists calls, gesture_calls !! name = Some calls
                            /\ (f, calls) ∈ voice_repertoire
  | None => gesture_calls !! name = None
  end.
Proof.
  unfold Voice.gestures, gesture_calls. cbn [list_to_map foldr fst snd uncurry].
  rewrite !lookup_insert.
  repeat (case_decide; [eexists; split; [reflexivity | set_solver] |]).
  rewrite !lookup_empty. reflexivity.
Qed.

Lemma mood_dispatch (name : string) :
  match Voice.mood_gestures !! name with
  | Some f => exists calls, mood_calls !! name = Some calls
                            /\ (f, calls) ∈ voice_repertoire
  | None => mood_calls !! name = None
  end.
Proof.
  unfold Voice.mood_gestures, mood_calls. cbn [list_to_map foldr fst snd uncurry].
  rewrite !lookup_insert.
  repeat (case_decide; [eexists; split; [reflexivity | set_solver] |]).
  rewrite !lookup_empty. reflexivity.
Qed.

End GestureFacts.

(** X9: on an open link each gesture and mood of the voice program returns
    after calling send with a fixed sequence of angles, the concatenated
    ramps of its smooth moves, whatever the device answers and whether or not
    the writes go through; an unknown name commands nothing; and in each of
    these sequences every servo commanded is last sent to 90. *)
Theorem voice_gestures_command_fixed_angles (name mood : string)
    (s : state Voice.tables) :
  link_up s ->
  Voice.intact s ->
  (fst (Voice.perform_gesture name s) = Ret tt
   /\ send_calls (emitted (Voice.perform_gesture name) s)
      = default [] (gesture_calls !! name))
  /\ (fst (Voice.perform_mood_gesture mood s) = Ret tt
      /\ send_calls (emitted (Voice.perform_mood_gesture mood) s)
         = default [] (mood_calls !! mood))
  /\ (forall servo,
        (servo ∈ (default [] (gesture_calls !! name)).*1 ->
         last_angle servo (default [] (gesture_calls !! name)) = Some 90)
        /\ (servo ∈ (default [] (mood_calls !! mood)).*1 ->
            last_angle servo (default [] (mood_calls !! mood)) = Some 90)).
Proof.
  intros Hup Hi.
  pose proof (GestureFacts.perform_dispatch name) as Hg.
  pose proof (GestureFacts.mood_dispatch mood) as Hm.
  assert (Hrun : forall f calls, (f, calls) ∈ voice_repertoire ->
                   fst (f s) = Ret tt /\ send_calls (emitted f s) = calls).
  { intros f calls Hin.
    destruct (GestureFacts.commands_repertoire f calls Hin s Hup Hi)
      as (s' & E & _ & _ & tr & T & C).
    rewrite (emitted_app f s tr) by (rewrite E; exact T).
    rewrite E. split; [reflexivity | exact C]. }
  assert (Hnone : fst (ret tt s : outcome unit * state Voice.tables) = Ret tt
                  /\ send_calls (emitted (ret tt) s) = []).
  { split; [reflexivity |]. rewrite emitted_nothing; reflexivity. }
  split; [| split].
  - unfold Voice.perform_gesture.
    destruct (Voice.gestures !! name) as [f |].
    + destruct Hg as (calls & -> & Hin). apply Hrun, Hin.
    + rewrite Hg. exact Hnone.
  - unfold Voice.perform_mood_gesture.
    destruct (Voice.mood_gestures !! mood) as [f |].
    + destruct Hm as (calls & -> & Hin). apply Hrun, Hin.
    + rewrite Hm. exact Hnone.
  - intros servo. split; intros Hs.
    + destruct (Voice.gestures !! name) as [f |].
      * destruct Hg as (calls & Hc & Hin). rewrite Hc in *.
        apply (GestureFacts.repertoire_rests f calls servo Hin Hs).
      * rewrite Hg in Hs. cbn in Hs. apply elem_of_nil in Hs. contradiction.
    + destruct (Voice.mood_gestures !! mood) as [f |].
      * destruct Hm as (calls & Hc & Hin). rewrite Hc in *.
        apply (GestureFacts.repertoire_rests f calls servo Hin Hs).
      * rewrite Hm in Hs. cbn in Hs. apply elem_of_nil in Hs. contradiction.
Qed.

Lemma voice_gestures_command_fixed_angles_witness :
  send_calls (emitted (Voice.perform_gesture "nod") voice_ready)
  = [("head", 93); ("head", 96); ("head", 99); ("head", 102); ("head", 105);
     ("head", 87); ("head", 84); ("head", 81); ("head", 78); ("head", 75);
     ("head", 93); ("head", 96); ("head", 99); ("head", 102); ("head", 105);
     ("head", 87); ("head", 84); ("head", 81); ("head", 78); ("head", 75);
     ("head", 90); ("head", 90); ("head", 90); ("head", 90); ("head", 90);
     ("head", 90); ("head", 90); ("head", 90); ("head", 90); ("head", 90)]%string.
Proof.
  refine (eq_trans (proj2 (proj1
    (voice_gestures_command_fixed_angles "nod" "happy" voice_ready _ _))) _);
    vm_compute; reflexivity.
Defined.

(** X10: [execute_gesture] turns the model's verdict into motion: on an open
    link ["yes"] commands the angles of the nod, ["no"] those of the head
    shake, and anything else, the empty string and ["neutral"] included,
    commands nothing. *)
Theorem execute_gesture_commands (gesture : string) (s : state Voice.tables) :
  link_up s ->
  Voice.intact s ->
  fst (Voice.execute_gesture gesture s) = Ret tt
  /\ send_calls (emitted (Voice.execute_gesture gesture) s)
     = (if String.eqb gesture "yes" then nod_calls
        else if String.eqb gesture "no" then shake_calls
        else []).
Proof.
  intros Hup Hi.
  assert (Hp : forall msg, commands (print msg) []).
  { intros msg s0 Hup0 Hi0. eexists. split; [reflexivity |].
    repeat split; try assumption. exists [Printed msg]. split; reflexivity. }
  assert (Hc : commands (Voice.execute_gesture gesture)
                 (if String.eqb gesture "yes" then nod_calls
                  else if String.eqb gesture "no" then shake_calls
                  else [])).
  { unfold Voice.execute_gesture.
    destruct (String.eqb_spec gesture "") as [-> | _];
      [apply GestureFacts.commands_ret |].
    destruct (String.eqb_spec gesture "neutral") as [-> | _];
      [apply GestureFacts.commands_ret |].
    cbn [orb].
    assert (Hnod : commands Voice.gesture_nod nod_calls)
      by (apply GestureFacts.commands_repertoire; set_solver).
    assert (Hshake : commands Voice.gesture_shake shake_calls)
      by (apply GestureFacts.commands_repertoire; set_solver).
    destruct (String.eqb gesture "yes");
      [| destruct (String.eqb gesture "no")].
    - eapply GestureFacts.commands_eq.
      + eapply GestureFacts.commands_seq; [apply Hp |].
        eapply GestureFacts.commands_seq; [exact Hnod | apply Hp].
      + cbn [app]. apply app_nil_r.
    - eapply GestureFacts.commands_eq.
      + eapply GestureFacts.commands_seq; [apply Hp |].
        eapply GestureFacts.commands_seq; [exact Hshake | apply Hp].
      + cbn [app]. apply app_nil_r.
    - eapply GestureFacts.commands_eq.
      + eapply GestureFacts.commands_seq; [apply Hp |].
        eapply GestureFacts.commands_seq;
          [apply GestureFacts.commands_ret | apply Hp].
      + reflexivity. }
  destruct (Hc s Hup Hi) as (s' & E & _ & _ & tr & T & C).
  rewrite (emitted_app _ s tr) by (rewrite E; exact T).
  rewrite E. split; [reflexivity | exact C].
Qed.

Lemma execute_gesture_commands_witness :
  send_calls (emitted (Voice.execute_gesture "neutral") voice_ready) = [].
Proof.
  refine (proj2 (execute_gesture_commands "neutral" voice_ready _ _));
    vm_compute; reflexivity.
Defined.

(** ** The accuracy of the interpolation *)
Module PyFloatError.
Local Open Scope Q_scope.

Lemma binade_abs_lt (q : Q) (k : Z) :
  ~ q == 0 -> Qabs q < 2 ^ k -> (binade (Qabs q) < k)%Z.
Proof.
  intros Hq Hk.
  assert (Hpos : 0 < Qabs q).
  { destruct (Qlt_le_dec 0 (Qabs q)) as [H | H]; [exact H |].
    exfalso. apply Hq. pose proof (Qabs_nonneg q).
    assert (E : Qabs q == 0) by lra.
    destruct (Qlt_le_dec q 0) as [Hn | Hn].
    - rewrite Qabs_neg in E by lra. lra.
    - rewrite Qabs_pos in E by lra. exact E. }
  destruct (binade_spec (Qabs q) Hpos) as [Lo _].
  apply pow2_lt_inv. lra.
Qed.

(** The rounded value lies within half a unit in the last place. *)
Lemma rnd_error (q : Q) :
  ~ q == 0 -> Qabs (rnd q - q) <= 2 ^ (ulp_exp q - 1).
Proof.
  intros Hq. rewrite (rnd_nonzero q Hq).
  set (c := ulp_exp q). pose proof (pow2_pos c) as Pc.
  assert (Hhalf : 2 ^ (c - 1) == 2 ^ c * (1 # 2)).
  { replace (c - 1)%Z with (c + -1)%Z by lia. rewrite pow2_add.
    change (2 ^ (-1)) with (1 # 2). reflexivity. }
  assert (Hdiv : q / 2 ^ c * 2 ^ c == q) by (field; lra).
  pose proof (round_half_even_spec (q / 2 ^ c)) as S. cbv zeta in S.
  set (R := inject_Z (round_half_even (q / 2 ^ c))) in *.
  apply Qabs_Qle_condition. rewrite Hhalf.
  assert (Hb : q / 2 ^ c - (1 # 2) <= R /\ R <= q / 2 ^ c + (1 # 2)).
  { destruct S as [[S1 S2] | [[S | S] _]]; lra. }
  destruct Hb as [B1 B2].
  split; nra.
Qed.

Lemma rnd_error_abs (q : Q) (k : Z) :
  Qabs q < 2 ^ k -> (-1021 <= k)%Z -> Qabs (rnd q - q) <= 2 ^ (k - 54).
Proof.
  intros Hk Hk0. destruct (Qeq_dec q 0) as [Z0 | NZ].
  - rewrite (rnd_zero q Z0).
    assert (E : 0 - q == 0) by lra. rewrite E.
    apply Qlt_le_weak, pow2_pos.
  - eapply Qle_trans; [apply rnd_error, NZ |]. apply pow2_le.
    pose proof (binade_abs_lt q k NZ Hk). unfold ulp_exp. lia.
Qed.

Lemma rnd_error_rel (q : Q) :
  2 ^ (-1022) <= Qabs q -> Qabs (rnd q - q) <= Qabs q * 2 ^ (-53).
Proof.
  intros Hn.
  assert (NZ : ~ q == 0).
  { intros E. rewrite E in Hn. revert Hn. vm_compute. intros H. apply H. reflexivity. }
  assert (Hpos : 0 < Qabs q) by (pose proof (pow2_pos (-1022)); lra).
  destruct (binade_spec (Qabs q) Hpos) as [Lo Hi].
  assert (Hb : (-1022 <= binade (Qabs q))%Z).
  { assert (H : 2 ^ (-1022) < 2 ^ (binade (Qabs q) + 1)) by lra.
    apply pow2_lt_inv in H. lia. }
  eapply Qle_trans; [apply rnd_error, NZ |].
  unfold ulp_exp. rewrite Z.max_l by lia.
  replace (binade (Qabs q) - 52 - 1)%Z with (binade (Qabs q) + -53)%Z by lia.
  rewrite pow2_add. pose proof (pow2_pos (-53)). nra.
Qed.

(** Integers below [2^53] are floats. *)
Lemma rnd_small_int (z : Z) :
  (Z.abs z < 2 ^ 53)%Z -> rnd (inject_Z z) == inject_Z z.
Proof.
  intros Hz. destruct (Z.eq_dec z 0%Z) as [-> | NZ]; [reflexivity |].
  assert (Hq : ~ inject_Z z == 0).
  { intros E. apply (inject_Z_injective z 0%Z) in E. contradiction. }
  rewrite (rnd_nonzero _ Hq). set (c := ulp_exp (inject_Z z)).
  assert (Hc : (c <= 0)%Z).
  { unfold c, ulp_exp.
    assert (Hlt : Qabs (inject_Z z) < 2 ^ 53).
    { rewrite <- (pow2_Z 53) by lia.
      change (Qabs (inject_Z z)) with (inject_Z (Z.abs z)).
      rewrite <- Zlt_Qlt. exact Hz. }
    pose proof (binade_abs_lt _ 53 Hq Hlt). lia. }
  pose proof (pow2_pos c) as Pc. pose proof (pow2_pos (- c)) as Pn.
  assert (Hone : 2 ^ c * 2 ^ (- c) == 1).
  { rewrite <- pow2_add. replace (c + - c)%Z with 0%Z by lia. reflexivity. }
  assert (Hs : inject_Z z / 2 ^ c == inject_Z (z * 2 ^ (- c))).
  { rewrite inject_Z_mult, pow2_Z by lia.
    apply (Qmult_inj_r _ _ (2 ^ c)); [lra |].
    assert (E : inject_Z z / 2 ^ c * 2 ^ c == inject_Z z) by (field; lra).
    rewrite E, <- Qmult_assoc, (Qmult_comm (2 ^ (- c))), Hone. ring. }
  assert (R : round_half_even (inject_Z z / 2 ^ c) = (z * 2 ^ (- c))%Z).
  { rewrite <- (round_half_even_Z (z * 2 ^ (- c))).
    apply Z.le_antisymm; apply round_half_even_le; lra. }
  rewrite R, inject_Z_mult, pow2_Z by lia.
  rewrite <- Qmult_assoc, (Qmult_comm (2 ^ (- c))), Hone. ring.
Qed.

Lemma Qtrunc_Z (z : Z) : Qtrunc (inject_Z z) = z.
Proof. unfold Qtrunc. cbn. apply Z.quot_1_r. Qed.

Lemma Qtrunc_proper (x y : Q) : x == y -> Qtrunc x = Qtrunc y.
Proof. intros H. apply Z.le_antisymm; apply Qtrunc_le; lra. Qed.

End PyFloatError.

Module InterpFacts.
Import PyFloatError.
Local Open Scope Q_scope.

Lemma float_interp_start (target N : Z) : float_interp 90 target N 0 = 90%Z.
Proof.
  unfold float_interp. cbv zeta.
  set (step := rnd (inject_Z (target - 90) / inject_Z N)).
  assert (E0 : rnd (step * rnd (inject_Z 0)) = 0).
  { apply rnd_zero. rewrite (rnd_zero (inject_Z 0)) by reflexivity. ring. }
  rewrite E0, rnd_90.
  rewrite (rnd_proper (inject_Z 90 + 0) (inject_Z 90)) by ring.
  rewrite rnd_90. reflexivity.
Qed.

Lemma Qabs_inject (z : Z) : Qabs (inject_Z z) = inject_Z (Z.abs z).
Proof. reflexivity. Qed.

(** The value whose truncation is the last angle of a move lies within
    [2^-10] of the target. *)
Lemma endpoint_close (target N : Z) :
  (1 <= N <= 2 ^ 40)%Z -> (Z.abs (target - 90) <= 2 ^ 40)%Z ->
  Qabs (rnd (rnd (inject_Z 90)
             + rnd (rnd (inject_Z (target - 90) / inject_Z N) * rnd (inject_Z N)))
        - inject_Z target) <= 2 ^ (-10).
Proof.
  intros HN Hd.
  set (a := inject_Z (target - 90)). set (n := inject_Z N).
  assert (Hn1 : 1 <= n).
  { unfold n. change 1 with (inject_Z 1). rewrite <- Zle_Qle. lia. }
  assert (Hn2 : n <= 2 ^ 40).
  { unfold n. rewrite <- (pow2_Z 40) by lia. rewrite <- Zle_Qle. lia. }
  assert (Ha : Qabs a <= 2 ^ 40).
  { unfold a. apply inject_Z_abs_le; lia. }
  assert (Hrn : rnd n == n).
  { apply rnd_small_int. assert ((2 ^ 40 < 2 ^ 53)%Z) by reflexivity. lia. }
  assert (Ht : inject_Z target == inject_Z 90 + a).
  { unfold a. rewrite <- inject_Z_plus.
    replace (90 + (target - 90))%Z with target by lia. reflexivity. }
  set (q := a / n). set (s := rnd q).
  assert (Hn0 : ~ n == 0) by lra.
  assert (Hqn : q * n == a) by (unfold q; field; exact Hn0).
  (* the quotient *)
  assert (He1 : Qabs (s * n - a) <= 2 ^ (-13)).
  { destruct (Z.eq_dec (target - 90)%Z 0%Z) as [Z0 | NZ].
    - assert (Hq0 : q == 0) by (unfold q, a; rewrite Z0; reflexivity).
      unfold s. rewrite (rnd_zero q Hq0).
      assert (Ha0 : a == 0) by (unfold a; rewrite Z0; reflexivity).
      assert (E : 0 * n - a == 0) by lra. rewrite E. discriminate.
    - assert (Ha1 : 1 <= Qabs a).
      { unfold a. rewrite Qabs_inject. change 1 with (inject_Z 1).
        rewrite <- Zle_Qle. lia. }
      assert (Hqa : Qabs q * n == Qabs a).
      { rewrite <- Hqn, Qabs_Qmult, (Qabs_pos n) by lra. reflexivity. }
      assert (Hnorm : 2 ^ (-1022) <= Qabs q).
      { apply Qle_trans with (2 ^ (-40)); [apply pow2_le; lia |].
        assert (P : 2 ^ (-40) * 2 ^ 40 == 1) by reflexivity.
        pose proof (Qabs_nonneg q). nra. }
      pose proof (rnd_error_rel q Hnorm) as Hrel. fold s in Hrel.
      assert (E : s * n - a == (s - q) * n) by (rewrite <- Hqn; ring).
      rewrite E, Qabs_Qmult, (Qabs_pos n) by lra.
      assert (P : 2 ^ 40 * 2 ^ (-53) == 2 ^ (-13)) by reflexivity.
      pose proof (Qabs_nonneg (s - q)). pose proof (Qabs_nonneg q).
      assert (U : 0 < 2 ^ (-53)) by reflexivity.
      nra. }
  (* the product *)
  set (y := s * rnd n).
  assert (Hy : y == s * n) by (unfold y; rewrite Hrn; reflexivity).
  assert (Hyb : Qabs y < 2 ^ 42).
  { apply Qabs_Qle_condition in He1. apply Qabs_Qle_condition in Ha.
    apply Qabs_Qlt_condition.
    assert (P1 : 2 ^ (-13) < 1) by reflexivity.
    assert (P2 : 2 ^ 40 + 1 < 2 ^ 42) by reflexivity. lra. }
  pose proof (rnd_error_abs y 42 Hyb ltac:(lia)) as He2.
  change (2 ^ (42 - 54)) with (2 ^ (-12)) in He2.
  set (p := rnd y) in *.
  (* the sum *)
  rewrite rnd_90.
  set (z := inject_Z 90 + p).
  assert (Hzb : Qabs z < 2 ^ 42).
  { apply Qabs_Qle_condition in He1. apply Qabs_Qle_condition in He2.
    apply Qabs_Qle_condition in Ha. apply Qabs_Qlt_condition. unfold z.
    assert (P1 : 2 ^ (-13) < 1) by reflexivity.
    assert (P2 : 2 ^ (-12) < 1) by reflexivity.
    assert (P3 : inject_Z 90 + 2 ^ 40 + 2 < 2 ^ 42) by reflexivity.
    assert (P4 : 0 <= inject_Z 90) by discriminate. lra. }
  pose proof (rnd_error_abs z 42 Hzb ltac:(lia)) as He3.
  change (2 ^ (42 - 54)) with (2 ^ (-12)) in He3.
  apply Qabs_Qle_condition in He1. apply Qabs_Qle_condition in He2.
  apply Qabs_Qle_condition in He3. apply Qabs_Qle_condition.
  assert (P : 2 ^ (-12) + 2 ^ (-12) + 2 ^ (-13) <= 2 ^ (-10)) by discriminate.
  unfold z in *. lra.
Qed.

End InterpFacts.

Module TruncFacts.
Import PyFloatError InterpFacts.

Lemma Qtrunc_half_up (t : Z) (x : Q) :
  (0 <= t)%Z -> (x <= inject_Z t + (1 # 2))%Q -> (Qtrunc x <= t)%Z.
Proof.
  intros Ht Hx. apply Z.le_trans with (Qtrunc (inject_Z t + (1 # 2))).
  - apply Qtrunc_le, Hx.
  - unfold Qtrunc, inject_Z, Qplus. cbn.
    change (Z.pos (1 * 2)) with 2%Z.
    pose proof (Z.quot_rem' (t * 2 + 1 * 1) 2) as Hq.
    pose proof (Z.rem_bound_pos (t * 2 + 1 * 1) 2 ltac:(lia) ltac:(lia)). lia.
Qed.

Lemma Qtrunc_half_down (t : Z) (x : Q) :
  (inject_Z t - (1 # 2) <= x)%Q ->
  (t - 1 <= Qtrunc x)%Z /\ ((t <= 0)%Z -> (t <= Qtrunc x)%Z).
Proof.
  intros Hx.
  assert (H : (Qtrunc (inject_Z t - (1 # 2)) <= Qtrunc x)%Z)
    by (apply Qtrunc_le, Hx).
  assert (E : Qtrunc (inject_Z t - (1 # 2)) = ((t * 2 - 1) ÷ 2)%Z).
  { unfold Qtrunc, inject_Z, Qminus, Qplus, Qopp. cbn. reflexivity. }
  rewrite E in H. clear E.
  pose proof (Z.quot_rem' (t * 2 - 1) 2) as Hq.
  destruct (Z_le_gt_dec 1 t) as [Hpos | Hneg].
  - pose proof (Z.rem_bound_pos (t * 2 - 1) 2 ltac:(lia) ltac:(lia)). lia.
  - pose proof (Z.rem_nonpos (t * 2 - 1) 2 ltac:(lia) ltac:(lia)). lia.
Qed.

End TruncFacts.

Lemma float_interp_exact (target N i : Z) :
  1 <= N <= 2 ^ 52 ->
  Z.abs (target - 90) <= 2 ^ 52 ->
  (N | target - 90) ->
  0 <= i <= N ->
  float_interp 90 target N i = 90 + i * ((target - 90) / N)
  /\ float_interp 90 target N N = target.
Proof.
  intros HN Hd [k Hk] Hi.
  assert (Hdiv : (target - 90) / N = k) by (rewrite Hk; apply Z.div_mul; lia).
  assert (Hgen : forall j, 0 <= j <= N -> float_interp 90 target N j = 90 + j * k).
  { intros j Hj. unfold float_interp. cbv zeta.
    assert (P53 : 2 ^ 52 + 90 < 2 ^ 53) by reflexivity.
    assert (Hkj : Z.abs (k * j) <= 2 ^ 52) by nia.
    assert (Hkb : Z.abs k <= 2 ^ 52) by nia.
    assert (Hq : (inject_Z (target - 90) / inject_Z N == inject_Z k)%Q).
    { rewrite Hk, inject_Z_mult. field.
      intros E. apply (inject_Z_injective N 0) in E. lia. }
    rewrite (rnd_proper _ _ Hq).
    assert (Hp : (rnd (inject_Z k) * rnd (inject_Z j) == inject_Z (k * j))%Q).
    { rewrite !PyFloatError.rnd_small_int by lia.
      rewrite inject_Z_mult. reflexivity. }
    rewrite (rnd_proper _ _ Hp).
    assert (Hs : (rnd (inject_Z 90) + rnd (inject_Z (k * j))
                  == inject_Z (90 + k * j))%Q).
    { rewrite !PyFloatError.rnd_small_int by lia.
      rewrite inject_Z_plus. reflexivity. }
    rewrite (rnd_proper _ _ Hs).
    rewrite (PyFloatError.Qtrunc_proper _ (inject_Z (90 + k * j)))
      by (apply PyFloatError.rnd_small_int; lia).
    rewrite PyFloatError.Qtrunc_Z. lia. }
  rewrite Hdiv. split; [apply Hgen, Hi |].
  rewrite Hgen by lia. lia.
Qed.


Lemma float_interp_last (target N : Z) :
  1 <= N <= 2 ^ 40 ->
  Z.abs (target - 90) <= 2 ^ 40 ->
  let last := float_interp 90 target N N in
  (0 <= target -> target - 1 <= last <= target)
  /\ (target <= 0 -> target <= last <= target + 1)
  /\ float_interp 90 250 77 77 = 249
  /\ float_interp 90 1 11 11 = 0.
Proof.
  intros HN Hd last.
  pose proof (InterpFacts.endpoint_close target N HN Hd) as Hc.
  apply Qabs_Qle_condition in Hc. destruct Hc as [Lo Hi].
  assert (P : (2 ^ (-10) <= 1 # 2)%Q) by discriminate.
  set (x := rnd (rnd (inject_Z 90)
                 + rnd (rnd (inject_Z (target - 90) / inject_Z N)
                        * rnd (inject_Z N)))) in *.
  change last with (Qtrunc x).
  destruct (TruncFacts.Qtrunc_half_down target x ltac:(lra)) as [D1 D2].
  split; [| split; [| split]].
  - intros Ht. split; [exact D1 |].
    apply TruncFacts.Qtrunc_half_up; [exact Ht | lra].
  - intros Ht. split; [apply D2, Ht |].
    rewrite <- (PyFloatError.Qtrunc_Z (target + 1)). apply Qtrunc_le.
    rewrite inject_Z_plus. change (inject_Z 1) with 1%Q. lra.
  - vm_compute. reflexivity.
  - vm_compute. reflexivity.
Qed.


Lemma float_interp_range (target N i : Z) :
  1 <= N <= 2 ^ 40 ->
  1 <= i <= N ->
  Z.abs (target - 90) <= 2 ^ 40 ->
  let angle := float_interp 90 target N i in
  (90 <= target -> 90 <= angle <= target)
  /\ (0 <= target <= 90 -> Z.max 0 (target - 1) <= angle <= 90)
  /\ (target <= 0 -> target <= angle <= 90)
  /\ (0 <= target <= 180 -> 0 <= angle <= 180).
Proof.
  intros HN Hi Hd angle.
  destruct (float_interp_last target N HN Hd) as (E1 & E2 & _).
  cbv zeta in E1, E2.
  pose proof (InterpFacts.float_interp_start target N) as H0.
  assert (Hup : 90 <= target -> 90 <= angle <= target).
  { intros Hdir. unfold angle. split.
    - apply Z.le_trans with (float_interp 90 target N 0); [lia |].
      apply float_interp_up; lia.
    - apply Z.le_trans with (float_interp 90 target N N); [| lia].
      apply float_interp_up; lia. }
  assert (Htop : target <= 90 -> angle <= 90).
  { intros Hdir. unfold angle.
    apply Z.le_trans with (float_interp 90 target N 0); [| lia].
    apply float_interp_down; lia. }
  assert (Hlast : target <= 90 -> float_interp 90 target N N <= angle).
  { intros Hdir. unfold angle. apply float_interp_down; lia. }
  assert (Hmid : 0 <= target <= 90 -> Z.max 0 (target - 1) <= angle <= 90).
  { intros Hdir. split; [| apply Htop; lia].
    specialize (E1 ltac:(lia)). specialize (Hlast ltac:(lia)).
    destruct (Z.eq_dec target 0) as [Z0 | NZ]; [| lia].
    specialize (E2 ltac:(lia)). lia. }
  split; [exact Hup |]. split; [exact Hmid |]. split.
  - intros Hdir. split; [| apply Htop; lia].
    specialize (E2 Hdir). specialize (Hlast ltac:(lia)). lia.
  - intros H180. destruct (Z_le_gt_dec 90 target).
    + specialize (Hup ltac:(lia)). lia.
    + specialize (Hmid ltac:(lia)). lia.
Qed.

Lemma calls_of_move (servo : string) (target N delay : Z) (s : state Voice.tables) :
  link_up s -> Voice.intact s ->
  1 <= N <= 2 ^ 40 -> Z.abs (target - 90) <= 2 ^ 40 ->
  0 <= delay <= SLEEP_SAFE ->
  send_calls (emitted (Voice.smooth_move servo target N delay) s)
  = ramp servo target N.
Proof.
  intros Hup Hi HN Ht Hd.
  assert (P : 2 ^ 40 <= 2 ^ 500) by (vm_compute; discriminate).
  destruct (VoiceFacts.smooth_move_in_range servo target N delay s Hup Hi
              ltac:(lia) ltac:(lia) Hd)
    as (s' & E & _ & _ & _ & tr & T & C).
  rewrite (emitted_app _ s tr) by (rewrite E; exact T). exact C.
Qed.

Lemma ramp_last (servo : string) (target N : Z) :
  1 <= N ->
  last (ramp servo target N) = Some (servo, float_interp 90 target N N).
Proof.
  intros HN. unfold ramp.
  replace N with (Z.of_nat (S (Z.to_nat (N - 1)))) at 1 by lia.
  rewrite seqZ_S, map_app. cbn [map]. rewrite last_snoc.
  replace (1 + Z.of_nat (Z.to_nat (N - 1))) with N by lia. reflexivity.
Qed.

(** X11: when the step count divides the distance to the target (both at most
    [2^40]) and the delay is one [time.sleep] takes everywhere (from 0 to
    [SLEEP_SAFE], [2^31] ms), the float arithmetic of [smooth_move] is
    exact: on an open link the [i]-th send commands
    [90 + i * ((target - 90) / N)], and the last one the target itself. *)
Theorem smooth_move_exact_steps (servo : string) (target N delay : Z)
    (s : state Voice.tables) :
  link_up s -> Voice.intact s ->
  1 <= N <= 2 ^ 40 -> Z.abs (target - 90) <= 2 ^ 40 ->
  0 <= delay <= SLEEP_SAFE ->
  (N | target - 90) ->
  send_calls (emitted (Voice.smooth_move servo target N delay) s)
  = map (fun i => (servo, 90 + i * ((target - 90) / N))) (seqZ 1 N)
  /\ last (send_calls (emitted (Voice.smooth_move servo target N delay) s))
     = Some (servo, target).
Proof.
  intros Hup Hi HN Ht Hd Hdiv.
  rewrite (calls_of_move servo target N delay s Hup Hi HN Ht Hd).
  assert (P : 2 ^ 40 <= 2 ^ 52) by (vm_compute; discriminate).
  assert (E : ramp servo target N
              = map (fun i => (servo, 90 + i * ((target - 90) / N))) (seqZ 1 N)).
  { unfold ramp. apply map_ext_in. intros i Hin.
    apply list_elem_of_In, elem_of_seqZ in Hin. f_equal.
    apply (proj1 (float_interp_exact target N i ltac:(lia) ltac:(lia) Hdiv ltac:(lia))). }
  split; [exact E |].
  rewrite ramp_last by lia. f_equal. f_equal.
  apply (proj2 (float_interp_exact target N N ltac:(lia) ltac:(lia) Hdiv ltac:(lia))).
Qed.

Lemma smooth_move_exact_steps_witness :
  last (send_calls (emitted (Voice.smooth_move "head" 105 5 20) voice_ready))
  = Some ("head"%string, 105).
Proof.
  refine (proj2 (smooth_move_exact_steps "head" 105 5 20 voice_ready _ _ _ _ _ _)).
  - vm_compute. reflexivity.
  - vm_compute. reflexivity.
  - split; [lia | vm_compute; discriminate].
  - vm_compute. discriminate.
  - split; [lia | vm_compute; discriminate].
  - exists 3. reflexivity.
Defined.

(** X12: on an open link, with a delay from 0 to [SLEEP_SAFE] ([2^31] ms),
    the last angle [smooth_move] commands is its target or one degree on
    the side of zero: for step counts and distances up to [2^40], a target
    [>= 0] ends at [target] or [target - 1], a target [<= 0] at [target] or
    [target + 1].  Both misses occur: from the state after the handshake,
    77 steps to 250 end at 249 and 11 steps to 1 end at 0. *)
Theorem smooth_move_ends_near_target (servo : string) (target N delay : Z)
    (s : state Voice.tables) :
  link_up s -> Voice.intact s ->
  1 <= N <= 2 ^ 40 -> Z.abs (target - 90) <= 2 ^ 40 ->
  0 <= delay <= SLEEP_SAFE ->
  (exists final,
     last (send_calls (emitted (Voice.smooth_move servo target N delay) s))
     = Some (servo, final)
     /\ (0 <= target -> target - 1 <= final <= target)
     /\ (target <= 0 -> target <= final <= target + 1))
  /\ last (send_calls (emitted (Voice.smooth_move "head" 250 77 20) voice_ready))
     = Some ("head"%string, 249)
  /\ last (send_calls (emitted (Voice.smooth_move "head" 1 11 20) voice_ready))
     = Some ("head"%string, 0).
Proof.
  intros Hup Hi HN Ht Hd. split; [| split; vm_compute; reflexivity].
  rewrite (calls_of_move servo target N delay s Hup Hi HN Ht Hd).
  exists (float_interp 90 target N N). split.
  - apply ramp_last. lia.
  - destruct (float_interp_last target N HN Ht) as (A & B & _).
    split; assumption.
Qed.

Lemma smooth_move_ends_near_target_witness :
  exists final,
    last (send_calls (emitted (Voice.smooth_move "left_arm" 170 3 20) voice_ready))
    = Some ("left_arm"%string, final)
    /\ (0 <= 170 -> 170 - 1 <= final <= 170)
    /\ (170 <= 0 -> 170 <= final <= 170 + 1).
Proof.
  refine (proj1 (smooth_move_ends_near_target "left_arm" 170 3 20 voice_ready
                   _ _ _ _ _)).
  - vm_compute. reflexivity.
  - vm_compute. reflexivity.
  - split; [lia | vm_compute; discriminate].
  - vm_compute. discriminate.
  - split; [lia | vm_compute; discriminate].
Defined.

(** X13: for step counts and distances up to [2^40] and a delay from 0 to
    [SLEEP_SAFE] ([2^31] ms), every angle [smooth_move] commands on an open
    link lies between the rest angle and the target, but for the one degree
    the truncation toward zero can take off a positive target: the angles
    are in [90, target] for a target [>= 90], in [max 0 (target - 1), 90]
    for a target from 0 to 90, and in [target, 90] for a target [<= 0].  A
    target within 0..180 is therefore approached through angles within
    0..180 only. *)
Theorem smooth_move_stays_in_range (servo : string) (target N delay : Z)
    (s : state Voice.tables) :
  link_up s -> Voice.intact s ->
  1 <= N <= 2 ^ 40 -> Z.abs (target - 90) <= 2 ^ 40 ->
  0 <= delay <= SLEEP_SAFE ->
  forall name angle,
    (name, angle) ∈ send_calls (emitted (Voice.smooth_move servo target N delay) s) ->
    name = servo
    /\ (90 <= target -> 90 <= angle <= target)
    /\ (0 <= target <= 90 -> Z.max 0 (target - 1) <= angle <= 90)
    /\ (target <= 0 -> target <= angle <= 90)
    /\ (0 <= target <= 180 -> 0 <= angle <= 180).
Proof.
  intros Hup Hi HN Ht Hd name angle Hin.
  rewrite (calls_of_move servo target N delay s Hup Hi HN Ht Hd) in Hin.
  unfold ramp in Hin. apply list_elem_of_fmap in Hin.
  destruct Hin as (i & Heq & Hi'). injection Heq as -> ->.
  apply elem_of_seqZ in Hi'. split; [reflexivity |].
  apply (float_interp_range target N i); [exact HN | lia | exact Ht].
Qed.

Lemma smooth_move_stays_in_range_witness :
  ("head"%string, 77)
    ∈ send_calls (emitted (Voice.smooth_move "head" 0 7 20) voice_ready)
  /\ 0 <= 77 <= 90.
Proof.
  assert (Hin : ("head"%string, 77)
                  ∈ send_calls (emitted (Voice.smooth_move "head" 0 7 20)
                                  voice_ready))
    by (vm_compute; left).
  split; [exact Hin |].
  refine (proj1 (proj2 (proj2 (proj2
    (smooth_move_stays_in_range "head" 0 7 20 voice_ready _ _ _ _ _
       "head" 77 Hin)))) _).
  - vm_compute. reflexivity.
  - vm_compute. reflexivity.
  - split; [lia | vm_compute; discriminate].
  - vm_compute. discriminate.
  - split; [lia | vm_compute; discriminate].
  - lia.
Defined.

(** ** The serial format *)

Module WireFacts.

Lemma uint_no_separator (u : Decimal.uint) :
  has_separator (NilEmpty.string_of_uint u) = false.
Proof. induction u; cbn; auto. Qed.

Lemma py_str_no_separator (z : Z) : has_separator (py_str z) = false.
Proof.
  unfold py_str, NilZero.string_of_int, NilZero.string_of_uint.
  destruct (Z.to_int z) as [u | u]; destruct u; cbn;
    try reflexivity; apply uint_no_separator.
Qed.

Lemma py_str_inj (z z' : Z) : py_str z = py_str z' -> z = z'.
Proof.
  unfold py_str. intros E. apply DecimalZ.to_int_inj.
  assert (N : forall n, Z.to_int n <> Decimal.Pos Decimal.Nil
                        /\ Z.to_int n <> Decimal.Neg Decimal.Nil).
  { intros [| p | p]; cbn; split; try discriminate;
      intros Q; injection Q as Q; apply (DecimalPos.Unsigned.to_uint_nonnil p Q). }
  pose proof (NilZero.isi (Z.to_int z) (proj1 (N z)) (proj2 (N z))) as A.
  pose proof (NilZero.isi (Z.to_int z') (proj1 (N z')) (proj2 (N z'))) as B.
  rewrite E in A. rewrite A in B. injection B as B. exact B.
Qed.

(** Two strings that agree up to their first separator agree on both
    sides of it. *)
Lemma split_at_separator (a a' r r' : string) (c : ascii) :
  is_separator c = true ->
  has_separator a = false -> has_separator a' = false ->
  (a ++ String c r = a' ++ String c r')%string ->
  a = a' /\ r = r'.
Proof.
  intros Hc. revert a'. induction a as [| x a IH]; intros [| x' a'] Ha Ha' E;
    cbn in *.
  - injection E as E. split; [reflexivity | exact E].
  - injection E as E1 E2. subst x'. rewrite Hc in Ha'. discriminate.
  - injection E as E1 E2. subst x. rewrite Hc in Ha. discriminate.
  - injection E as E1 E2. subst x'.
    apply orb_false_iff in Ha as (_ & Ha). apply orb_false_iff in Ha' as (_ & Ha').
    destruct (IH a' Ha Ha' E2) as (-> & ->). split; reflexivity.
Qed.

Lemma append_assoc (a b c : string) :
  ((a ++ b) ++ c = a ++ (b ++ c))%string.
Proof.
  induction a as [| x a IH]; [reflexivity |].
  change (String x ((a ++ b) ++ c) = String x (a ++ (b ++ c)))%string.
  rewrite IH. reflexivity.
Qed.

Lemma command_line_then (pin angle : Z) (t : string) :
  (command_line pin angle ++ t
   = py_str pin ++ String ":" (py_str angle ++ String (ascii_of_nat 10) t))%string.
Proof.
  unfold command_line, LF. rewrite append_assoc.
  change ((":" ++ py_str angle ++ String (ascii_of_nat 10) "") ++ t)%string
    with (String ":" ((py_str angle ++ String (ascii_of_nat 10) "") ++ t))%string.
  rewrite append_assoc. reflexivity.
Qed.

Lemma byte_stream_cons (pin angle : Z) (cmds : list (Z * Z)) :
  byte_stream ((pin, angle) :: cmds)
  = (py_str pin ++ String ":" (py_str angle ++ String (ascii_of_nat 10)
                                 (byte_stream cmds)))%string.
Proof.
  rewrite <- command_line_then.
  unfold byte_stream. cbn [map String.concat fst snd].
  destruct (map _ cmds) eqn:E; [| reflexivity].
  cbn [String.concat]. clear. generalize (command_line pin angle) as a.
  induction a as [| x a IH]; [reflexivity |].
  change (String x a = String x (a ++ ""))%string. rewrite <- IH. reflexivity.
Qed.

Lemma py_str_nonempty (z : Z) (r : string) : (py_str z ++ r)%string <> EmptyString.
Proof.
  unfold py_str, NilZero.string_of_int, NilZero.string_of_uint.
  destruct (Z.to_int z) as [u | u]; destruct u; cbn; discriminate.
Qed.

End WireFacts.

(** X14: the serial format is uniquely decodable: two sequences of (pin, angle)
    commands whose command lines, written one after the other, give the same
    bytes are the same sequence.  A receiver that splits at the newlines and
    the colons recovers every command sent, negative numbers included. *)
Theorem command_bytes_decode (cmds cmds' : list (Z * Z)) :
  byte_stream cmds = byte_stream cmds' -> cmds = cmds'.
Proof.
  revert cmds'.
  induction cmds as [| [p a] cmds IH]; intros [| [p' a'] cmds'] E.
  - reflexivity.
  - rewrite WireFacts.byte_stream_cons in E. symmetry in E.
    apply WireFacts.py_str_nonempty in E. contradiction.
  - rewrite WireFacts.byte_stream_cons in E.
    apply WireFacts.py_str_nonempty in E. contradiction.
  - rewrite !WireFacts.byte_stream_cons in E.
    apply WireFacts.split_at_separator in E as (Ep & E);
      try apply WireFacts.py_str_no_separator; [| reflexivity].
    apply WireFacts.split_at_separator in E as (Ea & E);
      try apply WireFacts.py_str_no_separator; [| reflexivity].
    apply WireFacts.py_str_inj in Ep. apply WireFacts.py_str_inj in Ea.
    subst. f_equal. apply IH. exact E.
Qed.

Lemma command_bytes_decode_witness :
  [(2, 105); (5, -3)] = [(2, 105); (5, 0 - 3)].
Proof.
  apply (command_bytes_decode [(2, 105); (5, -3)] [(2, 105); (5, 0 - 3)]).
  vm_compute. reflexivity.
Defined.

(** ** The conversation memory *)

Module MemoryFacts.
Import Memory.

Lemma last_n_short {A} (n : nat) (l : list A) :
  (length l <= n)%nat -> last_n n l = l.
Proof.
  intros H. unfold last_n. replace (length l - n)%nat with 0%nat by lia.
  reflexivity.
Qed.

Lemma length_last_n {A} (n : nat) (l : list A) :
  length (last_n n l) = Nat.min n (length l).
Proof. unfold last_n. rewrite length_drop. lia. Qed.

(** One addition to the last 21 of a list gives the last 21 of the longer
    list. *)
Lemma add_last_n (r c : string) (l : list message) :
  add_to_memory r c (last_n 21 l) = last_n 21 (l ++ [Message r c]).
Proof.
  unfold add_to_memory, MAX_TURNS.
  change (10 * 2 + 1)%nat with 21%nat.
  rewrite length_app, length_last_n. cbn [length].
  destruct (Nat.le_gt_cases (length l) 20) as [H | H].
  - rewrite (last_n_short 21 l) by lia.
    replace (21 <? Nat.min 21 (length l) + 1)%nat with false
      by (symmetry; apply Nat.ltb_ge; lia).
    rewrite last_n_short; [reflexivity |]. rewrite length_app. cbn. lia.
  - replace (21 <? Nat.min 21 (length l) + 1)%nat with true
      by (symmetry; apply Nat.ltb_lt; lia).
    unfold last_n. rewrite length_app. cbn [length].
    rewrite drop_app_le by (rewrite length_drop; lia).
    rewrite drop_drop.
    rewrite drop_app_le by lia.
    f_equal. f_equal. lia.
Qed.

Lemma remember_last_n (l new : list message) :
  remember (last_n 21 l) new = last_n 21 (l ++ new).
Proof.
  revert l. induction new as [| [r c] new IH]; intros l.
  - rewrite app_nil_r. reflexivity.
  - cbn [remember foldl role content].
    rewrite add_last_n. fold (remember (last_n 21 (l ++ [Message r c])) new).
    rewrite IH, <- app_assoc. reflexivity.
Qed.

Lemma length_dialogue (xs : list (string * string)) :
  length (dialogue xs) = (2 * length xs)%nat.
Proof.
  induction xs as [| e xs IH]; [reflexivity |].
  change (dialogue (e :: xs))
    with (Message "user" e.1 :: Message "assistant" e.2 :: dialogue xs).
  cbn [length]. rewrite IH. lia.
Qed.

Lemma dialogue_app (xs ys : list (string * string)) :
  dialogue (xs ++ ys) = dialogue xs ++ dialogue ys.
Proof. unfold dialogue. rewrite map_app, concat_app. reflexivity. Qed.

Lemma drop_dialogue (k : nat) (xs : list (string * string)) :
  drop (2 * k) (dialogue xs) = dialogue (drop k xs).
Proof.
  revert xs. induction k as [| k IH]; intros xs; [reflexivity |].
  destruct xs as [| e xs]; [reflexivity |].
  replace (2 * S k)%nat with (S (S (2 * k))) by lia.
  cbn [dialogue map concat app drop]. apply IH.
Qed.

(** The last 21 messages of an answered conversation and a new question:
    the last ten exchanges and the question. *)
Lemma last_n_question (xs : list (string * string)) (m : message) :
  last_n 21 (dialogue xs ++ [m]) = dialogue (last_n 10 xs) ++ [m].
Proof.
  unfold last_n. rewrite length_app, length_dialogue. cbn [length].
  replace (2 * length xs + 1 - 21)%nat with (2 * (length xs - 10))%nat by lia.
  rewrite drop_app_le by (rewrite length_dialogue; lia).
  rewrite drop_dialogue. reflexivity.
Qed.

Lemma length_add (r c : string) (h : list message) :
  (length h <= 21)%nat -> (length (add_to_memory r c h) <= 21)%nat.
Proof.
  intros H. rewrite <- (last_n_short 21 h H), add_last_n, length_last_n. lia.
Qed.

Lemma last_add (r c : string) (h : list message) :
  (length h <= 21)%nat -> last (add_to_memory r c h) = Some (Message r c).
Proof.
  intros H. rewrite <- (last_n_short 21 h H), add_last_n.
  unfold last_n. rewrite length_app. cbn [length].
  rewrite drop_app_le by lia. apply last_snoc.
Qed.

Lemma length_turn (p : string) (client : list message -> reply)
    (h : list message) (i : input) :
  (length h <= 21)%nat -> (length (turn p client h i) <= 21)%nat.
Proof.
  intros H. destruct i as [| u]; cbn; [lia |].
  unfold get_ai_response.
  pose proof (length_add "user" u h H) as H1.
  destruct (client _); cbn [snd]; try exact H1.
  apply length_add. exact H1.
Qed.

Lemma length_session (p : string) (client : list message -> reply)
    (inputs : list input) (h : list message) :
  (length h <= 21)%nat -> (length (session p client inputs h) <= 21)%nat.
Proof.
  revert h. induction inputs as [| i inputs IH]; intros h H; [exact H |].
  cbn [session foldl]. apply IH, length_turn, H.
Qed.

End MemoryFacts.

(** X15: the memory is a sliding window: adding messages one after the other
    to a memory of at most 21 leaves the last 21 of all of them, oldest
    first, so its length is the smaller of 21 and the total. *)
Theorem memory_holds_latest (history new : list Memory.message) :
  (length history <= 21)%nat ->
  remember history new = last_n 21 (history ++ new)
  /\ length (remember history new)
     = Nat.min 21 (length history + length new).
Proof.
  intros H.
  assert (E : remember history new = last_n 21 (history ++ new)).
  { rewrite <- (MemoryFacts.last_n_short 21 history H) at 1.
    apply MemoryFacts.remember_last_n. }
  split; [exact E |].
  rewrite E, MemoryFacts.length_last_n, length_app. reflexivity.
Qed.

Lemma memory_holds_latest_witness :
  remember [] (replicate 30 (Memory.Message "user" "hello"))
  = last_n 21 ([] ++ replicate 30 (Memory.Message "user" "hello")).
Proof.
  refine (proj1 (memory_holds_latest [] (replicate 30 (Memory.Message "user" "hello")) _)).
  cbn. lia.
Defined.

(** X16: in a conversation in which every question was answered,
    [get_ai_response] sends the system prompt, the last ten exchanges (all
    of them while there are fewer) and the new question; when the service
    answers with a speech, that speech is returned and the memory again
    holds the last 21 messages of the conversation.  The window of 21
    messages thus starts with an answer between turns and with a question
    in every request. *)
Theorem request_holds_ten_exchanges (SYSTEM_PROMPT : string)
    (client : list Memory.message -> Memory.reply)
    (exchanges : list (string * string)) (question answer : string)
    (gesture : option string) :
  let history := last_n 21 (dialogue exchanges) in
  let request :=
    Memory.Message "system" SYSTEM_PROMPT
    :: dialogue (last_n 10 exchanges) ++ [Memory.Message "user" question] in
  Memory.messages SYSTEM_PROMPT (Memory.add_to_memory "user" question history)
  = request
  /\ (client request = Memory.Parsed (Some answer) gesture ->
      Memory.get_ai_response SYSTEM_PROMPT client question history
      = ((answer, default "neutral"%string gesture),
         last_n 21 (dialogue (exchanges ++ [(question, answer)])))).
Proof.
  intros history request.
  assert (E : Memory.add_to_memory "user" question history
              = dialogue (last_n 10 exchanges) ++ [Memory.Message "user" question]).
  { unfold history. rewrite MemoryFacts.add_last_n.
    apply MemoryFacts.last_n_question. }
  split.
  - unfold Memory.messages. rewrite E. reflexivity.
  - intros R. unfold Memory.get_ai_response, Memory.messages.
    rewrite E. fold request. rewrite R. cbn [default].
    f_equal. rewrite <- E. unfold history.
    rewrite !MemoryFacts.add_last_n, MemoryFacts.dialogue_app, <- app_assoc.
    reflexivity.
Qed.

Lemma request_holds_ten_exchanges_witness :
  Memory.get_ai_response "Be warm"
    (fun _ => Memory.Parsed (Some "Hi") None) "Hello"
    (last_n 21 (dialogue (replicate 12 ("Why?", "Because."))))
  = (("Hi", "neutral"),
     last_n 21 (dialogue (replicate 12 ("Why?", "Because.") ++ [("Hello", "Hi")]))).
Proof.
  refine (proj2 (request_holds_ten_exchanges "Be warm"
                   (fun _ => Memory.Parsed (Some "Hi") None)
                   (replicate 12 ("Why?", "Because.")) "Hello" "Hi" None) _).
  reflexivity.
Defined.

(** X17: whatever the service answered or failed to answer before, and
    whenever the memory was cleared, the memory never holds more than 21
    messages, and the next request has at most 22: the system prompt
    first, the new question last.  After a failed call the question stays
    in the memory, unanswered, and the fallback gesture is ["neutral"]. *)
Theorem request_is_bounded (SYSTEM_PROMPT : string)
    (client : list Memory.message -> Memory.reply)
    (inputs : list Memory.input) (question : string) :
  let history := Memory.session SYSTEM_PROMPT client inputs [] in
  let request :=
    Memory.messages SYSTEM_PROMPT (Memory.add_to_memory "user" question history) in
  (length history <= 21)%nat
  /\ (length request <= 22)%nat
  /\ head request = Some (Memory.Message "system" SYSTEM_PROMPT)
  /\ last request = Some (Memory.Message "user" question)
  /\ (client request = Memory.Failed \/ client request = Memory.NotJson ->
      let out := Memory.get_ai_response SYSTEM_PROMPT client question history in
      snd (fst out) = "neutral"%string
      /\ last (snd out) = Some (Memory.Message "user" question)).
Proof.
  intros history request.
  assert (H : (length history <= 21)%nat).
  { apply MemoryFacts.length_session. cbn. lia. }
  pose proof (MemoryFacts.length_add "user" question history H) as H1.
  pose proof (MemoryFacts.last_add "user" question history H) as H2.
  repeat split.
  - exact H.
  - unfold request, Memory.messages. cbn [length]. lia.
  - unfold request, Memory.messages.
    destruct (Memory.add_to_memory "user" question history) as [| x l];
      [discriminate H2 |].
    change (last (x :: l) = Some (Memory.Message "user" question)).
    exact H2.
  - unfold Memory.get_ai_response. fold request.
    destruct H0 as [-> | ->]; reflexivity.
  - unfold Memory.get_ai_response. fold request.
    destruct H0 as [-> | ->]; exact H2.
Qed.

Lemma request_is_bounded_witness :
  let out := Memory.get_ai_response "Be warm" (fun _ => Memory.Failed) "Hello"
               (Memory.session "Be warm" (fun _ => Memory.Failed)
                  [Memory.Say "Hi"; Memory.Clear; Memory.Say "Are you there?"] []) in
  snd (fst out) = "neutral"%string
  /\ last (snd out) = Some (Memory.Message "user" "Hello").
Proof.
  refine (proj2 (proj2 (proj2 (proj2
    (request_is_bounded "Be warm" (fun _ => Memory.Failed)
       [Memory.Say "Hi"; Memory.Clear; Memory.Say "Are you there?"] "Hello")))) _).
  left. reflexivity.
Defined.
